(** * WaveBlocksND: the gradient stencil on Hagedorn wavepackets, the storage
    of basis shapes and the parameter container.

    The development embeds
    - [WaveBlocksND/GradientHAWP.py] (the scatter stencil of the gradient),
    - [WaveBlocksND/IOM_plugin_wavepacket.py] and
      [WaveBlocksND/IOM_plugin_inhomogwavepacket.py] (basis shapes in the
      simulation result file),
    - [WaveBlocksND/ParameterProvider.py] (parameters with global defaults),
    - [WaveBlocksND/ObservablesHAWP.py] (the kinetic energy),
    and states the properties of the specification over these embeddings.
    Floating point numbers are read as real numbers, complex numbers as
    pairs of reals. *)

From Stdlib Require Import Reals Lra ZArith Ascii.
From stdpp Require Import base option list gmap strings pretty.

(** ** Complex numbers, as numpy's [complexfloating] read over the reals *)

Module Cplx.

Abbreviation C := (R * R)%type (only parsing).

Definition RtoC (x : R) : C := (x, 0%R).

Definition Czero : C := (0%R, 0%R).

Definition Cadd (a b : C) : C := ((a.1 + b.1)%R, (a.2 + b.2)%R).

Definition Cmul (a b : C) : C :=
  ((a.1 * b.1 - a.2 * b.2)%R, (a.1 * b.2 + a.2 * b.1)%R).

Definition Cconj (a : C) : C := (a.1, (- a.2)%R).

End Cplx.

Export Cplx.

(** ** Exceptions and a state monad that keeps the state of a failed call *)

Inductive exn : Type :=
| KeyError
| IndexError
| ValueError.

Definition M (S A : Type) : Type := S → (exn + A) * S.

Definition ret {S A : Type} (a : A) : M S A := λ σ, (inr a, σ).

Definition raise {S A : Type} (e : exn) : M S A := λ σ, (inl e, σ).

Definition bind {S A B : Type} (m : M S A) (f : A → M S B) : M S B :=
  λ σ, match m σ with
       | (inr a, σ') => f a σ'
       | (inl e, σ') => (inl e, σ')
       end.

#[global] Instance M_ret (S : Type) : MRet (M S) := λ A a, ret a.
#[global] Instance M_bind (S : Type) : MBind (M S) := λ A B f m, bind m f.

Definition lift_opt {S A : Type} (e : exn) (o : option A) : M S A :=
  match o with
  | Some a => ret a
  | None => raise e
  end.

(** [for x in l: body x] *)
Fixpoint for_each {S A : Type} (l : list A) (body : A → M S unit) : M S unit :=
  match l with
  | [] => ret tt
  | x :: r => bind (body x) (λ _, for_each r body)
  end.

(** ** Basis shapes *)

Module BasisShape.

(** A node is a tuple of Python integers. *)
Abbreviation node := (list Z) (only parsing).

(** Modelled from the spec: the class [BasisShape] and its subclasses are not
    under src/. A shape is the finite sequence of its nodes in the canonical
    iteration order (section 3); the linear index of a node is its place in
    that order, so the index range is [0, size). *)
Record shape : Type := Shape {
  dimension : nat;
  nodes : list node
}.

(** [shape.get_node_iterator()] (spec: [iterate]) *)
Definition get_node_iterator (K : shape) : list node := nodes K.

(** [shape.get_basis_size()] (spec: [size]) *)
Definition get_basis_size (K : shape) : nat := length (nodes K).

(** [k in shape] (spec: [contains]) *)
Definition contains (K : shape) (k : node) : bool := bool_decide (k ∈ nodes K).

(** [shape[k]] (spec: [position_of]); [None] stands for the KeyError. *)
Definition getitem (K : shape) (k : node) : option nat :=
  fst <$> list_find (λ x, x = k) (nodes K).

(** [k + e_d] and [k - e_d] *)
Definition unit_add (k : node) (d : nat) : node := alter (λ x, x + 1)%Z d k.
Definition unit_sub (k : node) (d : nat) : node := alter (λ x, x - 1)%Z d k.

(** The nodes [k + e_d] for [k] in the shape and [d] in [0, D), in iteration
    order. *)
Definition increments (K : shape) : list node :=
  k ← nodes K; (unit_add k <$> seq 0 (dimension K)).

Definition add_if_new (acc : list node) (n : node) : list node :=
  if bool_decide (n ∈ acc) then acc else acc ++ [n].

(** Modelled from the spec: [BasisShape.extend] is not under src/. Section 4.2:
    the node set of the result is the union of the shape's nodes and of every
    [k + e_d], a node being added provided it is not already present. *)
Definition extend (K : shape) : shape :=
  {| dimension := dimension K;
     nodes := foldl add_if_new (nodes K) (increments K) |}.

Inductive selection : Type := backward | forward.

Definition backward_at (Ke : shape) (k : node) (d : nat) : list (nat * node) :=
  match k !! d with
  | Some kd =>
      if bool_decide (0 < kd)%Z && contains Ke (unit_sub k d)
      then [(d, unit_sub k d)] else []
  | None => []
  end.

Definition forward_at (Ke : shape) (k : node) (d : nat) : list (nat * node) :=
  match k !! d with
  | Some _ => if contains Ke (unit_add k d) then [(d, unit_add k d)] else []
  | None => []
  end.

(** Modelled from the spec: [BasisShape.get_neighbours] is not under src/.
    Section 4.3: by increasing dimension [d]; backward, the node [k - e_d]
    where [k[d] > 0] and the decremented node is in the shape; forward, the
    node [k + e_d] where it is in the shape; other dimensions are skipped. *)
Definition get_neighbours (Ke : shape) (k : node) (sel : selection)
  : list (nat * node) :=
  d ← seq 0 (dimension Ke);
  match sel with
  | backward => backward_at Ke k d
  | forward => forward_at Ke k d
  end.

(** Every node is a [D]-tuple and no node is listed twice. *)
Definition wf_shape (K : shape) : Prop :=
  NoDup (nodes K) ∧ Forall (λ k, length k = dimension K) (nodes K).


End BasisShape.


Export BasisShape.

(** ** numpy arrays in a store *)

Module NumPy.

(** A two-dimensional complex array, by rows. *)
Abbreviation ndarray := (list (list C)) (only parsing).

(** Arrays are objects: an address is the place of the array in the store,
    and a new array takes the next free address. *)
Abbreviation loc := nat (only parsing).
Abbreviation store := (list ndarray) (only parsing).

Definition alloc (a : ndarray) : M store loc :=
  λ σ, (inr (length σ), σ ++ [a]).

Definition load (l : loc) : M store ndarray :=
  λ σ, match σ !! l with
       | Some a => (inr a, σ)
       | None => (inl ValueError, σ)
       end.

(** [zeros((n, m), dtype=complexfloating)] *)
Definition zeros (n m : nat) : M store loc :=
  alloc (replicate n (replicate m Czero)).

(** [conjugate(a)]: a new array *)
Definition conjugate (l : loc) : M store loc :=
  a ← load l; alloc (map (map Cconj) a).

(** A row of one entry read as a scalar (arrays of shape [(n, 1)]). *)
Definition scalar_of (row : list C) : option C :=
  match row with
  | [c] => Some c
  | _ => None
  end.

(** [a[:, d]] *)
Definition column (a : ndarray) (d : nat) : option (list C) :=
  mapM (λ row : list C, row !! d) a.

Definition row_add (r v : list C) : option (list C) :=
  if decide (length r = length v) then Some (zip_with Cadd r v) else None.

(** [a[i, :] += v], in place *)
Definition iadd_row (l : loc) (i : nat) (v : list C) : M store unit :=
  λ σ, match σ !! l with
       | Some a =>
           match a !! i with
           | Some r =>
               match row_add r v with
               | Some r' => (inr tt, <[l := <[i := r']> a]> σ)
               | None => (inl ValueError, σ)
               end
           | None => (inl IndexError, σ)
           end
       | None => (inl ValueError, σ)
       end.

End NumPy.

Export NumPy.

(** ** GradientHAWP.py *)

Module GradientHAWP.

(** Modelled from the spec: the wavepacket classes are not under src/. The
    container owns the parameter arrays [q, p, Q, P, S] (shapes [(D,1)],
    [(D,1)], [(D,D)], [(D,D)], [(1,1)]) and, per component, a basis shape and
    a coefficient array of shape [(|K|, 1)]; its getters hand out the arrays
    themselves. *)
Record HagedornWavepacket : Type := {
  wp_dimension : nat;
  wp_eps : R;
  wp_Pi : loc * loc * loc * loc * loc;
  wp_basis_shapes : list shape;
  wp_coefficients : list loc
}.

Definition get_dimension (wavepacket : HagedornWavepacket) : nat :=
  wp_dimension wavepacket.

Definition get_eps (wavepacket : HagedornWavepacket) : R := wp_eps wavepacket.

Definition get_parameters (wavepacket : HagedornWavepacket) (component : nat)
  : M store (loc * loc * loc * loc * loc) :=
  mret (wp_Pi wavepacket).

Definition get_coefficients (wavepacket : HagedornWavepacket) (component : nat)
  : M store loc :=
  lift_opt IndexError (wp_coefficients wavepacket !! component).

Definition get_basis_shapes (wavepacket : HagedornWavepacket) (component : nat)
  : M store shape :=
  lift_opt IndexError (wp_basis_shapes wavepacket !! component).

(** [coeffs[K[k]]], an array of shape [(1,)] *)
Definition coefficient_at (K : shape) (coeffs : loc) (k : node) : M store C :=
  j ← lift_opt KeyError (getitem K k);
  a ← load coeffs;
  row ← lift_opt IndexError (a !! j);
  lift_opt ValueError (scalar_of row).

(** [cnew[Ke[k], :] += squeeze(coeffs[K[k]] * p)] *)
Definition central_term (Ke K : shape) (coeffs p cnew : loc) (k : node)
  : M store unit :=
  i ← lift_opt KeyError (getitem Ke k);
  c ← coefficient_at K coeffs k;
  pa ← load p;
  pv ← lift_opt ValueError (mapM scalar_of pa);
  iadd_row cnew i (Cmul c <$> pv).

(** [sqrt(eps**2 / 2.0) * sqrt(x) * c * col] *)
Definition ladder_row (eps x : R) (c : C) (col : list C) : list C :=
  Cmul (Cmul (RtoC (sqrt (eps ^ 2 / 2) * sqrt x)) c) <$> col.

(** The backward loop (lines 55 to 58):
    [for d, nb in Ke.get_neighbours(k, selection="backward"):
       cnew[Ke[nb], :] += sqrt(eps**2 / 2.0) * sqrt(k[d]) * coeffs[K[k]] * Pbar[:, d]] *)
Definition backward_terms (Ke K : shape) (eps : R) (coeffs Pbar cnew : loc)
  (k : node) : M store unit :=
  let nbw := get_neighbours Ke k backward in
  for_each nbw (λ '(d, nb),
    i ← lift_opt KeyError (getitem Ke nb);
    kd ← lift_opt IndexError (k !! d);
    c ← coefficient_at K coeffs k;
    Pa ← load Pbar;
    col ← lift_opt IndexError (column Pa d);
    iadd_row cnew i (ladder_row eps (IZR kd) c col)).

(** The forward loop (lines 61 to 64):
    [for d, nb in Ke.get_neighbours(k, selection="forward"):
       cnew[Ke[nb], :] += sqrt(eps**2 / 2.0) * sqrt(k[d] + 1.0) * coeffs[K[k]] * P[:, d]] *)
Definition forward_terms (Ke K : shape) (eps : R) (coeffs P cnew : loc)
  (k : node) : M store unit :=
  let nfw := get_neighbours Ke k forward in
  for_each nfw (λ '(d, nb),
    i ← lift_opt KeyError (getitem Ke nb);
    kd ← lift_opt IndexError (k !! d);
    c ← coefficient_at K coeffs k;
    Pa ← load P;
    col ← lift_opt IndexError (column Pa d);
    iadd_row cnew i (ladder_row eps (IZR kd + 1) c col)).

(** The body of the loop over the nodes of [K] (lines 51 to 64). *)
Definition stencil_at (Ke K : shape) (eps : R) (coeffs p P Pbar cnew : loc)
  (k : node) : M store unit :=
  central_term Ke K coeffs p cnew k;;
  backward_terms Ke K eps coeffs Pbar cnew k;;
  forward_terms Ke K eps coeffs P cnew k.

Definition apply_gradient_component (wavepacket : HagedornWavepacket)
  (component : nat) : M store (shape * loc) :=
  let D := get_dimension wavepacket in
  let eps := get_eps wavepacket in
  '(q, p, Q, P, S0) ← get_parameters wavepacket component;
  Pbar ← conjugate P;
  coeffs ← get_coefficients wavepacket component;
  K ← get_basis_shapes wavepacket component;
  let Ke := extend K in
  let size := get_basis_size Ke in
  cnew ← zeros size D;
  for_each (get_node_iterator K) (stencil_at Ke K eps coeffs p P Pbar cnew);;
  mret (Ke, cnew).

(** *** The stencil in the words of the specification (section 4.4)

    A contribution is a row index of the new array and the row added there;
    the result is the scatter-add of the contributions onto zeros. *)

Abbreviation contribution := (nat * list C)%type (only parsing).

Definition scatter_add (cs : list contribution) (a : ndarray) : ndarray :=
  foldl (λ (acc : ndarray) (iv : contribution),
           alter (λ r, zip_with Cadd r iv.2) iv.1 acc) a cs.

Definition position_of (Ke : shape) (k : node) : nat :=
  default 0 (getitem Ke k).

Definition column_of (Pm : ndarray) (d : nat) : list C :=
  (λ row : list C, default Czero (row !! d)) <$> Pm.

Definition component_of (k : node) (d : nat) : Z := default 0%Z (k !! d).

Definition central_contribution (Ke : shape) (c : C) (pv : list C) (k : node)
  : contribution :=
  (position_of Ke k, Cmul c <$> pv).

(** The backward terms of the node [k] with coefficient [c], the neighbours
    looked up in [L] and the rows addressed through [Ke]. *)
Definition backward_contributions (L Ke : shape) (eps : R) (B : ndarray)
  (c : C) (k : node) : list contribution :=
  (λ dn : nat * node,
     (position_of Ke dn.2,
      ladder_row eps (IZR (component_of k dn.1)) c (column_of B dn.1)))
  <$> get_neighbours L k backward.

Definition forward_contributions (L Ke : shape) (eps : R) (A : ndarray)
  (c : C) (k : node) : list contribution :=
  (λ dn : nat * node,
     (position_of Ke dn.2,
      ladder_row eps (IZR (component_of k dn.1) + 1) c (column_of A dn.1)))
  <$> get_neighbours L k forward.

(** *** Shapes of arrays and what the proofs say of a store *)

(** An array of [n] rows and [m] columns. *)
Definition has_shape (n m : nat) (a : ndarray) : Prop :=
  length a = n ∧ Forall (λ r : list C, length r = m) a.

(** The coefficient of a node, read off the coefficient array. *)
Definition coefficient_value (K : shape) (ca : ndarray) (k : node) : option C :=
  j ← getitem K k; row ← ca !! j; scalar_of row.

(** What a block needs of the store: the coefficient array is in place and
    the new array has a row of [D] entries for every node of [Ke]. *)
Definition block_store (Ke : shape) (D : nat) (coeffs cnew : loc)
  (ca : ndarray) (σ : store) (a : ndarray) : Prop :=
  σ !! coeffs = Some ca ∧ σ !! cnew = Some a ∧
  has_shape (get_basis_size Ke) D a.

Definition coefficient_of (K : shape) (ca : ndarray) (k : node) : C :=
  default Czero (coefficient_value K ca k).

(** The contributions of one node: the central term, the backward terms with
    the neighbours looked up in [Lb], the forward terms with the neighbours
    looked up in [Lf]. *)
Definition node_contributions (Lb Lf Ke K : shape) (eps : R)
  (ca pa A B : ndarray) (k : node) : list contribution :=
  central_contribution Ke (coefficient_of K ca k) (column_of pa 0) k ::
  backward_contributions Lb Ke eps B (coefficient_of K ca k) k ++
  forward_contributions Lf Ke eps A (coefficient_of K ca k) k.

Definition stencil_contributions (Lb Lf Ke K : shape) (eps : R)
  (ca pa A B : ndarray) : list contribution :=
  k ← nodes K; node_contributions Lb Lf Ke K eps ca pa A B k.

(** The arrays the loop reads are in place. *)
Definition loop_store (K : shape) (D : nat) (coeffs p P Pbar cnew : loc)
  (ca pa A B : ndarray) (σ : store) (a : ndarray) : Prop :=
  block_store (extend K) D coeffs cnew ca σ a ∧
  σ !! p = Some pa ∧ σ !! P = Some A ∧ σ !! Pbar = Some B.

(** What a call reads: the shape of the component and the arrays of the
    coefficients, of [p] and of [P]. *)
Definition read_input (σ : store) (wavepacket : HagedornWavepacket)
  (component : nat) : option (shape * ndarray * ndarray * ndarray) :=
  let '(q, p, Q, P, S0) := wp_Pi wavepacket in
  K ← wp_basis_shapes wavepacket !! component;
  coeffs ← wp_coefficients wavepacket !! component;
  ca ← σ !! coeffs;
  pa ← σ !! p;
  Pa ← σ !! P;
  Some (K, ca, pa, Pa).

(** The preconditions of section 4.4: one coefficient row per node, [p] a
    [D]-vector and [P] a [D]-by-[D] matrix. *)
Definition valid_input (D : nat) (inp : shape * ndarray * ndarray * ndarray)
  : Prop :=
  let '(K, ca, pa, Pa) := inp in
  dimension K = D ∧ has_shape (get_basis_size K) 1 ca ∧
  has_shape D 1 pa ∧ has_shape D D Pa.

(** All contributions of a call, as the code looks the neighbours up. *)
Definition gradient_contributions (eps : R)
  (inp : shape * ndarray * ndarray * ndarray) : list contribution :=
  let '(K, ca, pa, Pa) := inp in
  stencil_contributions (extend K) (extend K) (extend K) K eps ca pa Pa
    (map (map Cconj) Pa).

Definition gradient_coefficients (eps : R) (D : nat)
  (inp : shape * ndarray * ndarray * ndarray) : ndarray :=
  scatter_add (gradient_contributions eps inp)
    (replicate (get_basis_size (extend inp.1.1.1)) (replicate D Czero)).

(** [frame n m Q]: run from a store of at least [n] arrays, [m] leaves the
    first [n] arrays as they are, on success and on failure, and a result
    satisfies [Q]. *)
Definition frame {A : Type} (n : nat) (m : M store A) (Q : A → Prop) : Prop :=
  ∀ σ : store, n ≤ length σ →
    n ≤ length (m σ).2 ∧ take n (m σ).2 = take n σ ∧
    ∀ a, (m σ).1 = inr a → Q a ∧ length σ ≤ length (m σ).2.

(** The loop allocates nothing. *)
Definition same_length {A : Type} (m : M store A) : Prop :=
  ∀ σ : store, length (m σ).2 = length σ.

(** What holds of the result and the final store when [m] returns. *)
Definition returns {S A : Type} (m : M S A) (σ : S) (Φ : A → S → Prop) : Prop :=
  ∀ a σ', m σ = (inr a, σ') → Φ a σ'.

End GradientHAWP.


Export GradientHAWP.

(** ** ObservablesHAWP.py *)

Module ObservablesHAWP.

(** [sum] over a list of numbers. *)
Definition Csum (l : list C) : C := foldr Cadd Czero l.

(** [0.5 * sum(sum(conjugate(cnew) * cnew, axis=1), axis=0)] *)
Definition energy_of (cnew : ndarray) : C :=
  Cmul (RtoC (1 / 2))
    (Csum ((λ row : list C, Csum ((λ x, Cmul (Cconj x) x) <$> row)) <$> cnew)).

(** What [kinetic_energy] returns: a list of numbers, or one number. *)
Inductive energies : Type :=
| EList (es : list C)
| EScalar (e : C).

(** Modelled from the spec: [wavepacket.get_number_components()] is not
    under src/; a packet has one basis shape per component. *)
Definition get_number_components (wavepacket : HagedornWavepacket) : nat :=
  length (wp_basis_shapes wavepacket).

Section observables.

(** [self._gradient.apply_gradient(wavepacket, component=n, as_packet=False)]:
    the method of the gradient object that [set_gradient] stored. *)
Variable apply_gradient : HagedornWavepacket → nat → M store (shape * loc).

(** The loop of [kinetic_energy] (lines 95 to 97). *)
Fixpoint component_energies (wavepacket : HagedornWavepacket)
  (components : list nat) : M store (list C) :=
  match components with
  | [] => mret []
  | n :: rest =>
      '(Kprime, cnew) ← apply_gradient wavepacket n;
      a ← load cnew;
      ekin ← component_energies wavepacket rest;
      mret (energy_of a :: ekin)
  end.

Definition kinetic_energy (wavepacket : HagedornWavepacket)
  (component : option nat) (summed : bool) : M store energies :=
  let components :=
    match component with
    | None => seq 0 (get_number_components wavepacket)
    | Some n => [n]
    end in
  ekin ← component_energies wavepacket components;
  if summed then mret (EScalar (Csum ekin))
  else match component with
       | Some _ => e ← lift_opt IndexError (ekin !! 0); mret (EScalar e)
       | None => mret (EList ekin)
       end.

End observables.

End ObservablesHAWP.

Export ObservablesHAWP.

(** ** Basis shape objects, their descriptions and hashes *)

Module ShapeObjects.

(** The values of a description: primitive types (section 6). *)
Inductive dvalue : Type :=
| DStr (s : string)
| DInt (z : Z)
| DInts (zs : list Z).

(** A description is a Python dict with string keys. *)
Abbreviation description := (gmap string dvalue) (only parsing).

(** Modelled from the spec: the shape classes are not under src/. An object
    of a shape family carries its family tag, the parameters of the family,
    the node sequence built from them and its hash (sections 3 and 4.1). *)
Record BasisShapeObject : Type := {
  family : string;
  limits : list Z;
  shape_of : shape;
  hash : Z
}.

(** The nodes of the hyper-rectangular family: every tuple [k] with
    [0 <= k[d] < limits[d]], in lexicographic order. *)
Fixpoint hypercubic_nodes (lim : list Z) : list node :=
  match lim with
  | [] => [[]]
  | l :: r => i ← seqZ 0 l; (cons i <$> hypercubic_nodes r)
  end.

Section families.

(** Python's built-in [hash] on the pair of a family tag and its parameters. *)
Variable builtin_hash : string * list Z → Z.

(** Modelled from the spec: the hyper-rectangular family (the example
    configuration under src/ names it "HyperCubicShape" and gives it the
    parameter "limits"); the hash derives from the family tag and the
    parameters (section 3). *)
Definition HyperCubicShape (lim : list Z) : BasisShapeObject :=
  {| family := "HyperCubicShape";
     limits := lim;
     shape_of := Shape (length lim) (hypercubic_nodes lim);
     hash := builtin_hash ("HyperCubicShape"%string, lim) |}.

(** Modelled from the spec: [BlockFactory.create_basis_shape] is not under
    src/. The family tag selects the family, the parameters are read from the
    description; an unknown tag or a missing parameter is an error
    (section 7). *)
Definition create_basis_shape (descr : description) : option BasisShapeObject :=
  match descr !! "type"%string with
  | Some (DStr "HyperCubicShape") =>
      match descr !! "limits"%string with
      | Some (DInts lim) => Some (HyperCubicShape lim)
      | _ => None
      end
  | _ => None
  end.

End families.

(** Modelled from the spec: [BasisShape.get_description] is not under src/.
    The family tag and the parameters of the family (section 4.1), under the
    keys of the example configuration. *)
Definition get_description (K : BasisShapeObject) : description :=
  {[ "type"%string := DStr (family K);
     "limits"%string := DInts (limits K);
     "dimension"%string := DInt (Z.of_nat (dimension (shape_of K))) ]}.

End ShapeObjects.

Export ShapeObjects.

(** ** Python's strings, as far as the plugins use them *)

Module PyString.

(** [s[n:]] *)
Fixpoint string_drop (n : nat) (s : string) : string :=
  match n, s with
  | S n', String _ r => string_drop n' r
  | _, _ => s
  end.

(** Strings are sequences of code points below 256: the character of code
    [c] stands for the code point [c]. *)
Definition is_ascii (c : Ascii.ascii) : bool := (Ascii.N_of_ascii c <? 128)%N.

(** The characters that [int] drops as white space at the ends of a string:
    tab to carriage return and the space, and of the code points from 128 on
    the two that are white space, 133 and 160. *)
Definition is_space (c : Ascii.ascii) : bool :=
  let n := Ascii.N_of_ascii c in
  ((9 <=? n) && (n <=? 13) || (n =? 32) || (n =? 133) || (n =? 160))%N.

Fixpoint lstrip (s : string) : string :=
  match s with
  | String c r => if is_space c then lstrip r else s
  | EmptyString => EmptyString
  end.

Fixpoint rstrip (s : string) : string :=
  match s with
  | String c r =>
      match rstrip r with
      | EmptyString => if is_space c then EmptyString else String c EmptyString
      | r' => String c r'
      end
  | EmptyString => EmptyString
  end.

Definition digit_of (c : Ascii.ascii) : option Z :=
  let n := Z.of_N (Ascii.N_of_ascii c) in
  if bool_decide (48 ≤ n ≤ 57)%Z then Some (n - 48)%Z else None.

(** The decimal digits of a number, read from the left; an underscore may
    stand between two digits. [prev] tells that the last character was a
    digit. *)
Fixpoint digits_go (prev : bool) (acc : Z) (s : string) : option Z :=
  match s with
  | EmptyString => if prev then Some acc else None
  | String c r =>
      match digit_of c with
      | Some d => digits_go true (acc * 10 + d)%Z r
      | None =>
          if prev && bool_decide (c = "_"%char) then digits_go false acc r
          else None
      end
  end.

(** [int(s)] on a string: white space at both ends is dropped, a sign may
    lead, the digits are the decimal digits 0 to 9 (no other code point below
    256 is a decimal digit), single underscores between digits are allowed.
    [None] stands for the ValueError of a string that is no number. The
    limit that newer interpreters set on the number of digits is left
    out. *)
Definition int_of_string (s : string) : option Z :=
  match rstrip (lstrip s) with
  | String c r =>
      if bool_decide (c = "-"%char) then Z.opp <$> digits_go false 0 r
      else if bool_decide (c = "+"%char) then digits_go false 0 r
      else digits_go false 0 (String c r)
  | EmptyString => None
  end.

(** A string whose characters all pass the test [P]. *)
Fixpoint all_chars (P : Ascii.ascii → bool) (s : string) : bool :=
  match s with
  | EmptyString => true
  | String c r => P c && all_chars P r
  end.

Definition is_digit (c : Ascii.ascii) : bool :=
  bool_decide (is_Some (digit_of c)).

End PyString.

Export PyString.

(** ** IOM_plugin_wavepacket.py and IOM_plugin_inhomogwavepacket.py *)

Module IOM.

(** A data set of integers with its attributes. *)
Record dataset {attr : Type} : Type := Dataset {
  ds_data : list Z;
  ds_attrs : gmap string attr
}.

Arguments dataset : clear implicits.

(** The result file [self._srf]: the groups by path, a group holding its
    data sets by name. *)
Abbreviation group attr := (gmap string (dataset attr)) (only parsing).
Abbreviation srf attr := (gmap string (group attr)) (only parsing).

Section plugins.

(** What [IOManager._save_attr_value] stores for a value, and
    [IOManager._load_attr_value] reads back; the two methods are not under
    src/. *)
Context {attr : Type}.
Variable _save_attr_value : dvalue → attr.
Variable _load_attr_value : attr → dvalue.

(** [self._srf[pathd]] *)
Definition get_group (pathd : string) : M (srf attr) (group attr) :=
  λ σ, lift_opt KeyError (σ !! pathd) σ.

(** [for key, value in descr.items(): daset.attrs[key] = self._save_attr_value(value)] *)
Definition save_description (descr : description) (attrs : gmap string attr)
  : gmap string attr :=
  map_fold (λ key value acc, <[key := _save_attr_value value]> acc) attrs descr.

(** The name under which a shape is stored, and the data set written for
    it: its hash, and its description in the attributes. *)
Definition shape_name (K : BasisShapeObject) : string :=
  "basis_shape_" +:+ pretty (hash K).

Definition shape_dataset (K : BasisShapeObject) : dataset attr :=
  {| ds_data := [hash K]; ds_attrs := _save_attr_value <$> get_description K |}.

(** [self._srf[pathd].create_dataset(name, (1,), dtype=np.integer)] followed
    by the writes to the new data set; h5py refuses a name that is taken. *)
Definition create_dataset (pathd name : string) (daset : dataset attr)
  : M (srf attr) unit :=
  λ σ, match σ !! pathd with
       | Some grp =>
           if bool_decide (name ∈ dom grp) then (inl ValueError, σ)
           else (inr tt, <[pathd := <[name := daset]> grp]> σ)
       | None => (inl KeyError, σ)
       end.

(** The body shared by [save_wavepacket_basisshapes] and
    [save_inhomogwavepacket_basisshapes], which differ in [pathd] only. *)
Definition save_basisshapes_at (pathd : string) (basisshape : BasisShapeObject)
  : M (srf attr) unit :=
  let ha := hash basisshape in
  let name := "basis_shape_" +:+ pretty ha in
  grp ← get_group pathd;
  if bool_decide (name ∉ dom grp) then
    create_dataset pathd name
      {| ds_data := [ha];
         ds_attrs := save_description (get_description basisshape) ∅ |}
  else mret tt.

Definition save_wavepacket_basisshapes (_prefixb : string)
  (basisshape : BasisShapeObject) (blockid : Z) : M (srf attr) unit :=
  let pathd := "/" +:+ _prefixb +:+ pretty blockid +:+ "/wavepacket/basisshapes/" in
  save_basisshapes_at pathd basisshape.

Definition save_inhomogwavepacket_basisshapes (_prefixb : string)
  (basisshape : BasisShapeObject) (blockid : Z) : M (srf attr) unit :=
  let pathd :=
    "/" +:+ _prefixb +:+ pretty blockid +:+ "/wavepacket_inhomog/basisshapes/" in
  save_basisshapes_at pathd basisshape.

(** [load_wavepacket_basisshapes] with a hash given (the branch
    [the_hash is not None], the one [load_wavepacket] takes). *)
Definition load_wavepacket_basisshapes (_prefixb : string) (the_hash : Z)
  (blockid : Z) : M (srf attr) description :=
  let pathd := "/" +:+ _prefixb +:+ pretty blockid +:+ "/wavepacket/basisshapes/" in
  let name := "basis_shape_" +:+ pretty the_hash in
  grp ← get_group pathd;
  match grp !! name with
  | Some daset => mret (_load_attr_value <$> ds_attrs daset)
  | None => raise IndexError
  end.

(** The basis shapes of [load_wavepacket] (lines 351 to 355):
    [for ahash in hashes: Ks.append(BF.create_basis_shape(K_descr))] *)
Fixpoint load_basis_shapes (builtin_hash : string * list Z → Z)
  (_prefixb : string) (hashes : list Z) (blockid : Z)
  : M (srf attr) (list BasisShapeObject) :=
  match hashes with
  | [] => mret []
  | ahash :: rest =>
      K_descr ← load_wavepacket_basisshapes _prefixb ahash blockid;
      K ← lift_opt ValueError (create_basis_shape builtin_hash K_descr);
      Ks ← load_basis_shapes builtin_hash _prefixb rest blockid;
      mret (K :: Ks)
  end.

(** [load_inhomogwavepacket_basisshapes] with a hash given. *)
Definition load_inhomogwavepacket_basisshapes (_prefixb : string) (the_hash : Z)
  (blockid : Z) : M (srf attr) description :=
  let pathd :=
    "/" +:+ _prefixb +:+ pretty blockid +:+ "/wavepacket_inhomog/basisshapes/" in
  let name := "basis_shape_" +:+ pretty the_hash in
  grp ← get_group pathd;
  match grp !! name with
  | Some daset => mret (_load_attr_value <$> ds_attrs daset)
  | None => raise IndexError
  end.

(** The basis shapes of [save_wavepacket] (lines 384 to 385):
    [for shape in packet.get_basis_shapes():
       self.save_wavepacket_basisshapes(shape, blockid=blockid)] *)
Definition save_basis_shapes (_prefixb : string)
  (shapes : list BasisShapeObject) (blockid : Z) : M (srf attr) unit :=
  for_each shapes
    (λ shape, save_wavepacket_basisshapes _prefixb shape blockid).

(** The names of the members of a group, in the order in which h5py lists
    them; the order is left open. *)
Variable keys : group attr → list string.

(** The loop of [load_wavepacket_basisshapes] without a hash (lines 300 to
    306): the description of every member [ahash] of the group is entered
    under [int(ahash[12:])]; the member is looked up under [pathd + ahash]. *)
Fixpoint load_descriptions (grp : group attr) (names : list string)
  (descrs : gmap Z description) : M (srf attr) (gmap Z description) :=
  match names with
  | [] => mret descrs
  | ahash :: rest =>
      daset ← lift_opt KeyError (grp !! ahash);
      n ← lift_opt ValueError (int_of_string (string_drop 12 ahash));
      load_descriptions grp rest
        (<[n := _load_attr_value <$> ds_attrs daset]> descrs)
  end.

Definition load_all_basisshapes_at (pathd : string)
  : M (srf attr) (gmap Z description) :=
  grp ← get_group pathd;
  load_descriptions grp (keys grp) ∅.

(** [load_wavepacket_basisshapes] and [load_inhomogwavepacket_basisshapes]
    with [the_hash is None]. *)
Definition load_wavepacket_basisshapes_all (_prefixb : string) (blockid : Z)
  : M (srf attr) (gmap Z description) :=
  load_all_basisshapes_at
    ("/" +:+ _prefixb +:+ pretty blockid +:+ "/wavepacket/basisshapes/").

Definition load_inhomogwavepacket_basisshapes_all (_prefixb : string)
  (blockid : Z) : M (srf attr) (gmap Z description) :=
  load_all_basisshapes_at
    ("/" +:+ _prefixb +:+ pretty blockid +:+ "/wavepacket_inhomog/basisshapes/").

End plugins.

(** The attributes of the groups of the result file, by the path of the
    group. *)
Abbreviation group_attrs attr := (gmap string (gmap string attr)) (only parsing).

Section descriptions.

(** The values of a wavepacket description and what [_save_attr_value]
    and [_load_attr_value] make of them. *)
Context {val attr : Type}.
Variable _save_attr_value : val → attr.
Variable _load_attr_value : attr → val.

(** [self._srf[pathd].attrs[key] = v] *)
Definition set_attr (pathd key : string) (v : attr) : M (group_attrs attr) unit :=
  λ σ, match σ !! pathd with
       | Some attrs => (inr tt, <[pathd := <[key := v]> attrs]> σ)
       | None => (inl KeyError, σ)
       end.

(** The body shared by [save_wavepacket_description] and
    [save_inhomogwavepacket_description]:
    [for key, value in descr.items():
       self._srf[pathd].attrs[key] = self._save_attr_value(value)] *)
Definition save_description_at (pathd : string) (descr : gmap string val)
  : M (group_attrs attr) unit :=
  for_each (map_to_list descr)
    (λ kv, set_attr pathd kv.1 (_save_attr_value kv.2)).

Definition save_wavepacket_description (_prefixb : string)
  (descr : gmap string val) (blockid : Z) : M (group_attrs attr) unit :=
  save_description_at ("/" +:+ _prefixb +:+ pretty blockid +:+ "/wavepacket") descr.

Definition save_inhomogwavepacket_description (_prefixb : string)
  (descr : gmap string val) (blockid : Z) : M (group_attrs attr) unit :=
  save_description_at
    ("/" +:+ _prefixb +:+ pretty blockid +:+ "/wavepacket_inhomog") descr.

(** The body shared by [load_wavepacket_description] and
    [load_inhomogwavepacket_description]. *)
Definition load_description_at (pathd : string)
  : M (group_attrs attr) (gmap string val) :=
  λ σ, match σ !! pathd with
       | Some attrs => (inr (_load_attr_value <$> attrs), σ)
       | None => (inl KeyError, σ)
       end.

Definition load_wavepacket_description (_prefixb : string) (blockid : Z)
  : M (group_attrs attr) (gmap string val) :=
  load_description_at ("/" +:+ _prefixb +:+ pretty blockid +:+ "/wavepacket").

Definition load_inhomogwavepacket_description (_prefixb : string) (blockid : Z)
  : M (group_attrs attr) (gmap string val) :=
  load_description_at
    ("/" +:+ _prefixb +:+ pretty blockid +:+ "/wavepacket_inhomog").

End descriptions.


End IOM.

Export IOM.

(** ** Python objects and [copy.deepcopy] *)

Module Python.

Abbreviation addr := nat (only parsing).

(** A value is atomic or the address of a mutable container. *)
Inductive value : Type :=
| VNone
| VInt (z : Z)
| VStr (s : string)
| VRef (l : addr).

(** The containers: lists, and dicts with string keys in insertion order. *)
Inductive object : Type :=
| OList (items : list value)
| ODict (items : list (string * value)).

Abbreviation heap := (list object) (only parsing).
Abbreviation memo := (gmap addr addr) (only parsing).

(** The values a container holds, and the container with other values in
    their places. *)
Definition fields (o : object) : list value :=
  match o with
  | OList xs => xs
  | ODict kvs => kvs.*2
  end.

Definition with_fields (o : object) (vs : list value) : object :=
  match o with
  | OList _ => OList vs
  | ODict kvs => ODict (zip (kvs.*1) vs)
  end.

(** [y.append(deepcopy(a, memo))] for the items [a] in turn, [copy] being
    the copy of one value. *)
Fixpoint copy_values
  (copy : value → memo * heap → option (value * (memo * heap)))
  (xs : list value) (s : memo * heap) : option (list value * (memo * heap)) :=
  match xs with
  | [] => Some ([], s)
  | x :: r =>
      '(y, s1) ← copy x s;
      '(ys, s2) ← copy_values copy r s1;
      Some (y :: ys, s2)
  end.

(** [copy.deepcopy(x, memo)] of the Python library: an atomic value is its
    own copy; a container met before is copied to what the memo holds for
    it; another container gets a new, empty container, entered in the memo
    before its items are copied into it. [fuel] bounds the nesting of the
    calls; [None] stands for a call that does not return a copy. *)
Fixpoint deepcopy_memo (fuel : nat) (x : value) (s : memo * heap)
  : option (value * (memo * heap)) :=
  match x with
  | VRef l =>
      match s.1 !! l with
      | Some l' => Some (VRef l', s)
      | None =>
          match fuel, s.2 !! l with
          | S fuel', Some o =>
              let l' := length s.2 in
              '(ys, s2) ← copy_values (deepcopy_memo fuel') (fields o)
                            (<[l := l']> s.1, s.2 ++ [with_fields o []]);
              Some (VRef l', (s2.1, <[l' := with_fields o ys]> s2.2))
          | _, _ => None
          end
      end
  | _ => Some (x, s)
  end.

(** [copy.deepcopy(x)], the nesting bounded by the number of objects. *)
Definition deepcopy (x : value) : M heap value :=
  λ h, match deepcopy_memo (length h) x (∅, h) with
       | Some (y, s) => (inr y, s.2)
       | None => (inl ValueError, h)
       end.

(** [d[key]], [key in d] and [d[key] = v] on the items of a dict. *)
Fixpoint dict_get (kvs : list (string * value)) (key : string) : option value :=
  match kvs with
  | [] => None
  | (k, v) :: r => if decide (k = key) then Some v else dict_get r key
  end.

Fixpoint dict_set (kvs : list (string * value)) (key : string) (v : value)
  : list (string * value) :=
  match kvs with
  | [] => [(key, v)]
  | (k, w) :: r =>
      if decide (k = key) then (k, v) :: r else (k, w) :: dict_set r key v
  end.

Definition load_dict (l : addr) : M heap (list (string * value)) :=
  λ h, match h !! l with
       | Some (ODict kvs) => (inr kvs, h)
       | _ => (inl ValueError, h)
       end.

Definition store_dict (l : addr) (kvs : list (string * value)) : M heap unit :=
  λ h, (inr tt, <[l := ODict kvs]> h).

(** What a value shows when it is followed to the depth [n]. *)
#[warnings="-register-all"]
Inductive tree : Type :=
| TAtom (v : value)
| TList (ts : list tree)
| TDict (kts : list (string * tree))
| TCut
| TDangling.

Fixpoint snapshot (n : nat) (h : heap) (v : value) : tree :=
  match v with
  | VRef l =>
      match n with
      | 0 => TCut
      | S n' =>
          match h !! l with
          | Some (OList xs) => TList (snapshot n' h <$> xs)
          | Some (ODict kvs) => TDict (prod_map Datatypes.id (snapshot n' h) <$> kvs)
          | None => TDangling
          end
      end
  | _ => TAtom v
  end.

(** A value that is atomic or points into the region [P]. *)
Definition value_in (P : addr → Prop) (v : value) : Prop :=
  match v with
  | VRef l => P l
  | _ => True
  end.

(** The objects a value leads to. *)
Inductive reachable (h : heap) : value → addr → Prop :=
| reach_here (l : addr) : reachable h (VRef l) l
| reach_step (l : addr) (o : object) (v : value) (a : addr) :
    h !! l = Some o → v ∈ fields o → reachable h v a →
    reachable h (VRef l) a.

(** No address in the heap points outside the heap. *)
Definition valid_value (n : nat) (v : value) : Prop :=
  match v with
  | VRef l => l < n
  | _ => True
  end.

Definition closed (h : heap) : Prop :=
  ∀ l o, h !! l = Some o → Forall (valid_value (length h)) (fields o).

(** A value that points to no object below [n0]. *)
Definition new_value (n0 n : nat) (v : value) : Prop :=
  match v with
  | VRef l => n0 ≤ l < n
  | _ => True
  end.

(** The copy of a value under a memo, and the values the memo covers. *)
Definition rename (m : memo) (v : value) : value :=
  match v with
  | VRef l => VRef (default l (m !! l))
  | _ => v
  end.

Definition covered (m : memo) (v : value) : Prop :=
  match v with
  | VRef l => is_Some (m !! l)
  | _ => True
  end.

(** The state of a copy in progress from the heap [h0]: the objects of [h0]
    are in place; the memo sends objects of [h0] to distinct new objects;
    new objects point to new objects only; and every object of the memo but
    the pending ones has its copy completed. *)
Record copy_state (h0 : heap) (pend : gset addr) (s : memo * heap) : Prop := {
  cs_length : length h0 ≤ length s.2;
  cs_old : take (length h0) s.2 = h0;
  cs_memo : ∀ l l', s.1 !! l = Some l' →
            l < length h0 ∧ length h0 ≤ l' < length s.2;
  cs_inj : ∀ l1 l2 l', s.1 !! l1 = Some l' → s.1 !! l2 = Some l' → l1 = l2;
  cs_new : ∀ l o, length h0 ≤ l → s.2 !! l = Some o →
           Forall (new_value (length h0) (length s.2)) (fields o);
  cs_done : ∀ l l', s.1 !! l = Some l' → l ∉ pend →
            ∃ o, h0 !! l = Some o ∧ Forall (covered s.1) (fields o) ∧
                 s.2 !! l' = Some (with_fields o (rename s.1 <$> fields o))
}.

(** What a copy that returned [y] in the state [s'] satisfies. *)
Definition copy_post (h0 : heap) (pend : gset addr) (s : memo * heap)
  (x y : value) (s' : memo * heap) : Prop :=
  copy_state h0 pend s' ∧ s.1 ⊆ s'.1 ∧ length s.2 ≤ length s'.2 ∧
  y = rename s'.1 x ∧ covered s'.1 x ∧ new_value (length h0) (length s'.2) y.

(** [copy] returns a copy in every state whose memo has [bound] entries or
    more. *)
Definition copies (h0 : heap)
  (copy : value → memo * heap → option (value * (memo * heap)))
  (bound : nat) : Prop :=
  ∀ x pend s, copy_state h0 pend s → valid_value (length h0) x →
    bound ≤ size (dom s.1) →
    ∃ y s', copy x s = Some (y, s') ∧ copy_post h0 pend s x y s'.

End Python.

Export Python.

(** ** ParameterProvider.py *)

Module ParameterProvider.

(** An instance holds the address of its dict [_params]. *)
Record ParameterProvider : Type := {
  _params : addr
}.

Section provider.

(** The address of [GlobalDefaults.__dict__], the table of the defaults. *)
Variable GlobalDefaults : addr.

(** [self._params[key] = deepcopy(value)] *)
Definition __setitem__ (self : ParameterProvider) (key : string) (v : value)
  : M heap unit :=
  c ← deepcopy v;
  params ← load_dict (_params self);
  store_dict (_params self) (dict_set params key c).

(** [__getitem__]; the warning it prints is left out. *)
Definition __getitem__ (self : ParameterProvider) (key : string) : M heap value :=
  params ← load_dict (_params self);
  match dict_get params key with
  | Some v => mret v
  | None =>
      defaults ← load_dict GlobalDefaults;
      match dict_get defaults key with
      | Some d =>
          c ← deepcopy d;
          __setitem__ self key c;;
          params' ← load_dict (_params self);
          lift_opt KeyError (dict_get params' key)
      | None => raise KeyError
      end
  end.

(** [return deepcopy(self._params)] *)
Definition get_parameters (self : ParameterProvider) : M heap value :=
  deepcopy (VRef (_params self)).

(** [return key in self._params] *)
Definition __contains__ (self : ParameterProvider) (key : string) : M heap bool :=
  params ← load_dict (_params self);
  mret (bool_decide (is_Some (dict_get params key))).

(** [has_key] has the body of [__contains__]. *)
Definition has_key (self : ParameterProvider) (key : string) : M heap bool :=
  params ← load_dict (_params self);
  mret (bool_decide (is_Some (dict_get params key))).

(** [return self._params.get(key, default)] *)
Definition get (self : ParameterProvider) (key : string) (default : value)
  : M heap value :=
  params ← load_dict (_params self);
  mret (match dict_get params key with Some v => v | None => default end).

(** The loop of [update_parameters] (lines 128 to 129), [params] being the
    address of a dict:
    [for key, value in params.items(): self.__setitem__(key, value)] *)
Definition update_items (self : ParameterProvider) (params : addr) : M heap unit :=
  items ← load_dict params;
  for_each items (λ kv, __setitem__ self kv.1 kv.2).

End provider.


End ParameterProvider.

Export ParameterProvider.

(** ** Concrete inputs *)

Module Scenario.

Definition one : C := (1%R, 0%R).

(** The scenario of section 8: the shape with the nodes 0, 1, 2 in one
    dimension, [p = [1]], [P = [[1]]], [eps = 1] and [c = [1, 0, 0]]. The
    store holds [q], [p], [Q], [P], [S] and the coefficients. *)
Definition K3 : shape := Shape 1 [[0%Z]; [1%Z]; [2%Z]].
Definition Ke3 : shape := Shape 1 [[0%Z]; [1%Z]; [2%Z]; [3%Z]].
Definition c3 : ndarray := [[one]; [Czero]; [Czero]].
Definition store3 : store :=
  [[[Czero]]; [[one]]; [[one]]; [[one]]; [[Czero]]; c3].
Definition packet3 : HagedornWavepacket :=
  {| wp_dimension := 1; wp_eps := 1%R; wp_Pi := (0, 1, 2, 3, 4);
     wp_basis_shapes := [K3]; wp_coefficients := [5] |}.

(** A store in the middle of the loop on the shape of the scenario, with
    the coefficients [c = [0, 0, 1]]: the coefficients, [P], the conjugate
    of [P] and the new array, still zero. *)
Definition zeros4 : ndarray := [[Czero]; [Czero]; [Czero]; [Czero]].

(** A set of nodes that misses the node 1 between its nodes 0 and 2, with
    the coefficients [c = [0, 1]]. *)
Definition K02 : shape := Shape 1 [[0%Z]; [2%Z]].
Definition c02 : ndarray := [[Czero]; [one]].
Definition loop02 : store := [c02; [[Cconj one]]; zeros4].
Definition store02 : store :=
  [[[Czero]]; [[Czero]]; [[one]]; [[one]]; [[Czero]]; c02].
Definition packet02 : HagedornWavepacket :=
  {| wp_dimension := 1; wp_eps := 1%R; wp_Pi := (0, 1, 2, 3, 4);
     wp_basis_shapes := [K02]; wp_coefficients := [5] |}.

(** A result file with an empty group of basis shapes, and attribute values
    stored as they are. *)
Definition file0 : srf dvalue :=
  {[ "/datablock_0/wavepacket/basisshapes/"%string := ∅;
     "/datablock_0/wavepacket_inhomog/basisshapes/"%string := ∅ ]}.

(** A hash for the examples: the sum of the limits. *)
Definition sum_hash (x : string * list Z) : Z := foldr Z.add 0%Z x.2.

(** A heap with the dict of a provider at 0, the table of the defaults at 1
    and the list that is the default of "save_at" at 2. *)
Definition heap0 : heap :=
  [ODict [("dt"%string, VInt 1)];
   ODict [("save_at"%string, VRef 2)];
   OList [VInt 10; VInt 20]].
Definition provider0 : ParameterProvider := {| _params := 0 |}.

(** A group of basis shapes that holds one stored shape, the same group
    with a member of another kind beside it, and the names of a group in
    the order of the map. *)
Definition file5 : srf dvalue :=
  {[ "/datablock_0/wavepacket/basisshapes/"%string :=
       {[ "basis_shape_5"%string :=
            {| ds_data := [5%Z];
               ds_attrs := get_description (HyperCubicShape sum_hash [2%Z; 3%Z]) |} ]} ]}.

Definition file5_mapping : srf dvalue :=
  {[ "/datablock_0/wavepacket/basisshapes/"%string :=
       {[ "basis_shape_5"%string :=
            {| ds_data := [5%Z];
               ds_attrs := get_description (HyperCubicShape sum_hash [2%Z; 3%Z]) |};
          "mapping"%string := {| ds_data := []; ds_attrs := ∅ |} ]} ]}.

Definition map_keys (grp : group dvalue) : list string := (map_to_list grp).*1.

(** The attributes of a wavepacket group that holds an earlier description. *)
Definition attrs0 : group_attrs dvalue :=
  {[ "/datablock_0/wavepacket"%string :=
       {[ "type"%string := DStr "HagedornWavepacket";
          "eps"%string := DInt 1 ]} ]}.

(** The heap after the read of "save_at" from the defaults. *)
Definition heap_read : heap := (__getitem__ 1 provider0 "save_at" heap0).2.

(** The store of the scenario with a coefficient array that is one row
    short. *)
Definition store3_short : store :=
  [[[Czero]]; [[one]]; [[one]]; [[one]]; [[Czero]]; [[one]; [Czero]]].

End Scenario.

Export Scenario.

(** ** Tactics *)

(** Evaluation of the lookups of a concrete shape; the reals are left as
    they stand. *)
Ltac eval_struct t :=
  let v := eval vm_compute in t in
  replace t with v by (vm_compute; reflexivity).

Ltac eval_lookups :=
  repeat match goal with
    | |- context [get_neighbours ?L ?k ?s] => eval_struct (get_neighbours L k s)
    | |- context [coefficient_of ?K ?c ?k] => eval_struct (coefficient_of K c k)
    end;
  cbn [fmap list_fmap app];
  repeat match goal with
    | |- context [position_of ?L ?k] => eval_struct (position_of L k)
    end.


(** ** Facts on basis shapes *)

Section shape_facts.

Implicit Types (K L : shape) (k x : node) (d : nat).

Lemma add_if_new_elem (acc : list node) (n x : node) :
  x ∈ add_if_new acc n ↔ x ∈ acc ∨ x = n.
Proof.
  unfold add_if_new. case_bool_decide as Hn.
  - split; [by left | intros [?| ->]; done].
  - rewrite elem_of_app, list_elem_of_singleton. done.
Qed.

Lemma foldl_add_if_new_elem (l acc : list node) (x : node) :
  x ∈ foldl add_if_new acc l ↔ x ∈ acc ∨ x ∈ l.
Proof.
  revert acc. induction l as [|n l IH]; intros acc; simpl.
  - rewrite elem_of_nil. tauto.
  - rewrite IH, add_if_new_elem, elem_of_cons. tauto.
Qed.

Lemma add_if_new_NoDup (acc : list node) (n : node) :
  NoDup acc → NoDup (add_if_new acc n).
Proof.
  intros Hnd. unfold add_if_new. case_bool_decide as Hn; [done|].
  apply NoDup_app. split_and!; [done| |apply NoDup_singleton].
  intros y Hy Hy'. apply list_elem_of_singleton in Hy'. by subst.
Qed.

Lemma foldl_add_if_new_NoDup (l acc : list node) :
  NoDup acc → NoDup (foldl add_if_new acc l).
Proof.
  revert acc. induction l as [|n l IH]; intros acc Hnd; simpl; [done|].
  by apply IH, add_if_new_NoDup.
Qed.

Lemma foldl_add_if_new_prefix (l acc : list node) :
  acc `prefix_of` foldl add_if_new acc l.
Proof.
  revert acc. induction l as [|n l IH]; intros acc; simpl; [done|].
  etrans; [|apply IH]. unfold add_if_new. case_bool_decide; [done|].
  by apply prefix_app_r.
Qed.

Lemma increments_elem K x :
  x ∈ increments K ↔
  ∃ k d, k ∈ nodes K ∧ d < dimension K ∧ x = unit_add k d.
Proof.
  unfold increments. rewrite list_elem_of_bind. split.
  - intros (k & Hx & Hk). apply list_elem_of_fmap in Hx as (d & -> & Hd).
    apply elem_of_seq in Hd. exists k, d. split_and!; [done|lia|done].
  - intros (k & d & Hk & Hd & ->). exists k. split; [|done].
    apply list_elem_of_fmap. exists d. split; [done|].
    apply elem_of_seq. lia.
Qed.

Lemma extend_elem K x :
  x ∈ nodes (extend K) ↔
  x ∈ nodes K ∨ ∃ k d, k ∈ nodes K ∧ d < dimension K ∧ x = unit_add k d.
Proof. simpl. by rewrite foldl_add_if_new_elem, increments_elem. Qed.

Lemma extend_NoDup K : NoDup (nodes K) → NoDup (nodes (extend K)).
Proof. apply foldl_add_if_new_NoDup. Qed.

Lemma extend_prefix K : nodes K `prefix_of` nodes (extend K).
Proof. apply foldl_add_if_new_prefix. Qed.

Lemma extend_dimension K : dimension (extend K) = dimension K.
Proof. done. Qed.

Lemma unit_add_length k d : length (unit_add k d) = length k.
Proof. unfold unit_add. apply length_alter. Qed.

Lemma unit_sub_length k d : length (unit_sub k d) = length k.
Proof. unfold unit_sub. apply length_alter. Qed.

Lemma extend_wf K : wf_shape K → wf_shape (extend K).
Proof.
  intros [Hnd Hlen]. split; [by apply extend_NoDup|].
  apply Forall_forall. intros x Hx. rewrite extend_dimension.
  rewrite Forall_forall in Hlen.
  apply extend_elem in Hx as [Hx|(k & d & Hk & _ & ->)]; [by apply Hlen|].
  rewrite unit_add_length. by apply Hlen.
Qed.

(** Membership and position. *)
Lemma contains_elem K k : contains K k = true ↔ k ∈ nodes K.
Proof. unfold contains. apply bool_decide_eq_true. Qed.

Lemma getitem_Some K k i :
  getitem K k = Some i ↔
  nodes K !! i = Some k ∧ ∀ j, j < i → nodes K !! j ≠ Some k.
Proof.
  unfold getitem. split.
  - intros H. apply fmap_Some in H as ([i' y] & Hf & ->).
    apply list_find_Some in Hf as (Hl & -> & Hmin). simpl. split; [done|].
    intros j Hj Hjk. by apply (Hmin j k).
  - intros [Hl Hmin]. apply fmap_Some. exists (i, k). split; [|done].
    apply list_find_Some. split_and!; [done..|].
    intros j y Hy Hj ->. by apply (Hmin j).
Qed.

Lemma getitem_is_Some K k : is_Some (getitem K k) ↔ k ∈ nodes K.
Proof.
  unfold getitem. rewrite fmap_is_Some. split.
  - intros [[i y] Hf]. apply list_find_Some in Hf as (Hl & -> & _).
    by eapply list_elem_of_lookup_2.
  - intros Hk. by eapply list_find_elem_of.
Qed.

Lemma getitem_None K k : getitem K k = None ↔ k ∉ nodes K.
Proof. rewrite <-getitem_is_Some, eq_None_not_Some. done. Qed.

Lemma getitem_lt K k i : getitem K k = Some i → i < get_basis_size K.
Proof.
  intros H. apply getitem_Some in H as [Hl _]. by eapply lookup_lt_Some.
Qed.

(** On a shape without repetition the position map is a bijection between
    the nodes and [0, size). *)
Lemma getitem_lookup K k i :
  NoDup (nodes K) → nodes K !! i = Some k → getitem K k = Some i.
Proof.
  intros Hnd Hl. apply getitem_Some. split; [done|].
  intros j Hj Hjk. rewrite NoDup_alt in Hnd. specialize (Hnd _ _ _ Hl Hjk). lia.
Qed.

Lemma getitem_inj K k k' i :
  getitem K k = Some i → getitem K k' = Some i → k = k'.
Proof.
  intros [H1 _]%getitem_Some [H2 _]%getitem_Some. congruence.
Qed.

(** Neighbours. *)
Lemma backward_at_elem L k d (dn : nat * node) :
  dn ∈ backward_at L k d ↔
  dn = (d, unit_sub k d) ∧ (∃ kd, k !! d = Some kd ∧ (0 < kd)%Z) ∧
  unit_sub k d ∈ nodes L.
Proof.
  unfold backward_at. destruct (k !! d) as [kd|] eqn:Hkd.
  - destruct (bool_decide (0 < kd)%Z && contains L (unit_sub k d)) eqn:Hb.
    + apply andb_true_iff in Hb as [Hpos Hin].
      apply bool_decide_eq_true in Hpos. apply contains_elem in Hin.
      rewrite list_elem_of_singleton.
      split; [intros ->; split_and!; eauto|by intros [-> _]].
    + rewrite elem_of_nil. split; [done|].
      intros (_ & (kd' & [= <-] & Hpos) & Hin).
      apply andb_false_iff in Hb as [Hb|Hb].
      * apply bool_decide_eq_false in Hb. done.
      * apply contains_elem in Hin. congruence.
  - rewrite elem_of_nil. split; [done|]. by intros (_ & (kd & ? & _) & _).
Qed.

Lemma forward_at_elem L k d (dn : nat * node) :
  dn ∈ forward_at L k d ↔
  dn = (d, unit_add k d) ∧ is_Some (k !! d) ∧ unit_add k d ∈ nodes L.
Proof.
  unfold forward_at. destruct (k !! d) as [kd|] eqn:Hkd.
  - destruct (contains L (unit_add k d)) eqn:Hb.
    + apply contains_elem in Hb. rewrite list_elem_of_singleton.
      split; [intros ->; split_and!; eauto|by intros [-> _]].
    + rewrite elem_of_nil. split; [done|]. intros (_ & _ & Hin).
      apply contains_elem in Hin. congruence.
  - rewrite elem_of_nil. split; [done|]. intros (_ & [? ?] & _). done.
Qed.

Lemma get_neighbours_backward_elem L k (dn : nat * node) :
  dn ∈ get_neighbours L k backward ↔
  dn.1 < dimension L ∧ dn.2 = unit_sub k dn.1 ∧
  (∃ kd, k !! dn.1 = Some kd ∧ (0 < kd)%Z) ∧ unit_sub k dn.1 ∈ nodes L.
Proof.
  unfold get_neighbours. rewrite list_elem_of_bind. split.
  - intros (d & Hdn & Hd). apply backward_at_elem in Hdn as (-> & Hk & Hin).
    apply elem_of_seq in Hd. simpl. split_and!; [lia|done..].
  - destruct dn as [d nb]. simpl. intros (Hd & -> & Hk & Hin). exists d. split.
    + by apply backward_at_elem.
    + apply elem_of_seq. lia.
Qed.

Lemma get_neighbours_forward_elem L k (dn : nat * node) :
  dn ∈ get_neighbours L k forward ↔
  dn.1 < dimension L ∧ dn.2 = unit_add k dn.1 ∧
  is_Some (k !! dn.1) ∧ unit_add k dn.1 ∈ nodes L.
Proof.
  unfold get_neighbours. rewrite list_elem_of_bind. split.
  - intros (d & Hdn & Hd). apply forward_at_elem in Hdn as (-> & Hk & Hin).
    apply elem_of_seq in Hd. simpl. split_and!; [lia|done..].
  - destruct dn as [d nb]. simpl. intros (Hd & -> & Hk & Hin). exists d. split.
    + by apply forward_at_elem.
    + apply elem_of_seq. lia.
Qed.

(** [k + e_d] and [k - e_d] written out on the component [k[d]]. *)
Lemma unit_add_insert k d (kd : Z) :
  k !! d = Some kd → unit_add k d = <[d := (kd + 1)%Z]> k.
Proof.
  intros Hkd. unfold unit_add. apply list_eq. intros j.
  destruct (decide (d = j)) as [<-|Hne].
  - rewrite list_lookup_insert_eq by (by eapply lookup_lt_Some).
    by rewrite list_lookup_alter_eq, Hkd.
  - by rewrite list_lookup_insert_ne, list_lookup_alter_ne.
Qed.


Lemma unit_add_None k d : k !! d = None → unit_add k d = k.
Proof.
  intros Hkd. unfold unit_add. apply list_eq. intros j.
  destruct (decide (d = j)) as [<-|Hne].
  - by rewrite list_lookup_alter_eq, Hkd.
  - by rewrite list_lookup_alter_ne.
Qed.

(** The nodes of the extended shape, with [k + e_d] written out. *)
Lemma extend_elem_insert K x :
  x ∈ nodes (extend K) ↔
  x ∈ nodes K ∨
  ∃ k d kd, k ∈ nodes K ∧ d < dimension K ∧ k !! d = Some kd ∧
            x = <[d := (kd + 1)%Z]> k.
Proof.
  rewrite extend_elem. split.
  - intros [Hx|(k & d & Hk & Hd & ->)]; [by left|].
    destruct (k !! d) as [kd|] eqn:Hkd.
    + right. exists k, d, kd. by rewrite (unit_add_insert k d kd).
    + left. by rewrite unit_add_None.
  - intros [Hx|(k & d & kd & Hk & Hd & Hkd & ->)]; [by left|].
    right. exists k, d. by rewrite (unit_add_insert k d kd).
Qed.




End shape_facts.


(** ** Facts on the monad and on arrays *)

Lemma bind_ok {S A B : Type} (m : M S A) (f : A → M S B) (σ σ' : S) (a : A) :
  m σ = (inr a, σ') → (m ≫= f) σ = f a σ'.
Proof. intros H. unfold mbind, M_bind, bind. by rewrite H. Qed.

Lemma bind_err {S A B : Type} (m : M S A) (f : A → M S B) (σ σ' : S) (e : exn) :
  m σ = (inl e, σ') → (m ≫= f) σ = (inl e, σ').
Proof. intros H. unfold mbind, M_bind, bind. by rewrite H. Qed.

Lemma lift_opt_ok {S A : Type} (e : exn) (o : option A) (a : A) (σ : S) :
  o = Some a → lift_opt e o σ = (inr a, σ).
Proof. by intros ->. Qed.

Lemma for_each_app {S A : Type} (l1 l2 : list A) (body : A → M S unit)
  (σ σ' : S) :
  for_each l1 body σ = (inr tt, σ') →
  for_each (l1 ++ l2) body σ = for_each l2 body σ'.
Proof.
  revert σ. induction l1 as [|x l1 IH]; intros σ; simpl.
  - by intros [= ->].
  - unfold bind. destruct (body x σ) as [[e|[]] σ1]; [done|]. apply IH.
Qed.

Lemma alter_insert_lookup {A : Type} (f : A → A) (l : list A) (i : nat) (x : A) :
  l !! i = Some x → <[i:=f x]> l = alter f i l.
Proof.
  intros Hx. apply list_eq. intros j. destruct (decide (i = j)) as [<-|Hne].
  - rewrite list_lookup_insert_eq by (by eapply lookup_lt_Some).
    by rewrite list_lookup_alter_eq, Hx.
  - by rewrite list_lookup_insert_ne, list_lookup_alter_ne.
Qed.


Lemma has_shape_zeros (n m : nat) :
  has_shape n m (replicate n (replicate m Czero)).
Proof.
  split; [apply length_replicate|]. apply Forall_replicate, length_replicate.
Qed.

Lemma has_shape_row (n m : nat) (a : ndarray) (i : nat) (r : list C) :
  has_shape n m a → a !! i = Some r → length r = m.
Proof. intros [_ H] Hi. by eapply (Forall_lookup_1 _ _ _ _ H Hi). Qed.

Lemma has_shape_alter (n m : nat) (a : ndarray) (i : nat) (v : list C) :
  has_shape n m a → length v = m →
  has_shape n m (alter (λ r, zip_with Cadd r v) i a).
Proof.
  intros [Hn Hm] Hv. split; [by rewrite length_alter|].
  apply Forall_lookup. intros j r. rewrite list_lookup_alter.
  case_decide as Hij.
  - intros (r0 & Hr0 & ->)%fmap_Some.
    pose proof (Forall_lookup_1 _ _ _ _ Hm Hr0) as Hl. simpl in Hl.
    rewrite length_zip_with_l_eq; congruence.
  - intros Hr. by eapply (Forall_lookup_1 _ _ _ _ Hm Hr).
Qed.

Lemma has_shape_scatter_add (n m : nat) (cs : list contribution) (a : ndarray) :
  has_shape n m a → Forall (λ iv : contribution, length iv.2 = m) cs →
  has_shape n m (scatter_add cs a).
Proof.
  revert a. induction cs as [|[i v] cs IH]; intros a Ha Hcs; [done|].
  apply Forall_cons in Hcs as [Hv Hcs]. unfold scatter_add. simpl.
  apply IH; [|done]. by apply has_shape_alter.
Qed.

Lemma scatter_add_app (cs1 cs2 : list contribution) (a : ndarray) :
  scatter_add (cs1 ++ cs2) a = scatter_add cs2 (scatter_add cs1 a).
Proof. unfold scatter_add. apply foldl_app. Qed.

Lemma scatter_add_cons (iv : contribution) (cs : list contribution) (a : ndarray) :
  scatter_add (iv :: cs) a =
  scatter_add cs (alter (λ r, zip_with Cadd r iv.2) iv.1 a).
Proof. done. Qed.

Lemma column_ok (n m : nat) (a : ndarray) (d : nat) :
  has_shape n m a → d < m → column a d = Some (column_of a d).
Proof.
  intros [_ Hm] Hd. unfold column, column_of. apply mapM_Some.
  apply Forall2_fmap_r, Forall_Forall2_diag.
  eapply Forall_impl; [exact Hm|]. intros row Hrow. simpl in *.
  destruct (lookup_lt_is_Some_2 row d) as [x Hx]; [lia|]. by rewrite Hx.
Qed.

Lemma column_of_length (a : ndarray) (d : nat) : length (column_of a d) = length a.
Proof. unfold column_of. apply length_fmap. Qed.

Lemma mapM_scalar_of (n : nat) (a : ndarray) :
  has_shape n 1 a → mapM scalar_of a = Some (column_of a 0).
Proof.
  intros [_ Hm]. unfold column_of. apply mapM_Some.
  apply Forall2_fmap_r, Forall_Forall2_diag.
  eapply Forall_impl; [exact Hm|]. intros row Hrow. simpl in *.
  destruct row as [|x [|y row]]; simplify_eq/=; done.
Qed.

Lemma ladder_row_length (eps x : R) (c : C) (col : list C) :
  length (ladder_row eps x c col) = length col.
Proof. unfold ladder_row. apply length_fmap. Qed.

(** ** The stencil, block by block *)

Lemma iadd_row_ok (σ : store) (cnew : loc) (a : ndarray) (i : nat)
  (r v : list C) :
  σ !! cnew = Some a → a !! i = Some r → length r = length v →
  iadd_row cnew i v σ =
  (inr tt, <[cnew := alter (λ r, zip_with Cadd r v) i a]> σ).
Proof.
  intros Hσ Hi Hlen. unfold iadd_row, row_add. rewrite Hσ, Hi.
  rewrite decide_True by done.
  by rewrite (alter_insert_lookup (λ r, zip_with Cadd r v) a i r).
Qed.


Lemma coefficient_at_ok (σ : store) (K : shape) (coeffs : loc) (ca : ndarray)
  (k : node) (c : C) :
  σ !! coeffs = Some ca → coefficient_value K ca k = Some c →
  coefficient_at K coeffs k σ = (inr c, σ).
Proof.
  intros Hσ Hc. unfold coefficient_value in Hc.
  destruct (getitem K k) as [j|] eqn:Hj; [|done]. simpl in Hc.
  destruct (ca !! j) as [row|] eqn:Hrow; [|done]. simpl in Hc.
  unfold coefficient_at.
  rewrite (bind_ok _ _ σ σ j) by (by rewrite Hj).
  rewrite (bind_ok _ _ σ σ ca) by (unfold load; by rewrite Hσ).
  rewrite (bind_ok _ _ σ σ row) by (by rewrite Hrow).
  by rewrite Hc.
Qed.

Lemma coefficient_value_elem (K : shape) (ca : ndarray) (k : node) :
  has_shape (get_basis_size K) 1 ca → k ∈ nodes K →
  is_Some (coefficient_value K ca k).
Proof.
  intros [Hn Hm] Hk. apply getitem_is_Some in Hk as [j Hj].
  unfold coefficient_value. rewrite Hj. simpl.
  destruct (lookup_lt_is_Some_2 ca j) as [row Hrow].
  { rewrite Hn. by eapply getitem_lt. }
  rewrite Hrow. simpl. pose proof (Forall_lookup_1 _ _ _ _ Hm Hrow) as Hl.
  destruct row as [|x [|y row]]; simplify_eq/=; eauto.
Qed.

Section stencil_blocks.

Context (Ke K : shape) (eps : R) (D : nat).
Context (coeffs cnew : loc) (ca : ndarray).
Context (Hne_coeffs : cnew ≠ coeffs).


Lemma block_store_step (σ : store) (a a' : ndarray) :
  block_store Ke D coeffs cnew ca σ a → has_shape (get_basis_size Ke) D a' →
  block_store Ke D coeffs cnew ca (<[cnew := a']> σ) a'.
Proof.
  intros (Hca & Ha & Hsh) Hsh'. split_and!; [|
    by rewrite list_lookup_insert_eq by (by eapply lookup_lt_Some) | done].
  by rewrite list_lookup_insert_ne.
Qed.

Lemma add_contribution_ok (σ : store) (a : ndarray) (n : node) (v : list C) :
  block_store Ke D coeffs cnew ca σ a → n ∈ nodes Ke → length v = D →
  iadd_row cnew (position_of Ke n) v σ =
  (inr tt, <[cnew := scatter_add [(position_of Ke n, v)] a]> σ).
Proof.
  intros (Hca & Ha & Hsh) Hn Hv.
  apply getitem_is_Some in Hn as [i Hi]. unfold position_of. rewrite Hi. simpl.
  destruct (lookup_lt_is_Some_2 a i) as [r Hr].
  { destruct Hsh as [-> _]. by eapply getitem_lt. }
  apply (iadd_row_ok σ cnew a i r v); [done..|].
  rewrite Hv. by eapply has_shape_row.
Qed.

Lemma ladder_loop_ok (Pm : loc) (Pa : ndarray) (k : node) (c : C) (f : Z → R)
  (l : list (nat * node)) :
  cnew ≠ Pm → has_shape D D Pa → coefficient_value K ca k = Some c →
  (∀ dn, dn ∈ l → dn.1 < D ∧ is_Some (k !! dn.1) ∧ dn.2 ∈ nodes Ke) →
  ∀ (σ : store) (a : ndarray),
    block_store Ke D coeffs cnew ca σ a → σ !! Pm = Some Pa →
    for_each l (λ '(d, nb),
      i ← lift_opt KeyError (getitem Ke nb);
      kd ← lift_opt IndexError (k !! d);
      c ← coefficient_at K coeffs k;
      Pa ← load Pm;
      col ← lift_opt IndexError (column Pa d);
      iadd_row cnew i (ladder_row eps (f kd) c col)) σ =
    (inr tt,
     <[cnew := scatter_add
         ((λ dn : nat * node,
             (position_of Ke dn.2,
              ladder_row eps (f (component_of k dn.1)) c (column_of Pa dn.1)))
          <$> l) a]> σ).
Proof.
  intros Hne HPa Hc. induction l as [|[d nb] l IH]; intros Hl σ a Hσ HP.
  - simpl. unfold ret. f_equal. symmetry. apply list_insert_id, Hσ.
  - destruct (Hl (d, nb)) as (Hd & [kd Hkd] & Hnb); [by left|]. simpl in *.
    pose proof Hnb as [i Hi]%getitem_is_Some.
    assert (Hv : length (ladder_row eps (f kd) c (column_of Pa d)) = D).
    { rewrite ladder_row_length, column_of_length. apply HPa. }
    unfold bind at 1.
    rewrite (bind_ok _ _ σ σ i) by (by rewrite Hi).
    rewrite (bind_ok _ _ σ σ kd) by (by rewrite Hkd).
    rewrite (bind_ok _ _ σ σ c) by (eapply coefficient_at_ok; [apply Hσ|done]).
    rewrite (bind_ok _ _ σ σ Pa) by (unfold load; by rewrite HP).
    rewrite (bind_ok _ _ σ σ (column_of Pa d))
      by (by rewrite (column_ok D D Pa d)).
    replace i with (position_of Ke nb) by (unfold position_of; by rewrite Hi).
    rewrite (add_contribution_ok σ a nb _ Hσ Hnb Hv).
    rewrite IH with (a := scatter_add
      [(position_of Ke nb, ladder_row eps (f kd) c (column_of Pa d))] a).
    + rewrite list_insert_insert_eq. unfold scatter_add, component_of. simpl.
      by rewrite Hkd.
    + intros dn Hdn. apply Hl. by right.
    + apply (block_store_step σ a); [done|].
      apply (has_shape_alter _ _ _ _ _ (proj2 (proj2 Hσ)) Hv).
    + by rewrite list_lookup_insert_ne.
Qed.

Lemma backward_terms_ok (Pbar : loc) (B : ndarray) (k : node) (c : C)
  (σ : store) (a : ndarray) :
  cnew ≠ Pbar → has_shape D D B → dimension Ke = D →
  coefficient_value K ca k = Some c →
  block_store Ke D coeffs cnew ca σ a → σ !! Pbar = Some B →
  backward_terms Ke K eps coeffs Pbar cnew k σ =
  (inr tt, <[cnew := scatter_add (backward_contributions Ke Ke eps B c k) a]> σ).
Proof.
  intros Hne HB HD Hc Hσ HP. unfold backward_terms, backward_contributions.
  apply (ladder_loop_ok Pbar B k c IZR); try done.
  intros dn (Hd & -> & (kd & -> & _) & Hin)%get_neighbours_backward_elem.
  split_and!; [lia|eauto|done].
Qed.

Lemma forward_terms_ok (P : loc) (A : ndarray) (k : node) (c : C)
  (σ : store) (a : ndarray) :
  cnew ≠ P → has_shape D D A → dimension Ke = D →
  coefficient_value K ca k = Some c →
  block_store Ke D coeffs cnew ca σ a → σ !! P = Some A →
  forward_terms Ke K eps coeffs P cnew k σ =
  (inr tt, <[cnew := scatter_add (forward_contributions Ke Ke eps A c k) a]> σ).
Proof.
  intros Hne HA HD Hc Hσ HP. unfold forward_terms, forward_contributions.
  apply (ladder_loop_ok P A k c (λ z, IZR z + 1)%R); try done.
  intros dn (Hd & -> & Hk & Hin)%get_neighbours_forward_elem.
  split_and!; [lia|eauto|done].
Qed.

Lemma central_term_ok (p : loc) (pa : ndarray) (k : node) (c : C)
  (σ : store) (a : ndarray) :
  has_shape D 1 pa → k ∈ nodes Ke →
  coefficient_value K ca k = Some c →
  block_store Ke D coeffs cnew ca σ a → σ !! p = Some pa →
  central_term Ke K coeffs p cnew k σ =
  (inr tt,
   <[cnew := scatter_add [central_contribution Ke c (column_of pa 0) k] a]> σ).
Proof.
  intros Hpa Hk Hc Hσ Hp. unfold central_term, central_contribution.
  pose proof Hk as [i Hi]%getitem_is_Some.
  rewrite (bind_ok _ _ σ σ i) by (by rewrite Hi).
  rewrite (bind_ok _ _ σ σ c) by (eapply coefficient_at_ok; [apply Hσ|done]).
  rewrite (bind_ok _ _ σ σ pa) by (unfold load; by rewrite Hp).
  rewrite (bind_ok _ _ σ σ (column_of pa 0))
    by (by rewrite (mapM_scalar_of D pa)).
  replace i with (position_of Ke k) by (unfold position_of; by rewrite Hi).
  apply add_contribution_ok; [done..|].
  rewrite length_fmap, column_of_length. apply Hpa.
Qed.

End stencil_blocks.

(** ** The whole loop *)




Section stencil_loop.

Context (K : shape) (eps : R) (D : nat).
Context (coeffs p P Pbar cnew : loc) (ca pa A B : ndarray).
Context (Hne_coeffs : cnew ≠ coeffs) (Hne_p : cnew ≠ p).
Context (Hne_P : cnew ≠ P) (Hne_Pbar : cnew ≠ Pbar).
Context (HD : dimension K = D).
Context (Hca : has_shape (get_basis_size K) 1 ca).
Context (Hpa : has_shape D 1 pa) (HA : has_shape D D A) (HB : has_shape D D B).

Let Ke := extend K.


Lemma loop_store_step (σ : store) (a a' : ndarray) :
  loop_store K D coeffs p P Pbar cnew ca pa A B σ a → has_shape (get_basis_size Ke) D a' →
  loop_store K D coeffs p P Pbar cnew ca pa A B (<[cnew := a']> σ) a'.
Proof using Hne_coeffs Hne_p Hne_P Hne_Pbar.
  intros (Hb & Hp & HP & HPbar) Hsh. split_and!.
  - by apply (block_store_step Ke D coeffs cnew ca Hne_coeffs σ a).
  - by rewrite list_lookup_insert_ne.
  - by rewrite list_lookup_insert_ne.
  - by rewrite list_lookup_insert_ne.
Qed.

Lemma backward_contributions_length (L : shape) (c : C) (k : node) :
  Forall (λ iv : contribution, length iv.2 = D)
    (backward_contributions L Ke eps B c k).
Proof using HB.
  unfold backward_contributions. apply Forall_fmap, Forall_true. intros dn.
  simpl. rewrite ladder_row_length, column_of_length. apply HB.
Qed.

Lemma forward_contributions_length (L : shape) (c : C) (k : node) :
  Forall (λ iv : contribution, length iv.2 = D)
    (forward_contributions L Ke eps A c k).
Proof using HA.
  unfold forward_contributions. apply Forall_fmap, Forall_true. intros dn.
  simpl. rewrite ladder_row_length, column_of_length. apply HA.
Qed.

Lemma node_contributions_length (Lb Lf : shape) (k : node) :
  Forall (λ iv : contribution, length iv.2 = D)
    (node_contributions Lb Lf Ke K eps ca pa A B k).
Proof using HA HB Hpa.
  unfold node_contributions. apply Forall_cons. split.
  - simpl. rewrite length_fmap, column_of_length. apply Hpa.
  - apply Forall_app. split;
      [apply backward_contributions_length|apply forward_contributions_length].
Qed.

Lemma stencil_contributions_length (Lb Lf : shape) :
  Forall (λ iv : contribution, length iv.2 = D)
    (stencil_contributions Lb Lf Ke K eps ca pa A B).
Proof using HA HB Hpa.
  unfold stencil_contributions. apply Forall_bind, Forall_true. intros k.
  apply node_contributions_length.
Qed.

(** The body of the loop at a node whose coefficient is in place. *)
Lemma stencil_at_value (k : node) (c : C) (σ : store) (a : ndarray) :
  k ∈ nodes K → coefficient_value K ca k = Some c →
  loop_store K D coeffs p P Pbar cnew ca pa A B σ a →
  stencil_at Ke K eps coeffs p P Pbar cnew k σ =
  (inr tt,
   <[cnew := scatter_add (node_contributions Ke Ke Ke K eps ca pa A B k) a]> σ).
Proof using Hne_coeffs Hne_p Hne_P Hne_Pbar HD Hpa HA HB.
  intros Hk Hc (Hb & Hp & HP & HPbar).
  assert (Hke : k ∈ nodes Ke) by (apply extend_elem; by left).
  pose proof (node_contributions_length Ke Ke k) as Hlen.
  unfold node_contributions, coefficient_of in *. rewrite Hc in *.
  change (default Czero (Some c)) with c in *.
  apply Forall_cons in Hlen as [Hl1 Hl23].
  apply Forall_app in Hl23 as [Hl2 Hl3].
  remember (central_contribution Ke c (column_of pa 0) k) as c1 eqn:E1.
  remember (backward_contributions Ke Ke eps B c k) as c2 eqn:E2.
  remember (forward_contributions Ke Ke eps A c k) as c3 eqn:E3.
  assert (Hs1 : has_shape (get_basis_size Ke) D (scatter_add [c1] a)).
  { apply has_shape_scatter_add; [apply Hb|]. by apply Forall_singleton. }
  assert (Hs2 : has_shape (get_basis_size Ke) D
                  (scatter_add c2 (scatter_add [c1] a))).
  { by apply has_shape_scatter_add. }
  pose proof (loop_store_step σ a _ (conj Hb (conj Hp (conj HP HPbar))) Hs1)
    as (Hb1 & Hp1 & HP1 & HPbar1).
  pose proof (loop_store_step _ _ _
    (conj Hb1 (conj Hp1 (conj HP1 HPbar1))) Hs2) as (Hb2 & Hp2 & HP2 & HPbar2).
  unfold stencil_at.
  pose proof (central_term_ok Ke K D coeffs cnew ca p pa k c σ a
    Hpa Hke Hc Hb Hp) as R1.
  pose proof (backward_terms_ok Ke K eps D coeffs cnew ca Hne_coeffs Pbar B
    k c _ _ Hne_Pbar HB HD Hc Hb1 HPbar1) as R2.
  pose proof (forward_terms_ok Ke K eps D coeffs cnew ca Hne_coeffs P A
    k c _ _ Hne_P HA HD Hc Hb2 HP2) as R3.
  rewrite <-E1 in R1. rewrite <-E2 in R2. rewrite <-E3 in R3.
  rewrite (bind_ok _ _ _ _ tt R1), (bind_ok _ _ _ _ tt R2), R3.
  rewrite !list_insert_insert_eq.
  change (c1 :: c2 ++ c3) with ([c1] ++ c2 ++ c3).
  by rewrite !scatter_add_app.
Qed.

Lemma stencil_at_ok (k : node) (σ : store) (a : ndarray) :
  k ∈ nodes K → loop_store K D coeffs p P Pbar cnew ca pa A B σ a →
  stencil_at Ke K eps coeffs p P Pbar cnew k σ =
  (inr tt,
   <[cnew := scatter_add (node_contributions Ke Ke Ke K eps ca pa A B k) a]> σ).
Proof using All.
  intros Hk Hσ.
  destruct (coefficient_value_elem K ca k Hca Hk) as [c Hc].
  by apply (stencil_at_value k c).
Qed.

(** The loop over nodes whose coefficients are in place. *)
Lemma stencil_loop_value (l : list node) (σ : store) (a : ndarray) :
  (∀ k, k ∈ l → k ∈ nodes K ∧ is_Some (coefficient_value K ca k)) →
  loop_store K D coeffs p P Pbar cnew ca pa A B σ a →
  for_each l (stencil_at Ke K eps coeffs p P Pbar cnew) σ =
  (inr tt,
   <[cnew := scatter_add (l ≫= node_contributions Ke Ke Ke K eps ca pa A B) a]> σ).
Proof using Hne_coeffs Hne_p Hne_P Hne_Pbar HD Hpa HA HB.
  revert σ a. induction l as [|k l IH]; intros σ a Hl Hσ.
  - simpl. unfold ret. f_equal. symmetry. apply list_insert_id, Hσ.
  - destruct (Hl k) as [Hk [c Hc]]; [by left|].
    simpl. unfold bind at 1.
    rewrite (stencil_at_value k c σ a) by done.
    rewrite (IH _ (scatter_add (node_contributions Ke Ke Ke K eps ca pa A B k) a)).
    + by rewrite list_insert_insert_eq, scatter_add_app.
    + intros k' Hk'. apply Hl. by right.
    + apply (loop_store_step σ a); [done|].
      apply has_shape_scatter_add; [apply Hσ|].
      apply node_contributions_length.
Qed.

Lemma stencil_loop_ok (l : list node) (σ : store) (a : ndarray) :
  (∀ k, k ∈ l → k ∈ nodes K) → loop_store K D coeffs p P Pbar cnew ca pa A B σ a →
  for_each l (stencil_at Ke K eps coeffs p P Pbar cnew) σ =
  (inr tt,
   <[cnew := scatter_add (l ≫= node_contributions Ke Ke Ke K eps ca pa A B) a]> σ).
Proof using All.
  revert σ a. induction l as [|k l IH]; intros σ a Hl Hσ.
  - simpl. unfold ret. f_equal. symmetry. apply list_insert_id, Hσ.
  - simpl. unfold bind at 1.
    rewrite (stencil_at_ok k σ a); [|apply Hl; by left|done].
    rewrite (IH _ (scatter_add (node_contributions Ke Ke Ke K eps ca pa A B k) a)).
    + by rewrite list_insert_insert_eq, scatter_add_app.
    + intros k' Hk'. apply Hl. by right.
    + apply (loop_store_step σ a); [done|].
      apply has_shape_scatter_add; [apply Hσ|].
      apply node_contributions_length.
Qed.

End stencil_loop.

(** ** The whole function *)


Lemma has_shape_conj (n m : nat) (a : ndarray) :
  has_shape n m a → has_shape n m (map (map Cconj) a).
Proof.
  intros [Hn Hm]. split; [by rewrite length_map|].
  apply Forall_forall. intros r Hr.
  apply list_elem_of_fmap in Hr as (r0 & -> & Hr0).
  rewrite length_map. by apply (proj1 (Forall_forall _ _) Hm).
Qed.

Lemma apply_gradient_component_ok (σ : store) (wavepacket : HagedornWavepacket)
  (component : nat) (inp : shape * ndarray * ndarray * ndarray) :
  read_input σ wavepacket component = Some inp →
  valid_input (wp_dimension wavepacket) inp →
  apply_gradient_component wavepacket component σ =
  (inr (extend inp.1.1.1, S (length σ)),
   σ ++ [map (map Cconj) inp.2;
         gradient_coefficients (wp_eps wavepacket) (wp_dimension wavepacket) inp]).
Proof.
  destruct inp as [[[K ca] pa] Pa]. unfold read_input, valid_input.
  destruct wavepacket as [D eps [[[[q p] Q] P] S0] shapes coefs]. simpl.
  intros Hread (HD & Hca & Hpa & HPa).
  destruct (shapes !! component) as [K'|] eqn:HK; [|done]. simpl in Hread.
  destruct (coefs !! component) as [coeffs|] eqn:Hcoeffs; [|done].
  simpl in Hread.
  destruct (σ !! coeffs) as [ca'|] eqn:Hσca; [|done]. simpl in Hread.
  destruct (σ !! p) as [pa'|] eqn:Hσp; [|done]. simpl in Hread.
  destruct (σ !! P) as [Pa'|] eqn:HσP; [|done]. simpl in Hread.
  injection Hread as -> -> -> ->.
  set (B := map (map Cconj) Pa).
  set (Z0 := replicate (get_basis_size (extend K)) (replicate D Czero)).
  set (σ1 := σ ++ [B]). set (σ2 := σ1 ++ [Z0]).
  assert (Hl1 : length σ1 = S (length σ)).
  { unfold σ1. rewrite length_app. simpl. lia. }
  pose proof (lookup_lt_Some _ _ _ Hσca) as Hlt_c.
  pose proof (lookup_lt_Some _ _ _ Hσp) as Hlt_p.
  pose proof (lookup_lt_Some _ _ _ HσP) as Hlt_P.
  assert (Hloop : loop_store K D coeffs p P (length σ) (S (length σ))
                    ca pa Pa B σ2 Z0).
  { unfold loop_store, block_store, σ2, σ1. split_and!.
    - rewrite !lookup_app_l; [done|lia|rewrite length_app; simpl; lia].
    - rewrite <-Hl1. unfold σ1. by rewrite list_lookup_middle.
    - apply has_shape_zeros.
    - rewrite !lookup_app_l; [done|lia|rewrite length_app; simpl; lia].
    - rewrite !lookup_app_l; [done|lia|rewrite length_app; simpl; lia].
    - rewrite lookup_app_l by (rewrite length_app; simpl; lia).
      by rewrite list_lookup_middle. }
  unfold apply_gradient_component, get_parameters, get_dimension, get_eps.
  simpl.
  rewrite (bind_ok _ _ σ σ (q, p, Q, P, S0)) by done.
  rewrite (bind_ok _ _ σ σ1 (length σ)).
  2:{ unfold conjugate. rewrite (bind_ok _ _ σ σ Pa); [done|].
      unfold load. by rewrite HσP. }
  rewrite (bind_ok _ _ σ1 σ1 coeffs).
  2:{ unfold get_coefficients. simpl. by rewrite Hcoeffs. }
  rewrite (bind_ok _ _ σ1 σ1 K).
  2:{ unfold get_basis_shapes. simpl. by rewrite HK. }
  rewrite (bind_ok _ _ σ1 σ2 (S (length σ))).
  2:{ unfold zeros, alloc. by rewrite Hl1. }
  unfold get_node_iterator.
  rewrite (bind_ok _ _ σ2
    (<[S (length σ) := gradient_coefficients eps D (K, ca, pa, Pa)]> σ2) tt).
  2:{ apply (stencil_loop_ok K eps D coeffs p P (length σ) (S (length σ))
              ca pa Pa B); try done; try lia.
      by apply has_shape_conj. }
  unfold mret, M_ret, ret. f_equal. unfold σ2.
  rewrite insert_app_r_alt by lia. rewrite Hl1, Nat.sub_diag. simpl.
  unfold σ1. by rewrite <-app_assoc.
Qed.

(** ** Rows without contribution *)

Lemma scatter_add_lookup_ne (cs : list contribution) (a : ndarray) (j : nat) :
  Forall (λ iv : contribution, iv.1 ≠ j) cs → scatter_add cs a !! j = a !! j.
Proof.
  revert a. induction cs as [|[i v] cs IH]; intros a Hcs; [done|].
  apply Forall_cons in Hcs as [Hi Hcs]. rewrite scatter_add_cons, IH by done.
  by apply list_lookup_alter_ne.
Qed.

(** ** The call only writes to arrays it allocated *)


Lemma frame_weaken {A : Type} (n : nat) (m : M store A) (Q Q' : A → Prop) :
  frame n m Q → (∀ a, Q a → Q' a) → frame n m Q'.
Proof.
  intros Hm HQ σ Hσ. destruct (Hm σ Hσ) as (? & ? & H). split_and!; [done..|].
  intros a Ha. destruct (H a Ha). eauto.
Qed.

Lemma frame_ret {A : Type} (n : nat) (a : A) (Q : A → Prop) :
  Q a → frame n (mret a) Q.
Proof. intros HQ σ Hσ. simpl. split_and!; [done..|]. by intros ? [= <-]. Qed.

Lemma frame_lift_opt {A : Type} (n : nat) (e : exn) (o : option A) :
  frame n (lift_opt e o) (λ _, True).
Proof.
  intros σ Hσ. destruct o; simpl; split_and!; try done; by intros ? [= <-].
Qed.

Lemma frame_bind {A B : Type} (n : nat) (m : M store A) (f : A → M store B)
  (Q : A → Prop) (Q' : B → Prop) :
  frame n m Q → (∀ a, Q a → frame n (f a) Q') → frame n (m ≫= f) Q'.
Proof.
  intros Hm Hf σ Hσ. destruct (Hm σ Hσ) as (Hlen & Htake & HQ).
  unfold mbind, M_bind, bind. destruct (m σ) as [[e|a] σ1] eqn:Hmσ; simpl in *.
  - done.
  - destruct (HQ a eq_refl) as [HQa Hle].
    destruct (Hf a HQa σ1 Hlen) as (Hlen' & Htake' & HQ').
    split_and!; [done|congruence|]. intros b Hb.
    destruct (HQ' b Hb). split; [done|lia].
Qed.

Lemma frame_for_each {A : Type} (n : nat) (l : list A) (body : A → M store unit) :
  (∀ x, frame n (body x) (λ _, True)) → frame n (for_each l body) (λ _, True).
Proof.
  intros Hbody. induction l as [|x l IH]; simpl.
  - by apply (frame_ret n tt).
  - apply (frame_bind n (body x) (λ _, for_each l body) (λ _, True)); auto.
Qed.

Lemma frame_load (n : nat) (l : loc) : frame n (load l) (λ _, True).
Proof.
  intros σ Hσ. unfold load.
  destruct (σ !! l); simpl; split_and!; try done; by intros ? [= <-].
Qed.

Lemma frame_alloc (n : nat) (a : ndarray) : frame n (alloc a) (λ l, n ≤ l).
Proof.
  intros σ Hσ. unfold alloc. simpl. rewrite length_app. simpl.
  split_and!; [lia|by rewrite take_app_le|].
  intros ? [= <-]. split; lia.
Qed.

Lemma frame_iadd_row (n : nat) (l : loc) (i : nat) (v : list C) :
  n ≤ l → frame n (iadd_row l i v) (λ _, True).
Proof.
  intros Hl σ Hσ. unfold iadd_row.
  destruct (σ !! l) as [a|]; [|done].
  destruct (a !! i) as [r|]; [|done].
  destruct (row_add r v) as [r'|]; [|done]. simpl.
  rewrite length_insert. split_and!; [done|by rewrite take_insert_ge|].
  intros ? [= <-]. done.
Qed.

Lemma frame_coefficient_at (n : nat) (K : shape) (coeffs : loc) (k : node) :
  frame n (coefficient_at K coeffs k) (λ _, True).
Proof.
  unfold coefficient_at.
  eapply frame_bind; [apply frame_lift_opt|]. intros j _.
  eapply frame_bind; [apply frame_load|]. intros a _.
  eapply frame_bind; [apply frame_lift_opt|]. intros row _.
  apply frame_lift_opt.
Qed.

Lemma frame_central_term (n : nat) (Ke K : shape) (coeffs p cnew : loc)
  (k : node) :
  n ≤ cnew → frame n (central_term Ke K coeffs p cnew k) (λ _, True).
Proof.
  intros Hc. unfold central_term.
  eapply frame_bind; [apply frame_lift_opt|]. intros i _.
  eapply frame_bind; [apply frame_coefficient_at|]. intros c _.
  eapply frame_bind; [apply frame_load|]. intros pa _.
  eapply frame_bind; [apply frame_lift_opt|]. intros pv _.
  by apply frame_iadd_row.
Qed.

Lemma frame_ladder (n : nat) (Ke K : shape) (eps : R) (coeffs Pm cnew : loc)
  (k : node) (f : Z → R) (l : list (nat * node)) :
  n ≤ cnew →
  frame n
    (for_each l (λ '(d, nb),
       i ← lift_opt KeyError (getitem Ke nb);
       kd ← lift_opt IndexError (k !! d);
       c ← coefficient_at K coeffs k;
       Pa ← load Pm;
       col ← lift_opt IndexError (column Pa d);
       iadd_row cnew i (ladder_row eps (f kd) c col)))
    (λ _, True).
Proof.
  intros Hc. apply frame_for_each. intros [d nb].
  eapply frame_bind; [apply frame_lift_opt|]. intros i _.
  eapply frame_bind; [apply frame_lift_opt|]. intros kd _.
  eapply frame_bind; [apply frame_coefficient_at|]. intros c _.
  eapply frame_bind; [apply frame_load|]. intros Pa _.
  eapply frame_bind; [apply frame_lift_opt|]. intros col _.
  by apply frame_iadd_row.
Qed.

Lemma frame_stencil_at (n : nat) (Ke K : shape) (eps : R)
  (coeffs p P Pbar cnew : loc) (k : node) :
  n ≤ cnew →
  frame n (stencil_at Ke K eps coeffs p P Pbar cnew k) (λ _, True).
Proof.
  intros Hc. unfold stencil_at.
  eapply frame_bind; [by apply frame_central_term|]. intros _ _.
  eapply frame_bind.
  { unfold backward_terms. by apply (frame_ladder n Ke K eps coeffs Pbar cnew k IZR). }
  intros _ _. unfold forward_terms.
  by apply (frame_ladder n Ke K eps coeffs P cnew k (λ z, IZR z + 1)%R).
Qed.

Lemma frame_apply_gradient_component (n : nat) (wavepacket : HagedornWavepacket)
  (component : nat) :
  frame n (apply_gradient_component wavepacket component) (λ r, n ≤ r.2).
Proof.
  unfold apply_gradient_component.
  eapply frame_bind.
  { unfold get_parameters. by apply (frame_ret n _ (λ _, True)). }
  intros [[[[q p] Q] P] S0] _.
  eapply frame_bind.
  { unfold conjugate. eapply frame_bind; [apply frame_load|].
    intros a _. apply frame_alloc. }
  intros Pbar _.
  eapply frame_bind; [apply frame_lift_opt|]. intros coeffs _.
  eapply frame_bind; [apply frame_lift_opt|]. intros K _.
  eapply frame_bind; [apply frame_alloc|]. intros cnew Hcnew.
  eapply frame_bind.
  { apply frame_for_each. intros k. by apply frame_stencil_at. }
  intros _ _. by apply frame_ret.
Qed.


Lemma same_length_lift_opt {A : Type} (e : exn) (o : option A) :
  same_length (lift_opt e o).
Proof. intros σ. by destruct o. Qed.

Lemma same_length_bind {A B : Type} (m : M store A) (f : A → M store B) :
  same_length m → (∀ a, same_length (f a)) → same_length (m ≫= f).
Proof.
  intros Hm Hf σ. specialize (Hm σ). unfold mbind, M_bind, bind.
  destruct (m σ) as [[e|a] σ1]; simpl in *; [done|]. by rewrite Hf.
Qed.

Lemma same_length_for_each {A : Type} (l : list A) (body : A → M store unit) :
  (∀ x, same_length (body x)) → same_length (for_each l body).
Proof.
  intros Hbody. induction l as [|x l IH]; simpl; [done|].
  by apply (same_length_bind (body x) (λ _, for_each l body)).
Qed.

Lemma same_length_load (l : loc) : same_length (load l).
Proof. intros σ. unfold load. by destruct (σ !! l). Qed.

Lemma same_length_iadd_row (l : loc) (i : nat) (v : list C) :
  same_length (iadd_row l i v).
Proof.
  intros σ. unfold iadd_row. destruct (σ !! l) as [a|]; [|done].
  destruct (a !! i) as [r|]; [|done].
  destruct (row_add r v) as [r'|]; [|done]. simpl. apply length_insert.
Qed.

Lemma same_length_coefficient_at (K : shape) (coeffs : loc) (k : node) :
  same_length (coefficient_at K coeffs k).
Proof.
  unfold coefficient_at.
  apply same_length_bind; [apply same_length_lift_opt|]. intros j.
  apply same_length_bind; [apply same_length_load|]. intros a.
  apply same_length_bind; [apply same_length_lift_opt|]. intros row.
  apply same_length_lift_opt.
Qed.

Lemma same_length_ladder (Ke K : shape) (eps : R) (coeffs Pm cnew : loc)
  (k : node) (f : Z → R) (l : list (nat * node)) :
  same_length
    (for_each l (λ '(d, nb),
       i ← lift_opt KeyError (getitem Ke nb);
       kd ← lift_opt IndexError (k !! d);
       c ← coefficient_at K coeffs k;
       Pa ← load Pm;
       col ← lift_opt IndexError (column Pa d);
       iadd_row cnew i (ladder_row eps (f kd) c col))).
Proof.
  apply same_length_for_each. intros [d nb].
  apply same_length_bind; [apply same_length_lift_opt|]. intros i.
  apply same_length_bind; [apply same_length_lift_opt|]. intros kd.
  apply same_length_bind; [apply same_length_coefficient_at|]. intros c.
  apply same_length_bind; [apply same_length_load|]. intros Pa.
  apply same_length_bind; [apply same_length_lift_opt|]. intros col.
  apply same_length_iadd_row.
Qed.

Lemma same_length_stencil_at (Ke K : shape) (eps : R)
  (coeffs p P Pbar cnew : loc) (k : node) :
  same_length (stencil_at Ke K eps coeffs p P Pbar cnew k).
Proof.
  unfold stencil_at. apply same_length_bind.
  { unfold central_term.
    apply same_length_bind; [apply same_length_lift_opt|]. intros i.
    apply same_length_bind; [apply same_length_coefficient_at|]. intros c.
    apply same_length_bind; [apply same_length_load|]. intros pa.
    apply same_length_bind; [apply same_length_lift_opt|]. intros pv.
    apply same_length_iadd_row. }
  intros _. apply same_length_bind.
  { apply (same_length_ladder Ke K eps coeffs Pbar cnew k IZR). }
  intros _.
  apply (same_length_ladder Ke K eps coeffs P cnew k (λ z, IZR z + 1)%R).
Qed.


Lemma returns_bind {S A B : Type} (m : M S A) (f : A → M S B) (σ : S)
  (Φ : B → S → Prop) :
  returns m σ (λ a σ1, returns (f a) σ1 Φ) → returns (m ≫= f) σ Φ.
Proof.
  intros Hm b σ'. unfold mbind, M_bind, bind.
  destruct (m σ) as [[e|a] σ1] eqn:Hmσ; [done|]. by apply Hm.
Qed.

Lemma returns_lift_opt {S A : Type} (e : exn) (o : option A) (σ : S)
  (Φ : A → S → Prop) :
  (∀ a, o = Some a → Φ a σ) → returns (lift_opt e o) σ Φ.
Proof. intros H a σ'. destruct o; [|done]. intros [= <- <-]. by apply H. Qed.

Lemma returns_ret {S A : Type} (a : A) (σ : S) (Φ : A → S → Prop) :
  Φ a σ → returns (mret a) σ Φ.
Proof. intros H a' σ' [= <- <-]. done. Qed.

Lemma returns_load (l : loc) (σ : store) (Φ : ndarray → store → Prop) :
  (∀ a, σ !! l = Some a → Φ a σ) → returns (load l) σ Φ.
Proof.
  intros H a σ'. unfold load. destruct (σ !! l); [|done].
  intros [= <- <-]. by apply H.
Qed.

Lemma returns_alloc (a : ndarray) (σ : store) (Φ : loc → store → Prop) :
  Φ (length σ) (σ ++ [a]) → returns (alloc a) σ Φ.
Proof. intros H l σ' [= <- <-]. done. Qed.

Lemma returns_same_length {A : Type} (m : M store A) (σ : store)
  (Φ : A → store → Prop) :
  same_length m → (∀ a σ', length σ' = length σ → Φ a σ') → returns m σ Φ.
Proof. intros Hm H a σ' Hr. apply H. specialize (Hm σ). by rewrite Hr in Hm. Qed.

(** A call that returns has allocated two arrays, the conjugate of [P] and
    the new coefficients, and returns the address of the second. *)
Lemma apply_gradient_component_alloc (σ : store)
  (wavepacket : HagedornWavepacket) (component : nat) :
  returns (apply_gradient_component wavepacket component) σ
    (λ r σ', r.2 = S (length σ) ∧ length σ' = S (S (length σ))).
Proof.
  unfold apply_gradient_component, get_parameters.
  apply returns_bind, returns_ret. destruct (wp_Pi wavepacket) as [[[[q p] Q] P] S0].
  apply returns_bind. unfold conjugate.
  apply returns_bind, returns_load. intros Pa _. apply returns_alloc.
  apply returns_bind, returns_lift_opt. intros coeffs _.
  apply returns_bind, returns_lift_opt. intros K _.
  apply returns_bind, returns_alloc.
  apply returns_bind, returns_same_length.
  { apply same_length_for_each. intros k. apply same_length_stencil_at. }
  intros [] σ' Hlen. apply returns_ret. simpl.
  rewrite Hlen, !length_app. simpl. lia.
Qed.


(** ** Basis shapes in the result file *)

Section iom_facts.

Context {attr : Type} (save : dvalue → attr) (load : attr → dvalue).

Lemma save_description_fmap (descr : description) :
  save_description save descr ∅ = save <$> descr.
Proof.
  unfold save_description.
  apply (map_fold_weak_ind (λ r m, r = save <$> m)).
  - by rewrite fmap_empty.
  - intros key value m r _ ->. by rewrite fmap_insert.
Qed.

Lemma shape_name_inj (K1 K2 : BasisShapeObject) :
  shape_name K1 = shape_name K2 ↔ hash K1 = hash K2.
Proof.
  unfold shape_name. split; [|by intros ->].
  intros H. apply String.app_inj in H. by apply pretty_Z_inj in H.
Qed.

Lemma save_basisshapes_at_new (pathd : string) (K : BasisShapeObject)
  (σ : srf attr) (grp : group attr) :
  σ !! pathd = Some grp → grp !! shape_name K = None →
  save_basisshapes_at save pathd K σ =
  (inr tt, <[pathd := <[shape_name K := shape_dataset save K]> grp]> σ).
Proof.
  intros Hσ Hnew. unfold save_basisshapes_at.
  rewrite (bind_ok _ _ σ σ grp) by (unfold get_group; by rewrite Hσ).
  fold (shape_name K).
  rewrite bool_decide_eq_true_2 by (by apply not_elem_of_dom).
  unfold create_dataset. rewrite Hσ.
  rewrite bool_decide_eq_false_2 by (by apply not_elem_of_dom).
  by rewrite save_description_fmap.
Qed.

Lemma save_basisshapes_at_known (pathd : string) (K : BasisShapeObject)
  (σ : srf attr) (grp : group attr) :
  σ !! pathd = Some grp → is_Some (grp !! shape_name K) →
  save_basisshapes_at save pathd K σ = (inr tt, σ).
Proof.
  intros Hσ Hold. unfold save_basisshapes_at.
  rewrite (bind_ok _ _ σ σ grp) by (unfold get_group; by rewrite Hσ).
  fold (shape_name K).
  rewrite bool_decide_eq_false_2; [done|].
  intros Hn. by apply Hn, elem_of_dom.
Qed.

Lemma save_basisshapes_at_missing (pathd : string) (K : BasisShapeObject)
  (σ : srf attr) :
  σ !! pathd = None → save_basisshapes_at save pathd K σ = (inl KeyError, σ).
Proof.
  intros Hσ. unfold save_basisshapes_at.
  by rewrite (bind_err _ _ σ σ KeyError) by (unfold get_group; by rewrite Hσ).
Qed.

(** After a save that returned, the group holds a data set under the name
    of the hash: the one found there, or the one of the shape. *)
Lemma save_basisshapes_at_stored (pathd : string) (K : BasisShapeObject)
  (σ σ1 : srf attr) :
  save_basisshapes_at save pathd K σ = (inr tt, σ1) →
  ∃ grp grp1, σ !! pathd = Some grp ∧ σ1 !! pathd = Some grp1 ∧
    grp1 !! shape_name K =
      Some (default (shape_dataset save K) (grp !! shape_name K)) ∧
    ∀ name, name ≠ shape_name K → grp1 !! name = grp !! name.
Proof.
  intros Hrun. destruct (σ !! pathd) as [grp|] eqn:Hσ.
  - destruct (grp !! shape_name K) as [ds|] eqn:Hds.
    + rewrite (save_basisshapes_at_known pathd K σ grp) in Hrun by eauto.
      injection Hrun as <-. exists grp, grp. rewrite Hds. eauto.
    + rewrite (save_basisshapes_at_new pathd K σ grp) in Hrun by done.
      injection Hrun as <-.
      exists grp, (<[shape_name K := shape_dataset save K]> grp).
      rewrite Hds, !lookup_insert_eq. split_and!; [done..|].
      intros name Hne. by rewrite lookup_insert_ne.
  - by rewrite save_basisshapes_at_missing in Hrun.
Qed.

Lemma save_basisshapes_at_again (pathd : string) (K1 K2 : BasisShapeObject)
  (σ σ1 : srf attr) :
  save_basisshapes_at save pathd K1 σ = (inr tt, σ1) →
  hash K2 = hash K1 →
  save_basisshapes_at save pathd K2 σ1 = (inr tt, σ1).
Proof.
  intros Hrun Hhash.
  destruct (save_basisshapes_at_stored pathd K1 σ σ1 Hrun)
    as (grp & grp1 & _ & Hσ1 & Hname & _).
  apply (save_basisshapes_at_known pathd K2 σ1 grp1 Hσ1).
  assert (shape_name K2 = shape_name K1) as -> by (by apply shape_name_inj).
  by rewrite Hname.
Qed.

End iom_facts.

(** ** Descriptions and the block factory *)

Lemma create_basis_shape_description (builtin_hash : string * list Z → Z)
  (lim : list Z) :
  create_basis_shape builtin_hash (get_description (HyperCubicShape builtin_hash lim))
  = Some (HyperCubicShape builtin_hash lim).
Proof.
  unfold create_basis_shape, get_description. simpl.
  rewrite lookup_insert_eq. rewrite lookup_insert_ne by done.
  by rewrite lookup_insert_eq.
Qed.


Section persistence.

Context {attr : Type} (save : dvalue → attr) (load : attr → dvalue).
Context (builtin_hash : string * list Z → Z).

Lemma load_wavepacket_basisshapes_ok (_prefixb : string) (blockid : Z)
  (K : BasisShapeObject) (σ : srf attr) (grp : group attr) (ds : dataset attr) :
  σ !! ("/" +:+ _prefixb +:+ pretty blockid +:+ "/wavepacket/basisshapes/")
    = Some grp →
  grp !! shape_name K = Some ds →
  load_wavepacket_basisshapes load _prefixb (hash K) blockid σ =
  (inr (load <$> ds_attrs ds), σ).
Proof.
  intros Hσ Hds. unfold load_wavepacket_basisshapes.
  rewrite (bind_ok _ _ σ σ grp) by (unfold get_group; by rewrite Hσ).
  fold (shape_name K). by rewrite Hds.
Qed.


End persistence.


(** ** Facts on Python objects *)

Lemma fields_with_fields (o : object) (vs : list value) :
  length vs = length (fields o) → fields (with_fields o vs) = vs.
Proof.
  destruct o as [xs|kvs]; simpl; [done|]. rewrite length_fmap. intros Hlen.
  apply snd_zip. rewrite length_fmap. lia.
Qed.

Lemma fields_with_fields_nil (o : object) : fields (with_fields o []) = [].
Proof. destruct o as [xs|kvs]; simpl; [done|]. by destruct (kvs.*1). Qed.

Lemma rename_mono (m m' : memo) (v : value) :
  m ⊆ m' → covered m v → rename m' v = rename m v.
Proof.
  intros Hsub. destruct v as [| | |l]; simpl; try done. intros [l' Hl'].
  rewrite Hl'. by rewrite (lookup_weaken _ _ _ _ Hl' Hsub).
Qed.

Lemma covered_mono (m m' : memo) (v : value) :
  m ⊆ m' → covered m v → covered m' v.
Proof.
  intros Hsub. destruct v as [| | |l]; simpl; try done. intros [l' Hl'].
  exists l'. by apply (lookup_weaken _ _ _ _ Hl' Hsub).
Qed.

Lemma rename_mono_list (m m' : memo) (vs : list value) :
  m ⊆ m' → Forall (covered m) vs → rename m' <$> vs = rename m <$> vs.
Proof.
  intros Hsub Hcov. apply list_fmap_ext. intros i v Hv.
  apply rename_mono; [done|]. by eapply (Forall_lookup_1 _ _ _ _ Hcov Hv).
Qed.

Lemma new_value_mono (n0 n n' : nat) (v : value) :
  n ≤ n' → new_value n0 n v → new_value n0 n' v.
Proof. intros Hn. destruct v; simpl; try done. lia. Qed.

Lemma memo_size_lt (m : memo) (n0 l : nat) :
  (∀ a a', m !! a = Some a' → a < n0) → m !! l = None → l < n0 →
  size (dom m) < n0.
Proof.
  intros Hm Hl Hn.
  assert (Hsub : dom m ⊆ (set_seq 0 n0 : gset nat) ∖ {[l]}).
  { intros a [a' Ha]%elem_of_dom. apply elem_of_difference. split.
    - apply elem_of_set_seq. specialize (Hm _ _ Ha). lia.
    - intros ->%elem_of_singleton. congruence. }
  apply subseteq_size in Hsub.
  rewrite size_difference in Hsub.
  - rewrite size_set_seq, size_singleton in Hsub. lia.
  - apply singleton_subseteq_l, elem_of_set_seq. lia.
Qed.

Lemma copy_values_spec (h0 : heap)
  (copy : value → memo * heap → option (value * (memo * heap))) (bound : nat) :
  copies h0 copy bound →
  ∀ (xs : list value) (pend : gset addr) (s : memo * heap),
    copy_state h0 pend s → Forall (valid_value (length h0)) xs →
    bound ≤ size (dom s.1) →
    ∃ ys s', copy_values copy xs s = Some (ys, s') ∧
      copy_state h0 pend s' ∧ s.1 ⊆ s'.1 ∧ length s.2 ≤ length s'.2 ∧
      ys = rename s'.1 <$> xs ∧ Forall (covered s'.1) xs ∧
      Forall (new_value (length h0) (length s'.2)) ys.
Proof.
  intros Hcopy. induction xs as [|x xs IH]; intros pend s Hs Hxs Hb.
  - exists [], s. simpl. split_and!; try done.
  - apply Forall_cons in Hxs as [Hx Hxs].
    destruct (Hcopy x pend s Hs Hx Hb)
      as (y & s1 & Hy & Hs1 & Hsub1 & Hlen1 & -> & Hcov1 & Hnew1).
    destruct (IH pend s1 Hs1 Hxs) as (ys & s2 & Hys & Hs2 & Hsub2 & Hlen2 &
      -> & Hcov2 & Hnew2).
    { etrans; [exact Hb|]. by apply subseteq_size, subseteq_dom. }
    exists (rename s2.1 x :: (rename s2.1 <$> xs)), s2. simpl.
    rewrite Hy. simpl. rewrite Hys. simpl.
    rewrite (rename_mono s1.1 s2.1 x Hsub2 Hcov1).
    split_and!; try done.
    + by etrans.
    + lia.
    + apply Forall_cons. split; [by eapply covered_mono|done].
    + apply Forall_cons. split; [|done].
      rewrite <-(rename_mono s1.1 s2.1 x Hsub2 Hcov1) in *.
      by eapply new_value_mono.
Qed.

Lemma copy_state_alloc (h0 : heap) (pend : gset addr) (s : memo * heap)
  (l : addr) (o : object) :
  copy_state h0 pend s → l < length h0 → s.1 !! l = None →
  copy_state h0 (pend ∪ {[l]})
    (<[l := length s.2]> s.1, s.2 ++ [with_fields o []]).
Proof.
  intros [Hlen Hold Hmemo Hinj Hnew Hdone] Hl Hnone.
  assert (Hsub : s.1 ⊆ <[l := length s.2]> s.1) by (by apply insert_subseteq).
  split; simpl.
  - rewrite length_app. lia.
  - by rewrite take_app_le.
  - intros a a'. rewrite length_app. simpl.
    destruct (decide (l = a)) as [<-|Hne].
    + rewrite lookup_insert_eq. intros [= <-]. lia.
    + rewrite lookup_insert_ne by done. intros Ha.
      specialize (Hmemo _ _ Ha). lia.
  - intros a1 a2 a'.
    destruct (decide (l = a1)) as [<-|Hne1], (decide (l = a2)) as [<-|Hne2];
      rewrite ?lookup_insert_eq, ?lookup_insert_ne by done; try done.
    + intros [= <-] Ha. specialize (Hmemo _ _ Ha). lia.
    + intros Ha [= <-]. specialize (Hmemo _ _ Ha). lia.
    + apply Hinj.
  - intros a oa Ha. rewrite length_app. simpl.
    destruct (decide (a < length s.2)) as [Hlt|Hge].
    + rewrite lookup_app_l by done. intros Hoa.
      eapply Forall_impl; [by eapply Hnew|]. intros v.
      apply new_value_mono. lia.
    + rewrite lookup_app_r by lia. intros Hoa.
      apply list_lookup_singleton_Some in Hoa as [_ <-].
      rewrite fields_with_fields_nil. by apply Forall_nil.
  - intros a a'. destruct (decide (l = a)) as [<-|Hne].
    + intros _ Hp. exfalso. apply Hp, elem_of_union. right.
      by apply elem_of_singleton.
    + rewrite lookup_insert_ne by done. intros Ha Hp.
      destruct (Hdone a a' Ha) as (oa & Hoa & Hcov & Hcopy).
      { intros Hin. apply Hp, elem_of_union. by left. }
      exists oa. split_and!; [done| |].
      * eapply Forall_impl; [exact Hcov|]. intros v. by apply covered_mono.
      * rewrite (rename_mono_list s.1) by done.
        rewrite lookup_app_l; [done|]. by eapply lookup_lt_Some.
Qed.

Lemma copy_state_fill (h0 : heap) (pend : gset addr) (s : memo * heap)
  (l l' : addr) (o : object) :
  copy_state h0 (pend ∪ {[l]}) s → h0 !! l = Some o → s.1 !! l = Some l' →
  Forall (covered s.1) (fields o) →
  Forall (new_value (length h0) (length s.2)) (rename s.1 <$> fields o) →
  copy_state h0 pend
    (s.1, <[l' := with_fields o (rename s.1 <$> fields o)]> s.2).
Proof.
  intros [Hlen Hold Hmemo Hinj Hnew Hdone] Ho Hl Hcov Hys.
  destruct (Hmemo _ _ Hl) as [Hl0 Hl'].
  split; simpl; rewrite ?length_insert; try done.
  - by rewrite take_insert_ge by lia.
  - intros a oa Ha. destruct (decide (l' = a)) as [<-|Hne].
    + rewrite list_lookup_insert_eq by lia. intros [= <-].
      rewrite fields_with_fields; [done|]. by rewrite length_fmap.
    + rewrite list_lookup_insert_ne by done. by apply Hnew.
  - intros a a' Ha Hp. destruct (decide (l = a)) as [<-|Hne].
    + assert (a' = l') as -> by congruence.
      exists o. split_and!; [done..|]. by rewrite list_lookup_insert_eq by lia.
    + destruct (Hdone a a' Ha) as (oa & Hoa & Hcova & Hcopy).
      { intros [Hin|Hin%elem_of_singleton]%elem_of_union; [done|congruence]. }
      exists oa. split_and!; [done..|].
      rewrite list_lookup_insert_ne; [done|].
      intros <-. apply Hne. by eapply Hinj.
Qed.

Lemma deepcopy_memo_spec (h0 : heap) (fuel : nat) :
  closed h0 → copies h0 (deepcopy_memo fuel) (length h0 - fuel).
Proof.
  intros Hclosed. induction fuel as [|fuel IH]; intros x pend s Hs Hx Hb.
  - (* no nesting left: every object is in the memo *)
    destruct x as [| | |l]; try
      (eexists _, s; split; [done|]; split_and!; try done; apply Hs).
    simpl in Hx. destruct (s.1 !! l) as [l'|] eqn:Hl.
    + exists (VRef l'), s. simpl. rewrite Hl. split; [done|].
      split_and!; try done; simpl; rewrite ?Hl; eauto.
      destruct (cs_memo _ _ _ Hs _ _ Hl). lia.
    + exfalso. assert (Hlt : size (dom s.1) < length h0); [|lia].
      apply (memo_size_lt s.1 (length h0) l); [|done..].
      intros a a' Ha. by destruct (cs_memo _ _ _ Hs _ _ Ha).
  - destruct x as [| | |l]; try
      (eexists _, s; split; [done|]; split_and!; try done; apply Hs).
    simpl in Hx. simpl. destruct (s.1 !! l) as [l'|] eqn:Hl.
    + exists (VRef l'), s. split; [done|].
      split_and!; try done; simpl; rewrite ?Hl; eauto.
      destruct (cs_memo _ _ _ Hs _ _ Hl). lia.
    + destruct (lookup_lt_is_Some_2 h0 l Hx) as [o Ho].
      assert (Hso : s.2 !! l = Some o).
      { rewrite <-(cs_old _ _ _ Hs) in Ho.
        by rewrite lookup_take_lt in Ho by done. }
      rewrite Hso.
      pose proof (copy_state_alloc h0 pend s l o Hs Hx Hl) as Hs1.
      destruct (copy_values_spec h0 (deepcopy_memo fuel) (length h0 - fuel) IH
                  (fields o) (pend ∪ {[l]}) _ Hs1)
        as (ys & s2 & Hys & Hs2 & Hsub2 & Hlen2 & -> & Hcov2 & Hnew2).
      { eapply Forall_impl; [by eapply Hclosed|]. done. }
      { simpl. rewrite dom_insert_L, size_union, size_singleton.
        - lia.
        - apply disjoint_singleton_l, not_elem_of_dom. done. }
      simpl in Hsub2, Hlen2. rewrite length_app in Hlen2. simpl in Hlen2.
      assert (Hl2 : s2.1 !! l = Some (length s.2)).
      { apply (lookup_weaken _ _ _ _ (lookup_insert_eq _ _ _) Hsub2). }
      rewrite Hys. simpl.
      eexists _, _. split; [done|]. split_and!; simpl.
      * by apply (copy_state_fill h0 pend s2 l).
      * etrans; [|exact Hsub2]. by apply insert_subseteq.
      * rewrite length_insert. lia.
      * by rewrite Hl2.
      * eauto.
      * rewrite length_insert. pose proof (cs_length _ _ _ Hs). lia.
Qed.

Lemma copy_state_init (h : heap) : copy_state h ∅ (∅, h).
Proof.
  split; simpl; try done.
  - by rewrite take_ge.
  - intros l o Hl Ho. apply lookup_lt_Some in Ho. lia.
Qed.

(** On a heap without dangling addresses [deepcopy] returns, and what it
    returns is the image of the value under a memo whose copies are all
    completed. *)
Lemma deepcopy_ok (h : heap) (x : value) :
  closed h → valid_value (length h) x →
  ∃ y m h', deepcopy x h = (inr y, h') ∧ copy_state h ∅ (m, h') ∧
    y = rename m x ∧ covered m x ∧ new_value (length h) (length h') y.
Proof.
  intros Hclosed Hx.
  destruct (deepcopy_memo_spec h (length h) Hclosed x ∅ (∅, h)
              (copy_state_init h) Hx)
    as (y & [m h'] & Hy & Hs & _ & _ & Hren & Hcov & Hnew); [lia|].
  exists y, m, h'. unfold deepcopy. rewrite Hy. done.
Qed.

Lemma zip_fst_fmap_snd {A B D : Type} (f : B → D) (kvs : list (A * B)) :
  zip (kvs.*1) (f <$> kvs.*2) = prod_map Datatypes.id f <$> kvs.
Proof. induction kvs as [|[k v] kvs IH]; simpl; [done|]. by f_equal. Qed.

(** Two heaps that agree on a region closed under the fields of its objects
    show the same for every value of the region. *)
Lemma snapshot_agree (P : addr → Prop) (h h2 : heap) :
  (∀ l o, P l → h !! l = Some o → Forall (value_in P) (fields o)) →
  (∀ l, P l → h2 !! l = h !! l) →
  ∀ n v, value_in P v → snapshot n h2 v = snapshot n h v.
Proof.
  intros Hclosed Hagree. induction n as [|n IH]; intros v Hv.
  - by destruct v.
  - destruct v as [| | |l]; try done. simpl in *. rewrite (Hagree l Hv).
    destruct (h !! l) as [o|] eqn:Ho; [|done].
    pose proof (Hclosed l o Hv Ho) as Hf.
    destruct o as [xs|kvs]; simpl in Hf; f_equal.
    + apply Forall_fmap_ext_1. eapply Forall_impl; [exact Hf|]. apply IH.
    + apply Forall_fmap_ext_1. rewrite Forall_fmap in Hf.
      eapply Forall_impl; [exact Hf|]. intros [k v] Hkv. simpl in *.
      unfold prod_map. simpl. f_equal. by apply IH.
Qed.

(** A completed copy shows what the original shows. *)
Lemma snapshot_copy (h0 h' : heap) (m : memo) :
  closed h0 → copy_state h0 ∅ (m, h') →
  ∀ n v, valid_value (length h0) v → covered m v →
    snapshot n h' (rename m v) = snapshot n h0 v.
Proof.
  intros Hclosed Hs. induction n as [|n IH]; intros v Hv Hcov.
  - by destruct v.
  - destruct v as [| | |l]; try done. simpl in *. destruct Hcov as [l' Hl'].
    rewrite Hl'. simpl.
    destruct (cs_done _ _ _ Hs l l' Hl') as (o & Ho & Hcovo & Hcopy);
      [apply not_elem_of_empty|]. simpl in *.
    rewrite Ho, Hcopy. pose proof (Hclosed l o Ho) as Hval.
    destruct o as [xs|kvs]; simpl in *; f_equal.
    + rewrite <-list_fmap_compose. apply Forall_fmap_ext_1.
      apply Forall_forall. intros v Hin. simpl.
      apply IH; by eapply (proj1 (Forall_forall _ _)).
    + rewrite zip_fst_fmap_snd, <-list_fmap_compose. apply Forall_fmap_ext_1.
      rewrite Forall_fmap in Hval, Hcovo.
      apply Forall_forall. intros [k v] Hin. unfold prod_map. simpl. f_equal.
      apply IH.
      * by apply (proj1 (Forall_forall _ _) Hval (k, v)).
      * by apply (proj1 (Forall_forall _ _) Hcovo (k, v)).
Qed.

(** The new objects of a copy point to new objects only, so the copy shows
    the same in every heap with these objects. *)
Lemma snapshot_new (h0 h' h2 : heap) (pend : gset addr) (m : memo) :
  copy_state h0 pend (m, h') →
  (∀ l, length h0 ≤ l → h2 !! l = h' !! l) →
  ∀ n v, new_value (length h0) (length h') v → snapshot n h2 v = snapshot n h' v.
Proof.
  intros Hs Hagree.
  apply (snapshot_agree (λ l, length h0 ≤ l < length h') h' h2).
  - intros l o [Hl _] Ho. apply (cs_new _ _ _ Hs l o Hl Ho).
  - intros l [Hl _]. by apply Hagree.
Qed.

(** The objects of a closed heap show the same in every heap that has
    them. *)
Lemma snapshot_old (h h2 : heap) :
  closed h → (∀ l, l < length h → h2 !! l = h !! l) →
  ∀ n v, valid_value (length h) v → snapshot n h2 v = snapshot n h v.
Proof.
  intros Hclosed Hagree.
  apply (snapshot_agree (λ l, l < length h) h h2); [|done].
  intros l o _ Ho. exact (Hclosed l o Ho).
Qed.

(** After a copy the heap is closed again. *)
Lemma copy_state_closed (h0 h' : heap) (pend : gset addr) (m : memo) :
  closed h0 → copy_state h0 pend (m, h') → closed h'.
Proof.
  intros Hclosed Hs l o Ho. pose proof (cs_length _ _ _ Hs) as Hlen.
  simpl in *. destruct (decide (l < length h0)) as [Hlt|Hge].
  - rewrite <-(cs_old _ _ _ Hs) in Hclosed. simpl in Hclosed.
    assert (Ho' : take (length h0) h' !! l = Some o)
      by (by rewrite lookup_take_lt).
    specialize (Hclosed l o Ho'). rewrite length_take in Hclosed.
    eapply Forall_impl; [exact Hclosed|]. intros [| | |a]; simpl; try done. lia.
  - eapply Forall_impl; [apply (cs_new _ _ _ Hs l o); [lia|done]|].
    intros [| | |a]; simpl; try done. lia.
Qed.

Lemma reachable_in (P : addr → Prop) (h : heap) (v : value) (a : addr) :
  (∀ l o, P l → h !! l = Some o → Forall (value_in P) (fields o)) →
  value_in P v → reachable h v a → P a.
Proof.
  intros Hclosed Hv Hr. induction Hr as [l|l o v a Ho Hin _ IH]; [done|].
  apply IH. simpl in Hv.
  by apply (proj1 (Forall_forall _ _) (Hclosed l o Hv Ho)).
Qed.

Lemma reachable_old (h : heap) (v : value) (a : addr) :
  closed h → valid_value (length h) v → reachable h v a → a < length h.
Proof.
  intros Hclosed. apply (reachable_in (λ l, l < length h)).
  intros l o _ Ho. exact (Hclosed l o Ho).
Qed.

Lemma reachable_new (h0 h' : heap) (pend : gset addr) (m : memo) (v : value)
  (a : addr) :
  copy_state h0 pend (m, h') → new_value (length h0) (length h') v →
  reachable h' v a → length h0 ≤ a.
Proof.
  intros Hs Hv Hr.
  apply (reachable_in (λ l, length h0 ≤ l < length h') h' v a); [|done..].
  intros l o [Hl _] Ho. apply (cs_new _ _ _ Hs l o Hl Ho).
Qed.

(** New objects of a copy show the same in every heap that holds them. *)
Lemma snapshot_new_region (h0 h' h2 : heap) (pend : gset addr) (m : memo) :
  copy_state h0 pend (m, h') →
  (∀ l, length h0 ≤ l < length h' → h2 !! l = h' !! l) →
  ∀ n v, new_value (length h0) (length h') v → snapshot n h2 v = snapshot n h' v.
Proof.
  intros Hs Hagree n v Hv.
  apply (snapshot_agree (λ l, length h0 ≤ l < length h')).
  - intros l o [Hl _] Ho. pose proof (cs_new _ _ _ Hs l o Hl Ho) as Hf.
    simpl in Hf. eapply Forall_impl; [exact Hf|]. by intros [].
  - exact Hagree.
  - by destruct v.
Qed.

Lemma reachable_new_region (h0 h' h2 : heap) (pend : gset addr) (m : memo)
  (v : value) (a : addr) :
  copy_state h0 pend (m, h') →
  (∀ l, length h0 ≤ l < length h' → h2 !! l = h' !! l) →
  new_value (length h0) (length h') v → reachable h2 v a → length h0 ≤ a.
Proof.
  intros Hs Hagree Hv Hr.
  assert (length h0 ≤ a < length h') as [? _]; [|done].
  apply (reachable_in (λ l, length h0 ≤ l < length h') h2 v a); [| |done].
  - intros l o [Hl Hl'] Ho. rewrite Hagree in Ho by done.
    pose proof (cs_new _ _ _ Hs l o Hl Ho) as Hf.
    simpl in Hf. eapply Forall_impl; [exact Hf|]. by intros [].
  - by destruct v.
Qed.

(** ** Facts on dicts *)

Lemma dict_get_set_eq (kvs : list (string * value)) (key : string) (v : value) :
  dict_get (dict_set kvs key v) key = Some v.
Proof.
  induction kvs as [|[k w] kvs IH]; simpl.
  - by rewrite decide_True.
  - destruct (decide (k = key)) as [->|Hne]; simpl.
    + by rewrite decide_True.
    + by rewrite decide_False.
Qed.

Lemma dict_get_set_ne (kvs : list (string * value)) (key key' : string)
  (v : value) :
  key ≠ key' → dict_get (dict_set kvs key v) key' = dict_get kvs key'.
Proof.
  intros Hne. induction kvs as [|[k w] kvs IH]; simpl.
  - by rewrite decide_False.
  - destruct (decide (k = key)) as [->|Hk]; simpl.
    + by rewrite !decide_False.
    + by rewrite IH.
Qed.

Lemma dict_set_fields (Q : value → Prop) (kvs : list (string * value))
  (key : string) (v : value) :
  Forall Q (kvs.*2) → Q v → Forall Q ((dict_set kvs key v).*2).
Proof.
  intros Hkvs Hv. induction kvs as [|[k w] kvs IH]; simpl.
  - by apply Forall_singleton.
  - apply Forall_cons in Hkvs as [Hw Hkvs].
    destruct (decide (k = key)); simpl; apply Forall_cons; auto.
Qed.

Lemma load_dict_ok (h : heap) (l : addr) (kvs : list (string * value)) :
  h !! l = Some (ODict kvs) → load_dict l h = (inr kvs, h).
Proof. intros H. unfold load_dict. by rewrite H. Qed.

(** ** The parameter provider *)

Section provider_facts.

Context (GlobalDefaults : addr) (self : ParameterProvider).

Lemma closed_store_dict (h : heap) (l : addr) (kvs : list (string * value)) :
  closed h → Forall (valid_value (length h)) (kvs.*2) →
  closed (<[l := ODict kvs]> h).
Proof.
  intros Hclosed Hkvs a o. rewrite length_insert.
  destruct (decide (l = a)) as [<-|Hne].
  - intros Ho. pose proof (lookup_lt_Some _ _ _ Ho) as Hlt.
    rewrite length_insert in Hlt.
    rewrite list_lookup_insert_eq in Ho by done. by injection Ho as <-.
  - rewrite list_lookup_insert_ne by done. apply Hclosed.
Qed.

(** An assignment stores a copy that shows what the value shows. *)
Lemma setitem_ok (key : string) (v : value) (h : heap)
  (params : list (string * value)) :
  closed h → h !! _params self = Some (ODict params) →
  valid_value (length h) v →
  ∃ c m h',
    copy_state h ∅ (m, h') ∧ c = rename m v ∧ covered m v ∧
    new_value (length h) (length h') c ∧
    __setitem__ self key v h =
      (inr tt, <[_params self := ODict (dict_set params key c)]> h').
Proof.
  intros Hclosed Hp Hv.
  destruct (deepcopy_ok h v Hclosed Hv) as (c & m & h' & Hc & Hs & Hren & Hcov & Hnew).
  exists c, m, h'. split_and!; try done. unfold __setitem__.
  rewrite (bind_ok _ _ h h' c Hc).
  rewrite (bind_ok _ _ h' h' params); [done|].
  apply load_dict_ok. rewrite <-(cs_old _ _ _ Hs) in Hp. simpl in Hp.
  pose proof (lookup_lt_Some _ _ _ Hp) as Hlt. rewrite length_take in Hlt.
  by rewrite lookup_take_lt in Hp by lia.
Qed.

Lemma getitem_local (key : string) (v : value) (h : heap)
  (params : list (string * value)) :
  h !! _params self = Some (ODict params) → dict_get params key = Some v →
  __getitem__ GlobalDefaults self key h = (inr v, h).
Proof.
  intros Hp Hv. unfold __getitem__.
  rewrite (bind_ok _ _ h h params) by (by apply load_dict_ok).
  by rewrite Hv.
Qed.

Lemma getitem_missing (key : string) (h : heap)
  (params defaults : list (string * value)) :
  h !! _params self = Some (ODict params) →
  h !! GlobalDefaults = Some (ODict defaults) →
  dict_get params key = None → dict_get defaults key = None →
  __getitem__ GlobalDefaults self key h = (inl KeyError, h).
Proof.
  intros Hp HG Hv Hd. unfold __getitem__.
  rewrite (bind_ok _ _ h h params) by (by apply load_dict_ok).
  rewrite Hv.
  rewrite (bind_ok _ _ h h defaults) by (by apply load_dict_ok).
  by rewrite Hd.
Qed.

Lemma getitem_default (key : string) (d : value) (h : heap)
  (params defaults : list (string * value)) :
  closed h →
  h !! _params self = Some (ODict params) →
  h !! GlobalDefaults = Some (ODict defaults) →
  dict_get params key = None → dict_get defaults key = Some d →
  ∃ c h1 h2 m1 m2 c1,
    copy_state h ∅ (m1, h1) ∧ c1 = rename m1 d ∧ covered m1 d ∧
    copy_state h1 ∅ (m2, h2) ∧ c = rename m2 c1 ∧ covered m2 c1 ∧
    valid_value (length h) d ∧ valid_value (length h1) c1 ∧
    new_value (length h1) (length h2) c ∧
    __getitem__ GlobalDefaults self key h =
      (inr c, <[_params self := ODict (dict_set params key c)]> h2).
Proof.
  intros Hclosed Hp HG Hv Hd.
  assert (Hvd : valid_value (length h) d).
  { pose proof (Hclosed _ _ HG) as Hf. simpl in Hf.
    clear -Hf Hd. induction defaults as [|[k w] kvs IH]; [done|].
    simpl in *. apply Forall_cons in Hf as [Hw Hf].
    destruct (decide (k = key)); [by injection Hd as <-|auto]. }
  destruct (deepcopy_ok h d Hclosed Hvd)
    as (c1 & m1 & h1 & Hc1 & Hs1 & Hren1 & Hcov1 & Hnew1).
  pose proof (copy_state_closed h h1 ∅ m1 Hclosed Hs1) as Hclosed1.
  assert (Hp1 : h1 !! _params self = Some (ODict params)).
  { pose proof (lookup_lt_Some _ _ _ Hp) as Hlt.
    rewrite <-(cs_old _ _ _ Hs1) in Hp. simpl in Hp.
    by rewrite lookup_take_lt in Hp by lia. }
  assert (Hvc1 : valid_value (length h1) c1).
  { destruct c1; simpl in *; try done. lia. }
  destruct (setitem_ok key c1 h1 params Hclosed1 Hp1 Hvc1)
    as (c & m2 & h2 & Hs2 & Hren2 & Hcov2 & Hnew2 & Hset).
  exists c, h1, h2, m1, m2, c1. split_and!; try done.
  unfold __getitem__.
  rewrite (bind_ok _ _ h h params) by (by apply load_dict_ok).
  rewrite Hv.
  rewrite (bind_ok _ _ h h defaults) by (by apply load_dict_ok).
  rewrite Hd.
  rewrite (bind_ok _ _ h h1 c1 Hc1).
  rewrite (bind_ok _ _ _ _ tt Hset).
  erewrite bind_ok; cycle 1.
  { apply load_dict_ok. apply list_lookup_insert_eq.
    pose proof (lookup_lt_Some _ _ _ Hp1). pose proof (cs_length _ _ _ Hs2).
    simpl in *. lia. }
  by rewrite dict_get_set_eq.
Qed.

End provider_facts.


(** * The properties of the specification *)

(** C5. The node set of [extend K] is the union of the nodes of [K] and of
    the nodes [k + e_d] for [k] in [K] and [d] in [0, D), where [k + e_d] is
    [k] with [k[d] + 1] at the place [d]; so [extend K] contains every node
    of [K] and every unit increment of a node of [K]. This is the shape that
    a call of [apply_gradient_component] builds from the shape [K] of the
    component (line 44) and returns. *)
Theorem extend_node_set (K : shape) :
  (∀ x, x ∈ nodes (extend K) ↔
        x ∈ nodes K ∨
        ∃ k d kd, k ∈ nodes K ∧ d < dimension K ∧ k !! d = Some kd ∧
                  x = <[d := (kd + 1)%Z]> k) ∧
  nodes K ⊆ nodes (extend K) ∧
  (∀ k d kd, k ∈ nodes K → d < dimension K → k !! d = Some kd →
     <[d := (kd + 1)%Z]> k ∈ nodes (extend K)) ∧
  (∀ (σ : store) (wavepacket : HagedornWavepacket) (component : nat)
     (ca pa Pa : ndarray),
     read_input σ wavepacket component = Some (K, ca, pa, Pa) →
     valid_input (wp_dimension wavepacket) (K, ca, pa, Pa) →
     ∃ (Ke : shape) (cnew : loc) (σ' : store),
       apply_gradient_component wavepacket component σ = (inr (Ke, cnew), σ') ∧
       dimension Ke = dimension K ∧
       ∀ x, x ∈ nodes Ke ↔
            x ∈ nodes K ∨
            ∃ k d kd, k ∈ nodes K ∧ d < dimension K ∧ k !! d = Some kd ∧
                      x = <[d := (kd + 1)%Z]> k).
Proof.
  split_and!.
  - apply extend_elem_insert.
  - intros x Hx. apply extend_elem_insert. by left.
  - intros k d kd Hk Hd Hkd. apply extend_elem_insert. right. by exists k, d, kd.
  - intros σ wavepacket component ca pa Pa Hread Hvalid.
    eexists _, _, _. split_and!.
    + by apply (apply_gradient_component_ok σ wavepacket component
                  (K, ca, pa, Pa)).
    + done.
    + apply extend_elem_insert.
Qed.

Lemma extend_node_set_witness :
  ∃ (Ke : shape) (cnew : loc) (σ' : store),
    apply_gradient_component packet3 0 store3 = (inr (Ke, cnew), σ') ∧
    dimension Ke = dimension K3 ∧
    ∀ x, x ∈ nodes Ke ↔
         x ∈ nodes K3 ∨
         ∃ k d kd, k ∈ nodes K3 ∧ d < dimension K3 ∧ k !! d = Some kd ∧
                   x = <[d := (kd + 1)%Z]> k.
Proof.
  apply (proj2 (proj2 (proj2 (extend_node_set K3))) store3 packet3 0
           c3 [[one]] [[one]]).
  - reflexivity.
  - split; [reflexivity|].
    repeat (split; [split; [reflexivity|repeat constructor]|]).
    split; [reflexivity|repeat constructor].
Defined.

Lemma sqrt_half_sqrt_two : (sqrt (1 * (1 * 1) / 2) * sqrt 2 = 1)%R.
Proof.
  rewrite <-sqrt_mult by lra.
  replace (1 * (1 * 1) / 2 * 2)%R with 1%R by lra. apply sqrt_1.
Qed.





(** The hypothesis on the shape is needed here. The set of the nodes 0 and
    2 has a hole, as no shape of the families has: the backward lookup of
    the node 2 against it returns nothing, whereas the code looks the node
    up in the extended set, finds the node 1 there and adds to its row. *)
Lemma backward_lookup_holed_set :
  get_neighbours K02 [2%Z] backward = [] ∧
  get_neighbours (extend K02) [2%Z] backward = [(0, [1%Z])] ∧
  backward_terms (extend K02) K02 1 0 1 2 [2%Z] loop02 ≠
    (inr tt,
     <[2 := scatter_add
         (backward_contributions K02 (extend K02) 1 [[Cconj one]]
            (coefficient_of K02 c02 [2%Z]) [2%Z]) zeros4]> loop02) ∧
  ∃ a : ndarray,
    apply_gradient_component packet02 0 store02 =
      (inr (extend K02, 7), store02 ++ [[[Cconj one]]; a]) ∧
    a ≠ scatter_add
          (stencil_contributions K02 (extend K02) (extend K02) K02 1
             c02 [[Czero]] [[one]] [[Cconj one]])
          zeros4.
Proof.
  split; [by vm_compute|]. split; [by vm_compute|]. split.
  - rewrite (backward_terms_ok (extend K02) K02 1 1 0 2 c02 ltac:(lia) 1
               [[Cconj one]] [2%Z] one loop02 zeros4).
    + intros Heq.
      apply (f_equal (λ r : (exn + ()) * store,
               match r.2 !! 2 with
               | Some a => match a !! 2 with
                           | Some [x] => x.1
                           | _ => 0%R
                           end
               | None => 0%R
               end)) in Heq.
      revert Heq. unfold backward_contributions. eval_lookups.
      unfold scatter_add, ladder_row, column_of, component_of. simpl.
      rewrite sqrt_half_sqrt_two. lra.
    + lia.
    + split; [reflexivity|]. repeat constructor.
    + reflexivity.
    + by vm_compute.
    + split; [reflexivity|]. split; [reflexivity|].
      split; [reflexivity|]. repeat constructor.
    + reflexivity.
  - eexists. split.
    + apply (apply_gradient_component_ok store02 packet02 0
               (K02, c02, [[Czero]], [[one]])).
      * reflexivity.
      * split; [reflexivity|].
        repeat (split; [split; [reflexivity|repeat constructor]|]).
        split; [reflexivity|repeat constructor].
    + intros Heq.
      apply (f_equal (λ a : ndarray,
               match a !! 2 with
               | Some [x] => x.1
               | _ => 0%R
               end)) in Heq.
      revert Heq.
      unfold gradient_coefficients, gradient_contributions,
        stencil_contributions, node_contributions, backward_contributions,
        forward_contributions, central_contribution.
      cbn [fst snd mbind list_bind nodes K02 extend].
      eval_lookups. eval_struct (get_basis_size (extend K02)).
      unfold scatter_add, ladder_row, column_of, component_of, zeros4. simpl.
      rewrite sqrt_half_sqrt_two. lra.
Qed.

Lemma scenario_coefficients :
  gradient_coefficients 1 1 (K3, c3, [[one]], [[one]]) =
  [[one]; [(sqrt (1 / 2), 0%R)]; [Czero]; [Czero]].
Proof.
  unfold gradient_coefficients, gradient_contributions,
    stencil_contributions, node_contributions, backward_contributions,
    forward_contributions, central_contribution.
  cbn [fst snd mbind list_bind nodes K3 extend].
  eval_lookups. eval_struct (get_basis_size (extend K3)).
  unfold scatter_add, ladder_row, column_of, component_of. simpl.
  replace (1 * (1 * 1) / 2)%R with (1 / 2)%R by lra.
  replace (0 + 1)%R with 1%R by lra. rewrite sqrt_1.
  unfold Cadd, Cmul, RtoC, Cconj, one, Czero. simpl.
  repeat f_equal; ring.
Qed.

Lemma scenario_input :
  read_input store3 packet3 0 = Some (K3, c3, [[one]], [[one]]) ∧
  valid_input (wp_dimension packet3) (K3, c3, [[one]], [[one]]).
Proof.
  split; [reflexivity|]. split; [reflexivity|].
  repeat (split; [split; [reflexivity|repeat constructor]|]).
  split; [reflexivity|repeat constructor].
Qed.

(** C3. On the shape with the nodes 0, 1, 2 in one dimension, with
    [p = [1]], [P = [[1]]], [eps = 1] and the coefficients [1, 0, 0], the
    call returns the extended shape with the nodes 0, 1, 2, 3 and a new
    array whose rows, at the positions of these nodes, are [1],
    [sqrt(1/2)], [0] and [0]. *)
Theorem apply_gradient_component_scenario :
  apply_gradient_component packet3 0 store3 =
    (inr (extend K3, 7),
     store3 ++ [[[Cconj one]];
                [[one]; [(sqrt (1 / 2), 0%R)]; [Czero]; [Czero]]]) ∧
  nodes (extend K3) = [[0%Z]; [1%Z]; [2%Z]; [3%Z]] ∧
  get_basis_size (extend K3) = 4 ∧
  position_of (extend K3) <$> nodes (extend K3) = [0; 1; 2; 3].
Proof.
  split; [|by vm_compute].
  destruct scenario_input as [Hread Hvalid].
  rewrite (apply_gradient_component_ok store3 packet3 0 _ Hread Hvalid).
  simpl wp_eps. simpl wp_dimension. by rewrite scenario_coefficients.
Qed.

(** C4. On a valid input the call returns a new array with one row for each
    node of the extended shape and [D] entries in a row; the array is the
    scatter-add of the contributions onto zeros, so a row that no
    contribution addresses is zero. *)
Theorem apply_gradient_component_rows (σ : store)
  (wavepacket : HagedornWavepacket) (component : nat)
  (inp : shape * ndarray * ndarray * ndarray) :
  read_input σ wavepacket component = Some inp →
  valid_input (wp_dimension wavepacket) inp →
  ∃ (cnew : loc) (a : ndarray),
    (apply_gradient_component wavepacket component σ).1 =
      inr (extend inp.1.1.1, cnew) ∧
    (apply_gradient_component wavepacket component σ).2 !! cnew = Some a ∧
    length a = get_basis_size (extend inp.1.1.1) ∧
    Forall (λ r : list C, length r = wp_dimension wavepacket) a ∧
    a = scatter_add (gradient_contributions (wp_eps wavepacket) inp)
          (replicate (get_basis_size (extend inp.1.1.1))
             (replicate (wp_dimension wavepacket) Czero)) ∧
    ∀ j, j < get_basis_size (extend inp.1.1.1) →
      Forall (λ iv : contribution, iv.1 ≠ j)
        (gradient_contributions (wp_eps wavepacket) inp) →
      a !! j = Some (replicate (wp_dimension wavepacket) Czero).
Proof.
  intros Hread Hvalid.
  rewrite (apply_gradient_component_ok σ wavepacket component inp Hread Hvalid).
  destruct inp as [[[K ca] pa] Pa]. destruct Hvalid as (HD & Hca & Hpa & HPa).
  simpl fst. simpl snd.
  set (D := wp_dimension wavepacket) in *. set (eps := wp_eps wavepacket).
  assert (Hsh : has_shape (get_basis_size (extend K)) D
                  (gradient_coefficients eps D (K, ca, pa, Pa))).
  { apply has_shape_scatter_add; [apply has_shape_zeros|].
    apply (stencil_contributions_length K eps D ca pa Pa (map (map Cconj) Pa));
      [done..|]. by apply has_shape_conj. }
  exists (S (length σ)), (gradient_coefficients eps D (K, ca, pa, Pa)).
  split_and!; [done| |apply Hsh|apply Hsh|done|].
  - rewrite lookup_app_r by lia.
    by replace (S (length σ) - length σ) with 1 by lia.
  - intros j Hj Hcs. unfold gradient_coefficients.
    rewrite scatter_add_lookup_ne by done. by apply lookup_replicate_2.
Qed.

Lemma apply_gradient_component_rows_witness :
  ∃ (cnew : loc) (a : ndarray),
    (apply_gradient_component packet3 0 store3).1 = inr (extend K3, cnew) ∧
    (apply_gradient_component packet3 0 store3).2 !! cnew = Some a ∧
    length a = get_basis_size (extend K3) ∧
    Forall (λ r : list C, length r = 1) a ∧
    a = scatter_add (gradient_contributions 1 (K3, c3, [[one]], [[one]]))
          (replicate (get_basis_size (extend K3)) (replicate 1 Czero)) ∧
    ∀ j, j < get_basis_size (extend K3) →
      Forall (λ iv : contribution, iv.1 ≠ j)
        (gradient_contributions 1 (K3, c3, [[one]], [[one]])) →
      a !! j = Some (replicate 1 Czero).
Proof.
  apply (apply_gradient_component_rows store3 packet3 0
           (K3, c3, [[one]], [[one]])).
  - reflexivity.
  - split; [reflexivity|].
    repeat (split; [split; [reflexivity|repeat constructor]|]).
    split; [reflexivity|repeat constructor].
Defined.

(** C6. A call, whether it returns or fails, leaves every array of the
    caller's store as it was: the coefficient arrays and the parameter
    arrays of the wavepacket are among them, and shapes are values. The
    array it returns is a new one, at an address the store did not have. *)
Theorem apply_gradient_component_frame (σ : store)
  (wavepacket : HagedornWavepacket) (component : nat) :
  take (length σ) (apply_gradient_component wavepacket component σ).2 = σ ∧
  ∀ Ke cnew,
    (apply_gradient_component wavepacket component σ).1 = inr (Ke, cnew) →
    length σ < cnew < length (apply_gradient_component wavepacket component σ).2.
Proof.
  split.
  - destruct (frame_apply_gradient_component (length σ) wavepacket component
                σ (le_n _)) as (_ & Htake & _).
    by rewrite Htake, take_ge.
  - intros Ke cnew Hr.
    pose proof (apply_gradient_component_alloc σ wavepacket component) as Ha.
    unfold returns in Ha.
    destruct (apply_gradient_component wavepacket component σ) as [r σ'].
    simpl in Hr. subst r. destruct (Ha _ _ eq_refl) as [Hc Hl].
    simpl in *. lia.
Qed.



(** C8. After a save of a shape that returned, a save of the same shape, or
    of any shape of the same hash, returns and leaves the file as it is:
    the group of the basis shapes holds, under the name "basis_shape_" and
    the hash, the data set it held before or else the data set of the
    shape with its description; its other data sets are untouched, and
    names differ for hashes that differ. The same holds of the functions of
    both plugins. *)
Theorem save_basisshapes_idempotent {attr : Type} (save : dvalue → attr)
  (inhomog : bool) (_prefixb : string) (blockid : Z)
  (K1 K2 : BasisShapeObject) (σ σ1 : srf attr) :
  hash K2 = hash K1 →
  (if inhomog then save_inhomogwavepacket_basisshapes save _prefixb K1 blockid
   else save_wavepacket_basisshapes save _prefixb K1 blockid) σ = (inr tt, σ1) →
  (if inhomog then save_inhomogwavepacket_basisshapes save _prefixb K2 blockid
   else save_wavepacket_basisshapes save _prefixb K2 blockid) σ1 = (inr tt, σ1) ∧
  (∃ grp grp1,
     σ !! ("/" +:+ _prefixb +:+ pretty blockid +:+
           (if inhomog then "/wavepacket_inhomog/basisshapes/"
            else "/wavepacket/basisshapes/")) = Some grp ∧
     σ1 !! ("/" +:+ _prefixb +:+ pretty blockid +:+
            (if inhomog then "/wavepacket_inhomog/basisshapes/"
             else "/wavepacket/basisshapes/")) = Some grp1 ∧
     grp1 !! ("basis_shape_" +:+ pretty (hash K1)) =
       Some (default (shape_dataset save K1)
               (grp !! ("basis_shape_" +:+ pretty (hash K1)))) ∧
     ∀ name, name ≠ "basis_shape_" +:+ pretty (hash K1) →
       grp1 !! name = grp !! name) ∧
  (∀ K K', shape_name K = shape_name K' ↔ hash K = hash K').
Proof.
  intros Hhash Hsave. split_and!.
  - destruct inhomog;
      by apply (save_basisshapes_at_again save _ K1 K2 σ σ1).
  - destruct inhomog;
      by apply (save_basisshapes_at_stored save _ K1 σ σ1).
  - apply shape_name_inj.
Qed.

Lemma save_basisshapes_idempotent_witness :
  save_wavepacket_basisshapes Datatypes.id "datablock_"
    (HyperCubicShape sum_hash [1%Z; 2%Z]) 0
    (save_wavepacket_basisshapes Datatypes.id "datablock_"
       (HyperCubicShape sum_hash [3%Z]) 0 file0).2 =
  (inr tt,
   (save_wavepacket_basisshapes Datatypes.id "datablock_"
      (HyperCubicShape sum_hash [3%Z]) 0 file0).2).
Proof.
  apply (save_basisshapes_idempotent Datatypes.id false "datablock_" 0
           (HyperCubicShape sum_hash [3%Z])
           (HyperCubicShape sum_hash [1%Z; 2%Z]) file0).
  - reflexivity.
  - vm_compute. reflexivity.
Defined.

(** C9. For a key that the local parameters lack, indexing consults the
    table of the defaults. Where the table has the key, the call returns a
    value that it has stored under the key in the local parameters, that
    shows what the default shows, and that leads to new objects only, the
    other objects being left as they were; where the table lacks the key
    too, the call raises KeyError. KeyError is raised if and only if both
    lack the key. *)
Theorem getitem_global_defaults (GlobalDefaults : addr)
  (self : ParameterProvider) (key : string) (h : heap)
  (params defaults : list (string * value)) :
  closed h →
  h !! _params self = Some (ODict params) →
  h !! GlobalDefaults = Some (ODict defaults) →
  (dict_get params key = None →
   match dict_get defaults key with
   | Some d =>
       ∃ c h',
         __getitem__ GlobalDefaults self key h = (inr c, h') ∧
         h' !! _params self = Some (ODict (dict_set params key c)) ∧
         (∀ n, snapshot n h' c = snapshot n h d) ∧
         (∀ a, reachable h' c a → length h ≤ a) ∧
         (∀ l, l < length h → l ≠ _params self → h' !! l = h !! l)
   | None => __getitem__ GlobalDefaults self key h = (inl KeyError, h)
   end) ∧
  ((∃ h', __getitem__ GlobalDefaults self key h = (inl KeyError, h')) ↔
   dict_get params key = None ∧ dict_get defaults key = None).
Proof.
  intros Hclosed Hp HG.
  assert (Hcase : dict_get params key = None →
    match dict_get defaults key with
    | Some d =>
        ∃ c h',
          __getitem__ GlobalDefaults self key h = (inr c, h') ∧
          h' !! _params self = Some (ODict (dict_set params key c)) ∧
          (∀ n, snapshot n h' c = snapshot n h d) ∧
          (∀ a, reachable h' c a → length h ≤ a) ∧
          (∀ l, l < length h → l ≠ _params self → h' !! l = h !! l)
    | None => __getitem__ GlobalDefaults self key h = (inl KeyError, h)
    end).
  { intros Hv. destruct (dict_get defaults key) as [d|] eqn:Hd.
    - destruct (getitem_default GlobalDefaults self key d h params defaults
                  Hclosed Hp HG Hv Hd)
        as (c & h1 & h2 & m1 & m2 & c1 & Hs1 & -> & Hcov1 & Hs2 & -> & Hcov2 &
            Hvd & Hvc1 & Hnew & Hrun).
      pose proof (cs_length _ _ _ Hs1) as Hlen1.
      pose proof (cs_length _ _ _ Hs2) as Hlen2.
      pose proof (lookup_lt_Some _ _ _ Hp) as Hlt. simpl in *.
      pose proof (copy_state_closed h h1 ∅ m1 Hclosed Hs1) as Hclosed1.
      set (c := rename m2 (rename m1 d)) in *.
      set (h' := <[_params self := ODict (dict_set params key c)]> h2).
      assert (Hagree : ∀ l, length h1 ≤ l → h' !! l = h2 !! l).
      { intros l Hl. unfold h'. rewrite list_lookup_insert_ne; [done|lia]. }
      exists c, h'. split_and!; [done| | | |].
      + unfold h'. rewrite list_lookup_insert_eq; [done|lia].
      + intros n.
        rewrite (snapshot_new h1 h2 h' ∅ m2 Hs2 Hagree n c Hnew).
        unfold c. rewrite (snapshot_copy h1 h2 m2 Hclosed1 Hs2 n _ Hvc1 Hcov2).
        apply (snapshot_copy h h1 m1 Hclosed Hs1 n d Hvd Hcov1).
      + intros a Hr.
        assert (length h1 ≤ a < length h2) as [? _]; [|lia].
        apply (reachable_in (λ l, length h1 ≤ l < length h2) h' c a);
          [|done..].
        intros l o [Hl ?]. rewrite Hagree by done.
        apply (cs_new _ _ _ Hs2 l o Hl).
      + intros l Hl Hne. unfold h'. rewrite list_lookup_insert_ne by done.
        rewrite <-(cs_old _ _ _ Hs1). simpl.
        rewrite lookup_take_lt by done.
        rewrite <-(cs_old _ _ _ Hs2). simpl.
        rewrite lookup_take_lt by lia. done.
    - by apply (getitem_missing GlobalDefaults self key h params defaults). }
  split; [exact Hcase|]. split.
  - intros [h' Herr].
    destruct (dict_get params key) as [v|] eqn:Hv.
    { rewrite (getitem_local GlobalDefaults self key v h params Hp Hv) in Herr.
      done. }
    split; [done|]. specialize (Hcase eq_refl).
    destruct (dict_get defaults key) as [d|]; [|done].
    destruct Hcase as (c & h1 & Hrun & _). rewrite Hrun in Herr. done.
  - intros [Hv Hd]. exists h.
    by apply (getitem_missing GlobalDefaults self key h params defaults).
Qed.

Lemma closed_heap0 : closed heap0.
Proof.
  intros l o Ho. destruct l as [|[|[|l]]]; simpl in Ho; try done;
    injection Ho as <-; simpl; repeat constructor.
Qed.

Lemma getitem_global_defaults_witness :
  ∃ c h',
    __getitem__ 1 provider0 "save_at" heap0 = (inr c, h') ∧
    h' !! 0 = Some (ODict (dict_set [("dt"%string, VInt 1)] "save_at" c)) ∧
    (∀ n, snapshot n h' c = snapshot n heap0 (VRef 2)) ∧
    (∀ a, reachable h' c a → 3 ≤ a) ∧
    (∀ l, l < 3 → l ≠ 0 → h' !! l = heap0 !! l).
Proof.
  exact (proj1 (getitem_global_defaults 1 provider0 "save_at" heap0
                  [("dt"%string, VInt 1)] [("save_at"%string, VRef 2)]
                  closed_heap0 eq_refl eq_refl) eq_refl).
Defined.

(** C10. The provider keeps copies. After [provider[key] = value], the
    provider returns for the key a value that shows what [value] showed at
    the assignment, whatever is done afterwards to the objects [value]
    leads to (the dict of the provider not being one of them) and whatever
    objects are created afterwards: the later heap [h2] need only agree
    with the heap after the assignment on the objects of that heap that
    [value] does not lead to. The dict that [get_parameters] returns shows
    the stored parameters and leads to new objects only, and whatever is
    done to these objects, new objects created or not, leaves the stored
    parameters as they are. *)
Theorem provider_isolation (GlobalDefaults : addr) (self : ParameterProvider)
  (h : heap) (params : list (string * value)) :
  closed h →
  h !! _params self = Some (ODict params) →
  (∀ key v, valid_value (length h) v → ¬ reachable h v (_params self) →
     ∃ c h1,
       __setitem__ self key v h = (inr tt, h1) ∧
       __getitem__ GlobalDefaults self key h1 = (inr c, h1) ∧
       (∀ n, snapshot n h1 c = snapshot n h v) ∧
       ∀ h2, (∀ l, l < length h1 → ¬ reachable h v l → h2 !! l = h1 !! l) →
         __getitem__ GlobalDefaults self key h2 = (inr c, h2) ∧
         ∀ n, snapshot n h2 c = snapshot n h v) ∧
  (∃ r h1,
     get_parameters self h = (inr r, h1) ∧
     (∀ n, snapshot n h1 r = snapshot n h (VRef (_params self))) ∧
     (∀ a, reachable h1 r a → length h ≤ a) ∧
     ∀ h2, (∀ l, l < length h1 → ¬ reachable h1 r l → h2 !! l = h1 !! l) →
       h2 !! _params self = Some (ODict params) ∧
       ∀ n, snapshot n h2 (VRef (_params self)) =
            snapshot n h (VRef (_params self))).
Proof.
  intros Hclosed Hp. pose proof (lookup_lt_Some _ _ _ Hp) as Hlt. split.
  - intros key v Hv Hnr.
    destruct (setitem_ok self key v h params Hclosed Hp Hv)
      as (c & m & h' & Hs & -> & Hcov & Hnew & Hset).
    pose proof (cs_length _ _ _ Hs) as Hlen. simpl in Hlen.
    set (c := rename m v) in *.
    set (h1 := <[_params self := ODict (dict_set params key c)]> h') in *.
    assert (Hp1 : h1 !! _params self = Some (ODict (dict_set params key c))).
    { unfold h1. rewrite list_lookup_insert_eq; [done|lia]. }
    assert (Hagree : ∀ l, length h ≤ l → h1 !! l = h' !! l).
    { intros l Hl. unfold h1. rewrite list_lookup_insert_ne; [done|lia]. }
    assert (Hshow : ∀ n, snapshot n h1 c = snapshot n h v).
    { intros n. rewrite (snapshot_new h h' h1 ∅ m Hs Hagree n c Hnew).
      apply (snapshot_copy h h' m Hclosed Hs n v Hv Hcov). }
    exists c, h1. split_and!; [done| |done|].
    + apply (getitem_local GlobalDefaults self key c h1 _ Hp1).
      apply dict_get_set_eq.
    + intros h2 Hh2. split.
      * apply (getitem_local GlobalDefaults self key c h2
                 (dict_set params key c)); [|apply dict_get_set_eq].
        rewrite Hh2; [done| |done]. unfold h1. rewrite length_insert. lia.
      * intros n. rewrite <-Hshow.
        assert (Hagree2 : ∀ l, length h ≤ l < length h' → h2 !! l = h' !! l).
        { intros l [Hl Hl']. rewrite Hh2; [by apply Hagree| |].
          - unfold h1. by rewrite length_insert.
          - intros Hr. apply (reachable_old h v l Hclosed Hv) in Hr. lia. }
        rewrite (snapshot_new_region h h' h2 ∅ m Hs Hagree2 n c Hnew).
        by rewrite (snapshot_new h h' h1 ∅ m Hs Hagree n c Hnew).
  - destruct (deepcopy_ok h (VRef (_params self)) Hclosed Hlt)
      as (r & m & h1 & Hr & Hs & -> & Hcov & Hnew).
    exists (rename m (VRef (_params self))), h1. split_and!; [done| | |].
    + intros n.
      apply (snapshot_copy h h1 m Hclosed Hs n (VRef (_params self)) Hlt Hcov).
    + intros a. apply (reachable_new h h1 ∅ m _ a Hs Hnew).
    + intros h2 Hh2.
      assert (Hold : ∀ l, l < length h → h2 !! l = h !! l).
      { intros l Hl. pose proof (cs_length _ _ _ Hs) as Hlen. simpl in Hlen.
        rewrite Hh2.
        - rewrite <-(cs_old _ _ _ Hs). simpl. by rewrite lookup_take_lt.
        - lia.
        - intros Hreach. apply (reachable_new h h1 ∅ m _ l Hs Hnew) in Hreach.
          lia. }
      split; [by rewrite Hold|].
      intros n. by apply (snapshot_old h h2 Hclosed Hold).
Qed.

Lemma provider_isolation_witness :
  ∃ r h1,
    get_parameters provider0 heap0 = (inr r, h1) ∧
    (∀ n, snapshot n h1 r = snapshot n heap0 (VRef 0)) ∧
    (∀ a, reachable h1 r a → 3 ≤ a) ∧
    ∀ h2, (∀ l, l < length h1 → ¬ reachable h1 r l → h2 !! l = h1 !! l) →
      h2 !! 0 = Some (ODict [("dt"%string, VInt 1)]) ∧
      ∀ n, snapshot n h2 (VRef 0) = snapshot n heap0 (VRef 0).
Proof.
  exact (proj2 (provider_isolation 1 provider0 heap0 [("dt"%string, VInt 1)]
                  closed_heap0 eq_refl)).
Defined.


(** * Further properties of the code *)

(** ** Numbers in names *)

Lemma digit_of_pretty_N_char (d : N) :
  (d < 10)%N → digit_of (pretty_N_char d) = Some (Z.of_N d).
Proof.
  intros Hd.
  assert (d = 0 ∨ d = 1 ∨ d = 2 ∨ d = 3 ∨ d = 4 ∨ d = 5 ∨ d = 6 ∨ d = 7
          ∨ d = 8 ∨ d = 9)%N as H by lia.
  repeat (destruct H as [->|H]; [reflexivity|]). by subst.
Qed.

Lemma is_digit_pretty_N_char (d : N) : is_digit (pretty_N_char d) = true.
Proof.
  unfold pretty_N_char.
  repeat (match goal with |- context [match ?x with _ => _ end] =>
            destruct x; try reflexivity end).
Qed.

Lemma pretty_N_go_digits (x : N) (s : string) :
  all_chars is_digit s = true → all_chars is_digit (pretty_N_go x s) = true.
Proof.
  revert s. induction (N.lt_wf_0 x) as [x _ IH]. intros s Hs.
  assert (x = 0 ∨ 0 < x)%N as [->|Hx] by lia.
  - by rewrite pretty_N_go_0.
  - rewrite pretty_N_go_step by done. apply IH.
    + by apply N.div_lt.
    + simpl. by rewrite is_digit_pretty_N_char.
Qed.

(** Reading the digits that [str] wrote for [x] appends them to the number
    read so far. *)
Lemma digits_go_pretty_N_go (x : N) :
  ∃ k : Z, (0 ≤ k)%Z ∧ ∀ prev acc s,
    digits_go prev acc (pretty_N_go x s) =
    digits_go (prev || bool_decide (0 < x)%N) (acc * 10 ^ k + Z.of_N x) s.
Proof.
  induction (N.lt_wf_0 x) as [x _ IH].
  assert (x = 0 ∨ 0 < x)%N as [->|Hx] by lia.
  - exists 0%Z. split; [done|]. intros prev acc s.
    rewrite pretty_N_go_0, orb_false_r. f_equal. simpl. lia.
  - destruct (IH (x `div` 10)%N) as (k & Hk & Hgo); [by apply N.div_lt|].
    exists (Z.succ k). split; [lia|]. intros prev acc s.
    rewrite pretty_N_go_step, Hgo by done. simpl.
    rewrite digit_of_pretty_N_char by (by apply N.mod_lt).
    rewrite bool_decide_eq_true_2 by done. rewrite orb_true_r. f_equal.
    rewrite Z.pow_succ_r by done.
    pose proof (N.div_mod x 10) as Hdm.
    replace (acc * (10 * 10 ^ k))%Z with (10 * (acc * 10 ^ k))%Z by ring.
    lia.
Qed.

Lemma is_digit_not_space (c : ascii) : is_digit c = true → is_space c = false.
Proof.
  unfold is_digit, digit_of, is_space. intros H.
  apply bool_decide_eq_true in H. case_bool_decide as Hc; [|by destruct H].
  clear H. repeat apply orb_false_intro;
    [apply andb_false_intro2; apply N.leb_gt; lia|apply N.eqb_neq; lia..].
Qed.

Lemma lstrip_id (s : string) (c : ascii) :
  is_space c = false → lstrip (String c s) = String c s.
Proof. intros H. simpl. by rewrite H. Qed.

Lemma rstrip_digits (s : string) :
  all_chars is_digit s = true → rstrip s = s.
Proof.
  induction s as [|c s IH]; [done|]. simpl. intros [Hc Hs]%andb_true_iff.
  rewrite IH by done. destruct s; [|done].
  by rewrite is_digit_not_space.
Qed.

Lemma rstrip_cons (c : ascii) (s : string) :
  rstrip s ≠ EmptyString → rstrip (String c s) = String c (rstrip s).
Proof. simpl. by destruct (rstrip s). Qed.

(** [int(str(z)) = z] *)
Lemma int_of_string_pretty (z : Z) : int_of_string (pretty z) = Some z.
Proof.
  assert (Hpos : ∀ p : positive, ∃ c r,
            pretty_N_go (N.pos p) "" = String c r ∧
            all_chars is_digit (String c r) = true ∧
            digits_go false 0 (String c r) = Some (Z.pos p)).
  { intros p. destruct (digits_go_pretty_N_go (N.pos p)) as (k & _ & Hgo).
    specialize (Hgo false 0%Z ""%string).
    pose proof (pretty_N_go_digits (N.pos p) "" eq_refl) as Hd.
    rewrite bool_decide_eq_true_2 in Hgo by done. simpl in Hgo.
    destruct (pretty_N_go (N.pos p) "") as [|c r]; [done|].
    exists c, r. split_and!; [done..|]. by rewrite Hgo. }
  destruct z as [|p|p].
  - reflexivity.
  - destruct (Hpos p) as (c & r & Hs & Hd & Hgo).
    change (pretty (Z.pos p)) with (pretty_N_go (N.pos p) ""). rewrite Hs.
    unfold int_of_string. pose proof Hd as [Hc Hr]%andb_true_iff.
    rewrite lstrip_id by (by apply is_digit_not_space).
    rewrite rstrip_digits by done.
    rewrite !bool_decide_eq_false_2; [done|intros ->; by vm_compute in Hc..].
  - destruct (Hpos p) as (c & r & Hs & Hd & Hgo).
    change (pretty (Z.neg p)) with (String "-" (pretty_N_go (N.pos p) "")).
    rewrite Hs. unfold int_of_string. rewrite lstrip_id by done.
    rewrite rstrip_cons by (by rewrite rstrip_digits).
    rewrite rstrip_digits by done.
    rewrite bool_decide_eq_true_2 by done. by rewrite Hgo.
Qed.


(** ** Paths of the result file *)

Lemma all_chars_impl (P Q : ascii → bool) (s : string) :
  (∀ c, P c = true → Q c = true) →
  all_chars P s = true → all_chars Q s = true.
Proof.
  intros HPQ. induction s as [|c s IH]; [done|]. simpl.
  intros [Hc Hs]%andb_true_iff. by rewrite HPQ, IH.
Qed.

Lemma pretty_Z_no_slash (z : Z) :
  all_chars (λ c, negb (bool_decide (c = "/"%char))) (pretty z) = true.
Proof.
  assert (Hd : ∀ c, is_digit c = true → negb (bool_decide (c = "/"%char)) = true).
  { intros c Hc. rewrite bool_decide_eq_false_2; [done|].
    intros ->. by vm_compute in Hc. }
  destruct z as [|p|p]; [done|..].
  - change (pretty (Z.pos p)) with (pretty_N_go (N.pos p) "").
    apply (all_chars_impl is_digit); [done|]. by apply pretty_N_go_digits.
  - change (pretty (Z.neg p)) with (String "-" (pretty_N_go (N.pos p) "")).
    simpl. apply (all_chars_impl is_digit); [done|]. by apply pretty_N_go_digits.
Qed.

(** Two paths that agree up to their first slash. *)
Lemma app_slash_inj (s1 s2 t1 t2 : string) :
  all_chars (λ c, negb (bool_decide (c = "/"%char))) s1 = true →
  all_chars (λ c, negb (bool_decide (c = "/"%char))) s2 = true →
  s1 +:+ String "/" t1 = s2 +:+ String "/" t2 → s1 = s2 ∧ t1 = t2.
Proof.
  revert s2. induction s1 as [|c s1 IH]; intros [|c' s2]; simpl.
  - intros _ _ [= ->]. done.
  - intros _ [Hc _]%andb_true_iff [= <- _]. done.
  - intros [Hc _]%andb_true_iff _ [= -> _]. done.
  - intros [_ H1]%andb_true_iff [_ H2]%andb_true_iff [= -> H].
    destruct (IH s2 H1 H2 H) as [-> ->]. done.
Qed.

Lemma path_block_inj (_prefixb : string) (b b' : Z) (t t' : string) :
  "/" +:+ _prefixb +:+ pretty b +:+ String "/" t =
  "/" +:+ _prefixb +:+ pretty b' +:+ String "/" t' → b = b' ∧ t = t'.
Proof.
  intros H. simpl in H. injection H as H. do 2 apply String.app_inj in H.
  apply app_slash_inj in H as [H ->]; [|apply pretty_Z_no_slash..].
  split; [|done]. by apply pretty_Z_inj in H.
Qed.

(** ** The stored basis shapes *)

Section iom_more.

Context {attr : Type} (save : dvalue → attr) (load : attr → dvalue).
Context (builtin_hash : string * list Z → Z).

Lemma list_find_snd_cons {A : Type} (P : A → Prop) `{∀ x, Decision (P x)}
  (x : A) (l : list A) :
  snd <$> list_find P (x :: l) =
  if decide (P x) then Some x else snd <$> list_find P l.
Proof. simpl. case_decide; [done|]. by destruct (list_find P l) as [[]|]. Qed.

(** The group after the loop over the shapes: what was there stays, and a
    name that was free holds the data set of the first shape of that name. *)
Lemma save_loop_group (pathd : string) (Ks : list BasisShapeObject)
  (σ : srf attr) (grp : group attr) :
  σ !! pathd = Some grp →
  ∃ grp1,
    for_each Ks (save_basisshapes_at save pathd) σ =
      (inr tt, <[pathd := grp1]> σ) ∧
    (∀ name ds, grp !! name = Some ds → grp1 !! name = Some ds) ∧
    (∀ name, grp !! name = None →
       grp1 !! name =
       shape_dataset save <$>
         (snd <$> list_find (λ K, shape_name K = name) Ks)).
Proof.
  revert σ grp. induction Ks as [|K Ks IH]; intros σ grp Hσ.
  - exists grp. split_and!; [|done|done].
    simpl. unfold ret. by rewrite insert_id.
  - destruct (grp !! shape_name K) as [ds|] eqn:Hds.
    + destruct (IH σ grp Hσ) as (grp1 & Hrun & Hkeep & Hnew).
      exists grp1. split_and!; [|done|].
      * simpl. unfold bind at 1.
        by rewrite (save_basisshapes_at_known save pathd K σ grp) by eauto.
      * intros name Hname. rewrite list_find_snd_cons.
        rewrite decide_False by (intros <-; congruence). by apply Hnew.
    + set (grp' := <[shape_name K := shape_dataset save K]> grp).
      destruct (IH (<[pathd := grp']> σ) grp') as (grp1 & Hrun & Hkeep & Hnew);
        [by rewrite lookup_insert_eq|].
      exists grp1. split_and!.
      * simpl. unfold bind at 1.
        rewrite (save_basisshapes_at_new save pathd K σ grp) by done.
        fold grp'. by rewrite Hrun, insert_insert_eq.
      * intros name ds Hname. apply Hkeep. unfold grp'.
        rewrite lookup_insert_ne; [done|]. intros <-. congruence.
      * intros name Hname. rewrite list_find_snd_cons.
        destruct (decide (shape_name K = name)) as [<-|Hne].
        -- simpl. apply Hkeep. unfold grp'. by rewrite lookup_insert_eq.
        -- apply Hnew. unfold grp'. by rewrite lookup_insert_ne.
Qed.

(** The loop of [load_wavepacket] over hashes whose data sets hold the
    descriptions of the shapes [Ks']. *)
Lemma load_basis_shapes_stored (_prefixb : string) (blockid : Z)
  (lims lims' : list (list Z)) (σ : srf attr) (grp : group attr) :
  (∀ v, load (save v) = v) →
  σ !! ("/" +:+ _prefixb +:+ pretty blockid +:+ "/wavepacket/basisshapes/")
    = Some grp →
  Forall2 (λ lim lim',
             grp !! shape_name (HyperCubicShape builtin_hash lim) =
             Some (shape_dataset save (HyperCubicShape builtin_hash lim')))
    lims lims' →
  load_basis_shapes load builtin_hash _prefixb
    (hash <$> (HyperCubicShape builtin_hash <$> lims)) blockid σ =
  (inr (HyperCubicShape builtin_hash <$> lims'), σ).
Proof.
  intros Hls Hσ Hall. induction Hall as [|lim lim' lims lims' Hds _ IH]; [done|].
  simpl. erewrite bind_ok; cycle 1.
  { apply (load_wavepacket_basisshapes_ok load _ _
             (HyperCubicShape builtin_hash lim) σ grp _ Hσ Hds). }
  simpl. rewrite <-map_fmap_compose.
  rewrite (map_fmap_ext (load ∘ save) Datatypes.id) by (intros; apply Hls).
  rewrite map_fmap_id.
  erewrite bind_ok; cycle 1.
  { by rewrite create_basis_shape_description. }
  erewrite bind_ok; [|exact IH]. done.
Qed.

Lemma load_wavepacket_basisshapes_run (_prefixb : string) (the_hash blockid : Z)
  (σ : srf attr) (grp : group attr) :
  σ !! ("/" +:+ _prefixb +:+ pretty blockid +:+ "/wavepacket/basisshapes/")
    = Some grp →
  load_wavepacket_basisshapes load _prefixb the_hash blockid σ =
  (match grp !! ("basis_shape_" +:+ pretty the_hash) with
   | Some ds => inr (load <$> ds_attrs ds)
   | None => inl IndexError
   end, σ).
Proof.
  intros Hσ. unfold load_wavepacket_basisshapes.
  rewrite (bind_ok _ _ σ σ grp) by (unfold get_group; by rewrite Hσ).
  by destruct (grp !! _).
Qed.

(** X1. The shapes of a packet that [save_wavepacket] writes in its loop are
    the ones that the loop of [load_wavepacket] rebuilds from their hashes,
    in the same order: the names of the shapes being free in the group, and
    no two different shapes of the packet having the same hash. The same
    shape may occur for several components. *)
Theorem save_load_basis_shapes (_prefixb : string) (blockid : Z)
  (lims : list (list Z)) (σ : srf attr) (grp : group attr) :
  (∀ v, load (save v) = v) →
  σ !! ("/" +:+ _prefixb +:+ pretty blockid +:+ "/wavepacket/basisshapes/")
    = Some grp →
  (∀ lim, lim ∈ lims →
     grp !! shape_name (HyperCubicShape builtin_hash lim) = None) →
  (∀ l1 l2, l1 ∈ lims → l2 ∈ lims →
     hash (HyperCubicShape builtin_hash l1) =
     hash (HyperCubicShape builtin_hash l2) → l1 = l2) →
  ∃ σ1,
    save_basis_shapes save _prefixb (HyperCubicShape builtin_hash <$> lims)
      blockid σ = (inr tt, σ1) ∧
    load_basis_shapes load builtin_hash _prefixb
      (hash <$> (HyperCubicShape builtin_hash <$> lims)) blockid σ1 =
    (inr (HyperCubicShape builtin_hash <$> lims), σ1).
Proof.
  intros Hls Hσ Hfresh Hinj.
  destruct (save_loop_group _ (HyperCubicShape builtin_hash <$> lims) σ grp Hσ)
    as (grp1 & Hrun & Hkeep & Hnew).
  eexists. split; [exact Hrun|].
  apply (load_basis_shapes_stored _ _ lims lims _ grp1 Hls);
    [by rewrite lookup_insert_eq|].
  apply Forall_Forall2_diag, Forall_forall. intros lim Hlim.
  rewrite (Hnew _ (Hfresh lim Hlim)).
  destruct (list_find_elem_of
              (λ K, shape_name K = shape_name (HyperCubicShape builtin_hash lim))
              (HyperCubicShape builtin_hash <$> lims)
              (HyperCubicShape builtin_hash lim)) as [[i K'] Hfind];
    [by apply list_elem_of_fmap_2|done|].
  rewrite Hfind. simpl.
  apply list_find_Some in Hfind as (Hi & Hname & _).
  apply list_elem_of_lookup_2, list_elem_of_fmap in Hi as (lim' & -> & Hlim').
  apply shape_name_inj in Hname. by rewrite (Hinj lim' lim Hlim' Hlim Hname).
Qed.

(** X2. Two different shapes of equal hash cannot both be stored: the
    second save is dropped, and the load by the hash of the second shape
    rebuilds the first shape. *)
Theorem hash_collision_loads_first (_prefixb : string) (blockid : Z)
  (lim1 lim2 : list Z) (σ : srf attr) (grp : group attr) :
  (∀ v, load (save v) = v) →
  σ !! ("/" +:+ _prefixb +:+ pretty blockid +:+ "/wavepacket/basisshapes/")
    = Some grp →
  grp !! shape_name (HyperCubicShape builtin_hash lim1) = None →
  hash (HyperCubicShape builtin_hash lim2) =
  hash (HyperCubicShape builtin_hash lim1) →
  ∃ σ1,
    save_basis_shapes save _prefixb
      [HyperCubicShape builtin_hash lim1; HyperCubicShape builtin_hash lim2]
      blockid σ = (inr tt, σ1) ∧
    load_basis_shapes load builtin_hash _prefixb
      [hash (HyperCubicShape builtin_hash lim2)] blockid σ1 =
    (inr [HyperCubicShape builtin_hash lim1], σ1).
Proof.
  intros Hls Hσ Hfresh Hhash.
  set (K1 := HyperCubicShape builtin_hash lim1) in *.
  set (K2 := HyperCubicShape builtin_hash lim2) in *.
  destruct (save_loop_group _ [K1; K2] σ grp Hσ) as (grp1 & Hrun & Hkeep & Hnew).
  eexists. split; [exact Hrun|].
  apply (load_basis_shapes_stored _ _ [lim2] [lim1] _ grp1 Hls);
    [by rewrite lookup_insert_eq|].
  apply Forall2_cons; split; [|done]. fold K1 K2.
  assert (shape_name K2 = shape_name K1) as -> by (by apply shape_name_inj).
  rewrite (Hnew _ Hfresh), list_find_snd_cons. by rewrite decide_True.
Qed.

(** X3. After the save loop on an empty group the load by hash returns a
    description for the hashes of the saved shapes and raises IndexError for
    every other hash; the load leaves the file as it is. *)
Theorem load_basisshapes_stored_hashes (_prefixb : string) (blockid : Z)
  (Ks : list BasisShapeObject) (σ : srf attr) :
  σ !! ("/" +:+ _prefixb +:+ pretty blockid +:+ "/wavepacket/basisshapes/")
    = Some ∅ →
  ∃ σ1,
    save_basis_shapes save _prefixb Ks blockid σ = (inr tt, σ1) ∧
    ∀ h, if decide (h ∈ hash <$> Ks)
         then ∃ d, load_wavepacket_basisshapes load _prefixb h blockid σ1 =
                   (inr d, σ1)
         else load_wavepacket_basisshapes load _prefixb h blockid σ1 =
              (inl IndexError, σ1).
Proof.
  intros Hσ.
  destruct (save_loop_group _ Ks σ ∅ Hσ) as (grp1 & Hrun & Hkeep & Hnew).
  eexists. split; [exact Hrun|]. intros h.
  rewrite (load_wavepacket_basisshapes_run _ _ _ _ grp1)
    by (by rewrite lookup_insert_eq).
  rewrite (Hnew _ (lookup_empty _)).
  destruct (decide (h ∈ hash <$> Ks)) as [Hin|Hout].
  - apply list_elem_of_fmap in Hin as (K & -> & HK).
    destruct (list_find_elem_of
                (λ K', shape_name K' = "basis_shape_" +:+ pretty (hash K)) Ks K)
      as [[i K'] ->]; [done..|]. simpl. eauto.
  - destruct (list_find _ Ks) as [[i K']|] eqn:Hfind; [|done].
    apply list_find_Some in Hfind as (Hi & Hname & _).
    destruct Hout. apply list_elem_of_fmap. exists K'. split.
    + apply String.app_inj in Hname. by apply pretty_Z_inj in Hname.
    + by eapply list_elem_of_lookup_2.
Qed.

(** X4. The number in the name of a stored shape is its hash: what
    [load_wavepacket_basisshapes] reads with [int(ahash[12:])] off the name
    that [save_wavepacket_basisshapes] built with
    ["basis_shape_" + str(ha)]. *)
Theorem shape_name_decode (K : BasisShapeObject) :
  int_of_string (string_drop 12 (shape_name K)) = Some (hash K).
Proof.
  change (string_drop 12 (shape_name K)) with (pretty (hash K)).
  apply int_of_string_pretty.
Qed.

Lemma load_descriptions_canonical (grp : group attr) (names : list string)
  (acc : gmap Z description) (σ : srf attr) :
  (∀ name, name ∈ names →
     ∃ h : Z, name = "basis_shape_" +:+ pretty h ∧ is_Some (grp !! name)) →
  ∃ r, load_descriptions load grp names acc σ = (inr r, σ) ∧
    ∀ h : Z, r !! h =
         if decide ("basis_shape_" +:+ pretty h ∈ names)
         then (λ ds, load <$> ds_attrs ds) <$>
              grp !! ("basis_shape_" +:+ pretty h)
         else acc !! h.
Proof.
  revert acc. induction names as [|a names IH]; intros acc Hnames.
  - exists acc. split; [done|]. intros h. rewrite decide_False; [done|].
    by intros ?%elem_of_nil.
  - destruct (Hnames a) as (h0 & -> & [ds Hds]); [by left|].
    destruct (IH (<[h0 := load <$> ds_attrs ds]> acc)) as (r & Hrun & Hr).
    { intros name Hname. apply Hnames. by right. }
    exists r. split.
    + cbn [load_descriptions].
      rewrite (bind_ok _ _ σ σ ds) by (by rewrite Hds).
      change (string_drop 12 ("basis_shape_" +:+ pretty h0)) with (pretty h0).
      rewrite int_of_string_pretty. exact Hrun.
    + intros h. rewrite Hr.
      destruct (decide (h = h0)) as [->|Hne].
      * rewrite (decide_True (P := _ ∈ _ :: _)) by (by left).
        case_decide; [done|]. by rewrite lookup_insert_eq, Hds.
      * rewrite lookup_insert_ne by done.
        destruct (decide (_ ∈ names)) as [Hin|Hout].
        -- by rewrite decide_True by (by right).
        -- rewrite decide_False; [done|].
           intros [Heq|?]%elem_of_cons; [|done].
           apply String.app_inj in Heq. by apply pretty_Z_inj in Heq.
Qed.

Lemma load_basisshapes_run (inhomog : bool) (_prefixb : string)
  (the_hash blockid : Z) (σ : srf attr) (grp : group attr) :
  σ !! ("/" +:+ _prefixb +:+ pretty blockid +:+
        (if inhomog then "/wavepacket_inhomog/basisshapes/"
         else "/wavepacket/basisshapes/")) = Some grp →
  (if inhomog
   then load_inhomogwavepacket_basisshapes load _prefixb the_hash blockid
   else load_wavepacket_basisshapes load _prefixb the_hash blockid) σ =
  (match grp !! ("basis_shape_" +:+ pretty the_hash) with
   | Some ds => inr (load <$> ds_attrs ds)
   | None => inl IndexError
   end, σ).
Proof.
  intros Hσ.
  destruct inhomog;
    [unfold load_inhomogwavepacket_basisshapes
    |unfold load_wavepacket_basisshapes];
    (rewrite (bind_ok _ _ σ σ grp) by (unfold get_group; by rewrite Hσ));
    by destruct (grp !! _).
Qed.

(** X5. The two branches of [load_wavepacket_basisshapes], and of
    [load_inhomogwavepacket_basisshapes], agree on a group whose members
    all carry names of the form ["basis_shape_" + str(h)]: the dict returned
    without a hash holds under [h] the description that the load by the
    hash [h] returns, and lacks the hashes for which that load raises
    IndexError. The order in which the names are listed does not matter. *)
Theorem load_basisshapes_branches_agree (keys : group attr → list string)
  (inhomog : bool) (_prefixb : string) (blockid : Z) (σ : srf attr)
  (grp : group attr) :
  σ !! ("/" +:+ _prefixb +:+ pretty blockid +:+
        (if inhomog then "/wavepacket_inhomog/basisshapes/"
         else "/wavepacket/basisshapes/")) = Some grp →
  (∀ name, name ∈ keys grp ↔ is_Some (grp !! name)) →
  (∀ name, is_Some (grp !! name) →
     ∃ h : Z, name = "basis_shape_" +:+ pretty h) →
  ∃ descrs,
    (if inhomog
     then load_inhomogwavepacket_basisshapes_all load keys _prefixb blockid
     else load_wavepacket_basisshapes_all load keys _prefixb blockid) σ =
      (inr descrs, σ) ∧
    ∀ h,
      (if inhomog
       then load_inhomogwavepacket_basisshapes load _prefixb h blockid
       else load_wavepacket_basisshapes load _prefixb h blockid) σ =
      (match descrs !! h with
       | Some d => inr d
       | None => inl IndexError
       end, σ).
Proof.
  intros Hσ Hkeys Hcan.
  destruct (load_descriptions_canonical grp (keys grp) ∅ σ) as (r & Hrun & Hr).
  { intros name Hname%Hkeys. destruct (Hcan name Hname) as [h ->]. eauto. }
  exists r. split.
  - destruct inhomog;
      [unfold load_inhomogwavepacket_basisshapes_all
      |unfold load_wavepacket_basisshapes_all];
      unfold load_all_basisshapes_at;
      by rewrite (bind_ok _ _ σ σ grp) by (unfold get_group; by rewrite Hσ).
  - intros h. rewrite (load_basisshapes_run inhomog _ _ _ _ grp Hσ), Hr.
    case_decide as Hin.
    + by destruct (grp !! _).
    + rewrite lookup_empty. destruct (grp !! _) eqn:Hds; [|done].
      destruct Hin. apply Hkeys. by rewrite Hds.
Qed.

Lemma load_descriptions_foreign (grp : group attr) (names : list string)
  (acc : gmap Z description) (σ : srf attr) (name : string) :
  (∀ n, n ∈ names → is_Some (grp !! n)) →
  name ∈ names → int_of_string (string_drop 12 name) = None →
  load_descriptions load grp names acc σ = (inl ValueError, σ).
Proof.
  revert acc. induction names as [|a names IH]; intros acc Hnames Hin Hbad.
  - by apply elem_of_nil in Hin.
  - destruct (Hnames a) as [ds Hds]; [by left|].
    cbn [load_descriptions]. rewrite (bind_ok _ _ σ σ ds) by (by rewrite Hds).
    destruct (int_of_string (string_drop 12 a)) as [n|] eqn:Hn.
    + rewrite (bind_ok _ _ σ σ n) by reflexivity.
      apply IH; [| |done].
      * intros n' Hn'. apply Hnames. by right.
      * apply elem_of_cons in Hin as [->|?]; [congruence|done].
    + done.
Qed.

(** X6. A member of the group whose name, of ASCII characters, does not
    end in a number after its first twelve characters makes the load of all
    descriptions fail with ValueError, whatever else the group holds; the
    file stays as it is. The same holds of both plugins. *)
Theorem load_basisshapes_foreign_member (keys : group attr → list string)
  (inhomog : bool) (_prefixb : string) (blockid : Z) (σ : srf attr)
  (grp : group attr) (name : string) :
  σ !! ("/" +:+ _prefixb +:+ pretty blockid +:+
        (if inhomog then "/wavepacket_inhomog/basisshapes/"
         else "/wavepacket/basisshapes/")) = Some grp →
  (∀ n, n ∈ keys grp ↔ is_Some (grp !! n)) →
  is_Some (grp !! name) →
  all_chars is_ascii name = true →
  int_of_string (string_drop 12 name) = None →
  (if inhomog
   then load_inhomogwavepacket_basisshapes_all load keys _prefixb blockid
   else load_wavepacket_basisshapes_all load keys _prefixb blockid) σ =
  (inl ValueError, σ).
Proof.
  intros Hσ Hkeys Hname _ Hbad.
  destruct inhomog;
    [unfold load_inhomogwavepacket_basisshapes_all
    |unfold load_wavepacket_basisshapes_all];
    unfold load_all_basisshapes_at;
    (rewrite (bind_ok _ _ σ σ grp) by (unfold get_group; by rewrite Hσ));
    (apply (load_descriptions_foreign grp (keys grp) ∅ σ name);
       [|by apply Hkeys|done]);
    intros n; apply Hkeys.
Qed.

(** X7. The basis shapes of the homogeneous packets of one block are stored
    apart: a save there changes neither what the loads of the inhomogeneous
    packets return, for any block, nor what the loads of the homogeneous
    packets of another block return. *)
Theorem save_wavepacket_basisshapes_apart (_prefixb : string) (blockid : Z)
  (K : BasisShapeObject) (σ : srf attr) :
  let σ1 := (save_wavepacket_basisshapes save _prefixb K blockid σ).2 in
  (∀ h b, (load_inhomogwavepacket_basisshapes load _prefixb h b σ1).1 =
          (load_inhomogwavepacket_basisshapes load _prefixb h b σ).1) ∧
  (∀ h b, b ≠ blockid →
          (load_wavepacket_basisshapes load _prefixb h b σ1).1 =
          (load_wavepacket_basisshapes load _prefixb h b σ).1).
Proof.
  intros σ1.
  assert (Hσ1 : ∀ pathd,
            pathd ≠ "/" +:+ _prefixb +:+ pretty blockid +:+
                    "/wavepacket/basisshapes/" →
            σ1 !! pathd = σ !! pathd).
  { intros pathd Hne. unfold σ1, save_wavepacket_basisshapes.
    set (p := "/" +:+ _prefixb +:+ pretty blockid +:+ "/wavepacket/basisshapes/")
      in *.
    destruct (σ !! p) as [grp|] eqn:Hσ.
    - destruct (grp !! shape_name K) as [ds|] eqn:Hds.
      + by rewrite (save_basisshapes_at_known save p K σ grp) by eauto.
      + rewrite (save_basisshapes_at_new save p K σ grp) by done.
        simpl. by rewrite lookup_insert_ne.
    - by rewrite save_basisshapes_at_missing. }
  split.
  - intros h b. unfold load_inhomogwavepacket_basisshapes, get_group.
    unfold mbind, M_bind, bind. rewrite Hσ1.
    + destruct (σ !! _) as [grp|]; [|done]. simpl. unfold ret.
      by destruct (grp !! _).
    + intros Heq. by apply path_block_inj in Heq as [_ ?].
  - intros h b Hb. unfold load_wavepacket_basisshapes, get_group.
    unfold mbind, M_bind, bind. rewrite Hσ1.
    + destruct (σ !! _) as [grp|]; [|done]. simpl. unfold ret.
      by destruct (grp !! _).
    + intros Heq. by apply path_block_inj in Heq as [? _].
Qed.

End iom_more.

(** ** The description of a wavepacket *)

Section description_facts.

Context {val attr : Type} (save : val → attr) (load : attr → val).

Lemma save_description_loop (pathd : string) (l : list (string * val))
  (σ : group_attrs attr) (attrs : gmap string attr) :
  NoDup l.*1 → σ !! pathd = Some attrs →
  for_each l (λ kv, set_attr pathd kv.1 (save kv.2)) σ =
  (inr tt, <[pathd := (save <$> list_to_map l) ∪ attrs]> σ).
Proof.
  revert σ attrs. induction l as [|[k v] l IH]; intros σ attrs Hnd Hσ.
  - simpl. unfold ret. rewrite fmap_empty, (left_id_L ∅ (∪)).
    by rewrite insert_id.
  - apply NoDup_cons in Hnd as [Hk Hnd]. simpl. unfold bind at 1.
    unfold set_attr at 1. rewrite Hσ.
    rewrite (IH _ (<[k := save v]> attrs)) by (by rewrite ?lookup_insert_eq).
    rewrite insert_insert_eq. do 2 f_equal.
    rewrite fmap_insert, <-insert_union_l.
    rewrite <-insert_union_r; [done|].
    rewrite lookup_fmap. by rewrite (not_elem_of_list_to_map_1 l k).
Qed.

(** X8. [save_wavepacket_description] adds to the attributes of the group:
    what [load_wavepacket_description] returns afterwards is the saved
    description, and under the keys that it lacks the attributes that the
    group held before. On a file without the group the save raises KeyError,
    unless the description is empty: then nothing is looked up and the call
    returns. The same holds of the functions of the inhomogeneous
    packets. *)
Theorem wavepacket_description_merge (inhomog : bool) (_prefixb : string)
  (blockid : Z) (descr : gmap string val) (σ : group_attrs attr) :
  (∀ v, load (save v) = v) →
  match σ !! ("/" +:+ _prefixb +:+ pretty blockid +:+
              (if inhomog then "/wavepacket_inhomog" else "/wavepacket")) with
  | Some attrs =>
      ∃ σ1,
        (if inhomog
         then save_inhomogwavepacket_description save _prefixb descr blockid
         else save_wavepacket_description save _prefixb descr blockid) σ =
          (inr tt, σ1) ∧
        (if inhomog
         then load_inhomogwavepacket_description load _prefixb blockid
         else load_wavepacket_description load _prefixb blockid) σ1 =
          (inr (descr ∪ (load <$> attrs)), σ1)
  | None =>
      (if inhomog
       then save_inhomogwavepacket_description save _prefixb descr blockid
       else save_wavepacket_description save _prefixb descr blockid) σ =
      (if decide (descr = ∅) then inr tt else inl KeyError, σ)
  end.
Proof.
  intros Hls.
  assert (Hat : ∀ pathd,
    match σ !! pathd with
    | Some attrs =>
        ∃ σ1, save_description_at save pathd descr σ = (inr tt, σ1) ∧
              load_description_at load pathd σ1 =
                (inr (descr ∪ (load <$> attrs)), σ1)
    | None =>
        save_description_at save pathd descr σ =
        (if decide (descr = ∅) then inr tt else inl KeyError, σ)
    end).
  { intros pathd. destruct (σ !! pathd) as [attrs|] eqn:Hσ.
    - eexists. split.
      + apply (save_description_loop pathd (map_to_list descr) σ attrs);
          [apply NoDup_fst_map_to_list|done].
      + unfold load_description_at. rewrite lookup_insert_eq.
        rewrite list_to_map_to_list, map_fmap_union, <-map_fmap_compose.
        rewrite (map_fmap_ext (load ∘ save) Datatypes.id)
          by (intros; apply Hls).
        by rewrite map_fmap_id.
    - unfold save_description_at. case_decide as Hd.
      + subst. by rewrite map_to_list_empty.
      + destruct (map_to_list descr) as [|kv l] eqn:Hl.
        * by apply map_to_list_empty_iff in Hl.
        * simpl. unfold bind, set_attr. by rewrite Hσ. }
  destruct inhomog; apply Hat.
Qed.

End description_facts.

(** ** Instances *)

Lemma map_keys_spec (grp : group dvalue) (name : string) :
  name ∈ map_keys grp ↔ is_Some (grp !! name).
Proof.
  unfold map_keys. rewrite list_elem_of_fmap. split.
  - intros [[k ds] [-> Hin]]. apply elem_of_map_to_list in Hin. eauto.
  - intros [ds Hds]. exists (name, ds). split; [done|].
    by apply elem_of_map_to_list.
Qed.

Lemma save_load_basis_shapes_witness :
  ∃ σ1,
    save_basis_shapes Datatypes.id "datablock_"
      (HyperCubicShape sum_hash <$> [[2%Z; 3%Z]; [4%Z]; [2%Z; 3%Z]]) 0 file0 =
      (inr tt, σ1) ∧
    load_basis_shapes Datatypes.id sum_hash "datablock_"
      (hash <$> (HyperCubicShape sum_hash <$> [[2%Z; 3%Z]; [4%Z]; [2%Z; 3%Z]]))
      0 σ1 =
    (inr (HyperCubicShape sum_hash <$> [[2%Z; 3%Z]; [4%Z]; [2%Z; 3%Z]]), σ1).
Proof.
  apply (save_load_basis_shapes Datatypes.id Datatypes.id sum_hash "datablock_"
           0 [[2%Z; 3%Z]; [4%Z]; [2%Z; 3%Z]] file0 ∅).
  - reflexivity.
  - vm_compute. reflexivity.
  - intros lim _. apply lookup_empty.
  - intros l1 l2 H1 H2 Hh.
    rewrite !elem_of_cons, elem_of_nil in H1, H2.
    destruct H1 as [->|[->|[->|[]]]], H2 as [->|[->|[->|[]]]];
      first [reflexivity | vm_compute in Hh; discriminate Hh].
Defined.

Lemma hash_collision_loads_first_witness :
  ∃ σ1,
    save_basis_shapes Datatypes.id "datablock_"
      [HyperCubicShape sum_hash [3%Z]; HyperCubicShape sum_hash [1%Z; 2%Z]]
      0 file0 = (inr tt, σ1) ∧
    load_basis_shapes Datatypes.id sum_hash "datablock_"
      [hash (HyperCubicShape sum_hash [1%Z; 2%Z])] 0 σ1 =
    (inr [HyperCubicShape sum_hash [3%Z]], σ1).
Proof.
  apply (hash_collision_loads_first Datatypes.id Datatypes.id sum_hash
           "datablock_" 0 [3%Z] [1%Z; 2%Z] file0 ∅).
  - reflexivity.
  - vm_compute. reflexivity.
  - apply lookup_empty.
  - reflexivity.
Defined.

Lemma load_basisshapes_stored_hashes_witness :
  ∃ σ1,
    save_basis_shapes Datatypes.id "datablock_"
      [HyperCubicShape sum_hash [2%Z; 3%Z]] 0 file0 = (inr tt, σ1) ∧
    ∀ h, if decide (h ∈ hash <$> [HyperCubicShape sum_hash [2%Z; 3%Z]])
         then ∃ d, load_wavepacket_basisshapes Datatypes.id "datablock_" h 0 σ1 =
                   (inr d, σ1)
         else load_wavepacket_basisshapes Datatypes.id "datablock_" h 0 σ1 =
              (inl IndexError, σ1).
Proof.
  apply (load_basisshapes_stored_hashes Datatypes.id Datatypes.id "datablock_"
           0 [HyperCubicShape sum_hash [2%Z; 3%Z]] file0).
  vm_compute. reflexivity.
Defined.

Lemma file5_group :
  file5 !! ("/" +:+ "datablock_" +:+ pretty 0%Z +:+ "/wavepacket/basisshapes/") =
  Some {[ "basis_shape_5"%string :=
            {| ds_data := [5%Z];
               ds_attrs := get_description (HyperCubicShape sum_hash [2%Z; 3%Z]) |} ]}.
Proof. unfold file5. apply lookup_singleton_eq. Qed.

Lemma load_basisshapes_branches_agree_witness :
  ∃ descrs,
    load_wavepacket_basisshapes_all Datatypes.id map_keys "datablock_" 0 file5 =
      (inr descrs, file5) ∧
    ∀ h, load_wavepacket_basisshapes Datatypes.id "datablock_" h 0 file5 =
         (match descrs !! h with
          | Some d => inr d
          | None => inl IndexError
          end, file5).
Proof.
  apply (load_basisshapes_branches_agree Datatypes.id map_keys false
           "datablock_" 0 file5 _ file5_group).
  - apply map_keys_spec.
  - intros name [ds Hds]. apply lookup_singleton_Some in Hds as [<- _].
    by exists 5%Z.
Defined.

Lemma file5_mapping_group :
  file5_mapping !!
    ("/" +:+ "datablock_" +:+ pretty 0%Z +:+ "/wavepacket/basisshapes/") =
  Some {[ "basis_shape_5"%string :=
            {| ds_data := [5%Z];
               ds_attrs := get_description (HyperCubicShape sum_hash [2%Z; 3%Z]) |};
          "mapping"%string := {| ds_data := []; ds_attrs := ∅ |} ]}.
Proof. unfold file5_mapping. apply lookup_singleton_eq. Qed.

Lemma load_basisshapes_foreign_member_witness :
  load_wavepacket_basisshapes_all Datatypes.id map_keys "datablock_" 0
    file5_mapping = (inl ValueError, file5_mapping).
Proof.
  apply (load_basisshapes_foreign_member Datatypes.id map_keys false
           "datablock_" 0 file5_mapping _ "mapping" file5_mapping_group).
  - apply map_keys_spec.
  - rewrite lookup_insert_ne by done. rewrite lookup_singleton_eq. eauto.
  - reflexivity.
  - reflexivity.
Defined.

Lemma wavepacket_description_merge_witness :
  ∃ σ1,
    save_wavepacket_description Datatypes.id "datablock_"
      {[ "eps"%string := DInt 2 ]} 0 attrs0 = (inr tt, σ1) ∧
    load_wavepacket_description Datatypes.id "datablock_" 0 σ1 =
      (inr ({[ "eps"%string := DInt 2 ]} ∪
            (Datatypes.id <$> {[ "type"%string := DStr "HagedornWavepacket";
                                 "eps"%string := DInt 1 ]})), σ1).
Proof.
  exact (wavepacket_description_merge Datatypes.id Datatypes.id false
           "datablock_" 0 {[ "eps"%string := DInt 2 ]} attrs0 (λ v, eq_refl)).
Defined.


(** ** The parameter container: membership, reads and updates *)

Section provider_more.

Context (GlobalDefaults : addr) (self : ParameterProvider).

Lemma contains_run (key : string) (h : heap) (params : list (string * value)) :
  h !! _params self = Some (ODict params) →
  __contains__ self key h =
  (inr (bool_decide (is_Some (dict_get params key))), h).
Proof.
  intros Hp. unfold __contains__.
  by rewrite (bind_ok _ _ h h params) by (by apply load_dict_ok).
Qed.

Lemma get_run (key : string) (d : value) (h : heap)
  (params : list (string * value)) :
  h !! _params self = Some (ODict params) →
  get self key d h =
  (inr (match dict_get params key with Some v => v | None => d end), h).
Proof.
  intros Hp. unfold get.
  by rewrite (bind_ok _ _ h h params) by (by apply load_dict_ok).
Qed.

(** What is in place after a read that returned: the dict of the provider
    holds the value under the key. *)
Lemma getitem_stored (key : string) (h h' : heap) (c : value)
  (params defaults : list (string * value)) :
  closed h →
  h !! _params self = Some (ODict params) →
  h !! GlobalDefaults = Some (ODict defaults) →
  __getitem__ GlobalDefaults self key h = (inr c, h') →
  ∃ params', h' !! _params self = Some (ODict params') ∧
             dict_get params' key = Some c.
Proof.
  intros Hclosed Hp HG Hrun.
  destruct (dict_get params key) as [v|] eqn:Hv.
  - rewrite (getitem_local GlobalDefaults self key v h params Hp Hv) in Hrun.
    injection Hrun as <- <-. eauto.
  - destruct (dict_get defaults key) as [d|] eqn:Hd.
    + destruct (getitem_default GlobalDefaults self key d h params defaults
                  Hclosed Hp HG Hv Hd)
        as (c' & h1 & h2 & m1 & m2 & c1 & Hs1 & _ & _ & Hs2 & _ & _ &
            _ & _ & _ & Hrun').
      rewrite Hrun' in Hrun. injection Hrun as <- <-.
      pose proof (cs_length _ _ _ Hs1) as Hlen1.
      pose proof (cs_length _ _ _ Hs2) as Hlen2.
      pose proof (lookup_lt_Some _ _ _ Hp) as Hlt. simpl in *.
      exists (dict_set params key c'). split; [|apply dict_get_set_eq].
      rewrite list_lookup_insert_eq; [done|lia].
    + by rewrite (getitem_missing GlobalDefaults self key h params defaults)
        in Hrun.
Qed.

(** X9. A read that returned leaves the key in the provider, whether the
    value was there or came from the global defaults: [key in provider] and
    [has_key] are true afterwards, [get] returns the value that the read
    returned and not its own default, and a second read returns the same
    value and changes nothing. Before the read of a key that only the
    defaults hold, [key in provider] is false and [get] returns its own
    default: [get] does not consult the global defaults. *)
Theorem getitem_then_contains (key : string) (h h' : heap) (c : value)
  (params defaults : list (string * value)) :
  closed h →
  h !! _params self = Some (ODict params) →
  h !! GlobalDefaults = Some (ODict defaults) →
  __getitem__ GlobalDefaults self key h = (inr c, h') →
  __contains__ self key h' = (inr true, h') ∧
  has_key self key h' = (inr true, h') ∧
  (∀ d, get self key d h' = (inr c, h')) ∧
  __getitem__ GlobalDefaults self key h' = (inr c, h') ∧
  (dict_get params key = None →
   __contains__ self key h = (inr false, h) ∧
   ∀ d, get self key d h = (inr d, h)).
Proof.
  intros Hclosed Hp HG Hrun.
  destruct (getitem_stored key h h' c params defaults Hclosed Hp HG Hrun)
    as (params' & Hp' & Hc).
  split_and!.
  - rewrite (contains_run key h' params' Hp'), Hc.
    by rewrite bool_decide_eq_true_2 by eauto.
  - change (has_key self key h') with (__contains__ self key h').
    rewrite (contains_run key h' params' Hp'), Hc.
    by rewrite bool_decide_eq_true_2 by eauto.
  - intros d. by rewrite (get_run key d h' params' Hp'), Hc.
  - by apply (getitem_local GlobalDefaults self key c h' params').
  - intros Hv. split.
    + rewrite (contains_run key h params Hp), Hv.
      rewrite bool_decide_eq_false_2; [done|]. by intros [? ?].
    + intros d. by rewrite (get_run key d h params Hp), Hv.
Qed.

(** X10. A default is read once. After the read of a key that only the
    global defaults hold, any change to the objects that existed before the
    read, the table of the defaults and the default value among them,
    leaves the parameter as it is: as long as the dict of the provider and
    the objects created by the read are in place, the read returns the same
    value, and it shows what the default showed at the first read. *)
Theorem getitem_default_frozen (key : string) (d : value) (h : heap)
  (params defaults : list (string * value)) :
  closed h →
  h !! _params self = Some (ODict params) →
  h !! GlobalDefaults = Some (ODict defaults) →
  dict_get params key = None → dict_get defaults key = Some d →
  ∃ c h',
    __getitem__ GlobalDefaults self key h = (inr c, h') ∧
    ∀ h2,
      h2 !! _params self = h' !! _params self →
      (∀ l, length h ≤ l < length h' → h2 !! l = h' !! l) →
      __getitem__ GlobalDefaults self key h2 = (inr c, h2) ∧
      ∀ n, snapshot n h2 c = snapshot n h d.
Proof.
  intros Hclosed Hp HG Hv Hd.
  destruct (getitem_default GlobalDefaults self key d h params defaults
              Hclosed Hp HG Hv Hd)
    as (c & h1 & h2 & m1 & m2 & c1 & Hs1 & -> & Hcov1 & Hs2 & -> & Hcov2 &
        Hvd & Hvc1 & Hnew & Hrun).
  pose proof (cs_length _ _ _ Hs1) as Hlen1.
  pose proof (cs_length _ _ _ Hs2) as Hlen2.
  pose proof (lookup_lt_Some _ _ _ Hp) as Hlt. simpl in *.
  pose proof (copy_state_closed h h1 ∅ m1 Hclosed Hs1) as Hclosed1.
  set (c := rename m2 (rename m1 d)) in *.
  set (h' := <[_params self := ODict (dict_set params key c)]> h2) in *.
  exists c, h'. split; [done|]. intros h3 Hp3 Hnew3. split.
  - apply (getitem_local GlobalDefaults self key c h3 (dict_set params key c));
      [|apply dict_get_set_eq].
    rewrite Hp3. unfold h'. rewrite list_lookup_insert_eq; [done|lia].
  - intros n.
    assert (Hagree : ∀ l, length h1 ≤ l < length h2 → h3 !! l = h2 !! l).
    { intros l Hl. rewrite Hnew3.
      - unfold h'. rewrite list_lookup_insert_ne; [done|lia].
      - unfold h'. rewrite length_insert. lia. }
    rewrite (snapshot_new_region h1 h2 h3 ∅ m2 Hs2 Hagree n c Hnew).
    unfold c. rewrite (snapshot_copy h1 h2 m2 Hclosed1 Hs2 n _ Hvc1 Hcov2).
    apply (snapshot_copy h h1 m1 Hclosed Hs1 n d Hvd Hcov1).
Qed.

(** A value that does not lead to the dict of the provider shows the same
    after a change of that dict and the addition of new objects. *)
Lemma snapshot_apart (h h1 : heap) (v : value) :
  closed h → valid_value (length h) v →
  ¬ reachable h v (_params self) →
  (∀ l, l < length h → l ≠ _params self → h1 !! l = h !! l) →
  ∀ n, snapshot n h1 v = snapshot n h v.
Proof.
  intros Hclosed Hv Hnr Hagree n.
  apply (snapshot_agree (λ l, reachable h v l)).
  - intros l o Hl Ho. apply Forall_forall. intros w Hw.
    destruct w as [| | |a]; try done. simpl.
    clear -Hl Ho Hw. induction Hl as [l|l o' w' a' Ho' Hw' _ IH].
    + eapply reach_step; [done..|]. constructor.
    + eapply reach_step; [done..|]. by apply IH.
  - intros l Hl. apply Hagree.
    + by apply (reachable_old h v l Hclosed Hv).
    + intros ->. done.
  - destruct v; try done. simpl. constructor.
Qed.

(** X11. [provider[key] = value] leaves the other parameters as they are:
    a key that was absent stays absent, a key that was present keeps its
    value, and that value shows what it showed before (the dict of the
    provider not being reachable from it). The key that was set is present
    afterwards. *)
Theorem setitem_other_keys (key : string) (v : value) (h : heap)
  (params : list (string * value)) :
  closed h →
  h !! _params self = Some (ODict params) →
  valid_value (length h) v →
  ∃ h1,
    __setitem__ self key v h = (inr tt, h1) ∧
    __contains__ self key h1 = (inr true, h1) ∧
    ∀ key', key' ≠ key →
      match dict_get params key' with
      | Some w =>
          __getitem__ GlobalDefaults self key' h1 = (inr w, h1) ∧
          (¬ reachable h w (_params self) →
           ∀ n, snapshot n h1 w = snapshot n h w)
      | None => __contains__ self key' h1 = (inr false, h1)
      end.
Proof.
  intros Hclosed Hp Hv. pose proof (lookup_lt_Some _ _ _ Hp) as Hlt.
  destruct (setitem_ok self key v h params Hclosed Hp Hv)
    as (c & m & h' & Hs & -> & Hcov & Hnew & Hset).
  pose proof (cs_length _ _ _ Hs) as Hlen. simpl in Hlen.
  set (c := rename m v) in *.
  set (h1 := <[_params self := ODict (dict_set params key c)]> h') in *.
  assert (Hp1 : h1 !! _params self = Some (ODict (dict_set params key c))).
  { unfold h1. rewrite list_lookup_insert_eq; [done|lia]. }
  exists h1. split_and!; [done| |].
  - rewrite (contains_run key h1 _ Hp1), dict_get_set_eq.
    by rewrite bool_decide_eq_true_2 by eauto.
  - intros key' Hne. destruct (dict_get params key') as [w|] eqn:Hw.
    + split.
      * apply (getitem_local GlobalDefaults self key' w h1 _ Hp1).
        by rewrite dict_get_set_ne.
      * intros Hnr. apply (snapshot_apart h h1 w Hclosed); [|done|].
        -- pose proof (Hclosed _ _ Hp) as Hf. simpl in Hf.
           rewrite Forall_forall in Hf. apply Hf.
           clear -Hw. induction params as [|[k x] params IH]; [done|].
           simpl in *. case_decide; [injection Hw as ->; by left|].
           right. by apply IH.
        -- intros l Hl Hnp. unfold h1. rewrite list_lookup_insert_ne by done.
           rewrite <-(cs_old _ _ _ Hs). simpl. by rewrite lookup_take_lt.
    + rewrite (contains_run key' h1 _ Hp1), dict_get_set_ne, Hw by done.
      rewrite bool_decide_eq_false_2; [done|]. by intros [? ?].
Qed.

Lemma dict_get_elem (kvs : list (string * value)) (key : string) (v : value) :
  dict_get kvs key = Some v → (key, v) ∈ kvs.
Proof.
  induction kvs as [|[k x] kvs IH]; [done|]. simpl.
  case_decide; [intros [= ->]; subst; by left|]. right. by apply IH.
Qed.

Lemma dict_get_None (kvs : list (string * value)) (key : string) :
  dict_get kvs key = None → key ∉ kvs.*1.
Proof.
  induction kvs as [|[k x] kvs IH]; [intros _ ?%elem_of_nil; done|]. simpl.
  case_decide; [done|]. intros Hn [?|?]%elem_of_cons; [done|].
  by apply IH.
Qed.

(** The loop of [update_parameters] from a heap [hcur] that has grown out of
    [h0] by copies. *)
Lemma update_loop (h0 : heap) (items : list (string * value)) :
  closed h0 → _params self < length h0 →
  ∀ (hcur : heap) (pcur : list (string * value)),
  closed hcur → length h0 ≤ length hcur →
  (∀ l, l < length h0 → l ≠ _params self → hcur !! l = h0 !! l) →
  hcur !! _params self = Some (ODict pcur) →
  NoDup items.*1 →
  Forall (valid_value (length h0)) items.*2 →
  ∃ h1 p1,
    for_each items (λ kv, __setitem__ self kv.1 kv.2) hcur = (inr tt, h1) ∧
    closed h1 ∧ length hcur ≤ length h1 ∧
    h1 !! _params self = Some (ODict p1) ∧
    (∀ l, l < length hcur → l ≠ _params self → h1 !! l = hcur !! l) ∧
    (∀ key, key ∉ items.*1 → dict_get p1 key = dict_get pcur key) ∧
    (∀ key v, (key, v) ∈ items → ¬ reachable h0 v (_params self) →
       ∃ c, dict_get p1 key = Some c ∧
            (∀ n, snapshot n h1 c = snapshot n h0 v) ∧
            ∀ a, reachable h1 c a → length h0 ≤ a).
Proof.
  intros Hclosed0 Hlt0.
  induction items as [|[key v] items IH];
    intros hcur pcur Hclosed Hlen Hold Hp Hnd Hval.
  - exists hcur, pcur. split_and!; try done.
    intros key v Hin. by apply elem_of_nil in Hin.
  - apply NoDup_cons in Hnd as [Hkey Hnd].
    apply Forall_cons in Hval as [Hv Hval]. simpl in *.
    assert (Hv' : valid_value (length hcur) v).
    { destruct v; try done. simpl in *. lia. }
    destruct (setitem_ok self key v hcur pcur Hclosed Hp Hv')
      as (c & m & h' & Hs & -> & Hcov & Hnew & Hset).
    pose proof (cs_length _ _ _ Hs) as Hlen'. simpl in Hlen'.
    pose proof (copy_state_closed hcur h' ∅ m Hclosed Hs) as Hclosed'.
    set (c := rename m v) in *.
    set (h2 := <[_params self := ODict (dict_set pcur key c)]> h') in *.
    assert (Hh2 : ∀ l, l ≠ _params self → h2 !! l = h' !! l).
    { intros l Hl. unfold h2. by rewrite list_lookup_insert_ne. }
    assert (Hh' : ∀ l, l < length hcur → h' !! l = hcur !! l).
    { intros l Hl. rewrite <-(cs_old _ _ _ Hs). simpl.
      by rewrite lookup_take_lt. }
    assert (Hp2 : h2 !! _params self = Some (ODict (dict_set pcur key c))).
    { unfold h2. rewrite list_lookup_insert_eq; [done|lia]. }
    assert (Hclosed2 : closed h2).
    { apply closed_store_dict; [done|].
      apply dict_set_fields.
      - pose proof (Hclosed _ _ Hp) as Hf. simpl in Hf.
        eapply Forall_impl; [exact Hf|]. intros [] ?; simpl in *; try done. lia.
      - destruct c; try done. simpl in *. lia. }
    destruct (IH h2 (dict_set pcur key c)) as
      (h1 & p1 & Hrun & Hclosed1 & Hlen1 & Hp1 & Hframe & Hother & Hcopy);
      [done|unfold h2; rewrite length_insert; lia| |done..|].
    { intros l Hl Hne. rewrite Hh2, Hh' by (done || lia). by apply Hold. }
    assert (Hlen2 : length h2 = length h') by (unfold h2; by rewrite length_insert).
    exists h1, p1. split_and!; [|done|lia|done| | |].
    + simpl. unfold bind at 1. by rewrite Hset.
    + intros l Hl Hne. rewrite Hframe, Hh2, Hh' by (done || lia). done.
    + intros k Hk. apply not_elem_of_cons in Hk as [Hne Hk].
      rewrite (Hother k Hk). by rewrite dict_get_set_ne.
    + intros k w [[= -> ->]|Hin]%elem_of_cons Hnr.
      * exists c. rewrite (Hother key Hkey), dict_get_set_eq.
        assert (Hagree : ∀ l, length hcur ≤ l < length h' → h1 !! l = h' !! l).
        { intros l Hl. rewrite Hframe, Hh2 by lia. done. }
        split_and!; [done| |].
        -- intros n.
           rewrite (snapshot_new_region hcur h' h1 ∅ m Hs Hagree n c Hnew).
           unfold c.
           rewrite (snapshot_copy hcur h' m Hclosed Hs n v Hv' Hcov).
           by apply (snapshot_apart h0 hcur v).
        -- intros a Hr.
           pose proof (reachable_new_region hcur h' h1 ∅ m c a Hs Hagree Hnew Hr).
           lia.
      * by apply Hcopy.
Qed.

(** X12. The loop of [update_parameters] enters a copy of every value of
    the given dict and keeps the parameters under the other keys: afterwards
    the provider holds, under each key of the dict, a value that shows what
    the value of the dict showed and that leads to new objects only (the
    dict of the provider not being reachable from that value); the keys that
    the dict lacks keep their values; and no object that existed before,
    the dict of the provider apart, is changed. *)
Theorem update_items_copies (params : addr) (h : heap)
  (own items : list (string * value)) :
  closed h →
  h !! _params self = Some (ODict own) →
  h !! params = Some (ODict items) →
  NoDup items.*1 →
  ∃ h1 own1,
    update_items self params h = (inr tt, h1) ∧
    h1 !! _params self = Some (ODict own1) ∧
    (∀ l, l < length h → l ≠ _params self → h1 !! l = h !! l) ∧
    (∀ key, dict_get items key = None → dict_get own1 key = dict_get own key) ∧
    (∀ key v, dict_get items key = Some v → ¬ reachable h v (_params self) →
       ∃ c, dict_get own1 key = Some c ∧
            (∀ n, snapshot n h1 c = snapshot n h v) ∧
            ∀ a, reachable h1 c a → length h ≤ a).
Proof.
  intros Hclosed Hp Hitems Hnd.
  pose proof (lookup_lt_Some _ _ _ Hp) as Hlt.
  destruct (update_loop h items Hclosed Hlt h own Hclosed (le_n _)) as
    (h1 & p1 & Hrun & _ & _ & Hp1 & Hframe & Hother & Hcopy);
    [done..|exact (Hclosed _ _ Hitems)|].
  exists h1, p1. split_and!; [|done|done| |].
  - unfold update_items.
    by rewrite (bind_ok _ _ h h items) by (by apply load_dict_ok).
  - intros key Hkey. by apply Hother, dict_get_None.
  - intros key v Hkey. by apply Hcopy, dict_get_elem.
Qed.

End provider_more.


(** ** More on the gradient *)

Lemma Cadd_zero_r (z : C) : Cadd z Czero = z.
Proof. destruct z. unfold Cadd, Czero. simpl. f_equal; ring. Qed.

Lemma insert_app_two {A : Type} (l : list A) (b z x : A) :
  <[S (length l) := x]> (l ++ [b; z]) = l ++ [b; x].
Proof. induction l as [|y l IH]; simpl; [done|by f_equal]. Qed.

(** The call up to the loop over the nodes: the conjugate of [P] and the new
    array of zeros are allocated behind the arrays of the store. *)
Lemma apply_gradient_component_loop (σ : store)
  (wavepacket : HagedornWavepacket) (component : nat)
  (K : shape) (ca pa Pa : ndarray) :
  read_input σ wavepacket component = Some (K, ca, pa, Pa) →
  ∃ coeffs p P : loc,
    coeffs < length σ ∧ p < length σ ∧ P < length σ ∧
    loop_store K (wp_dimension wavepacket) coeffs p P (length σ)
      (S (length σ)) ca pa Pa (map (map Cconj) Pa)
      (σ ++ [map (map Cconj) Pa;
             replicate (get_basis_size (extend K))
               (replicate (wp_dimension wavepacket) Czero)])
      (replicate (get_basis_size (extend K))
         (replicate (wp_dimension wavepacket) Czero)) ∧
    apply_gradient_component wavepacket component σ =
    (for_each (nodes K)
       (stencil_at (extend K) K (wp_eps wavepacket) coeffs p P (length σ)
          (S (length σ)));;
     mret (extend K, S (length σ)))
      (σ ++ [map (map Cconj) Pa;
             replicate (get_basis_size (extend K))
               (replicate (wp_dimension wavepacket) Czero)]).
Proof.
  unfold read_input.
  destruct wavepacket as [D eps [[[[q p] Q] P] S0] shapes coefs]. simpl.
  intros Hread.
  destruct (shapes !! component) as [K'|] eqn:HK; [|done]. simpl in Hread.
  destruct (coefs !! component) as [coeffs|] eqn:Hcoeffs; [|done].
  simpl in Hread.
  destruct (σ !! coeffs) as [ca'|] eqn:Hσca; [|done]. simpl in Hread.
  destruct (σ !! p) as [pa'|] eqn:Hσp; [|done]. simpl in Hread.
  destruct (σ !! P) as [Pa'|] eqn:HσP; [|done]. simpl in Hread.
  injection Hread as -> -> -> ->.
  set (B := map (map Cconj) Pa).
  set (Z0 := replicate (get_basis_size (extend K)) (replicate D Czero)).
  set (σ1 := σ ++ [B]).
  assert (Hl1 : length σ1 = S (length σ)).
  { unfold σ1. rewrite length_app. simpl. lia. }
  pose proof (lookup_lt_Some _ _ _ Hσca) as Hlt_c.
  pose proof (lookup_lt_Some _ _ _ Hσp) as Hlt_p.
  pose proof (lookup_lt_Some _ _ _ HσP) as Hlt_P.
  replace (σ ++ [B; Z0]) with (σ1 ++ [Z0])
    by (unfold σ1; by rewrite <-app_assoc).
  exists coeffs, p, P. split_and!; [done..| |].
  - unfold loop_store, block_store, σ1. split_and!.
    + rewrite !lookup_app_l; [done|lia|rewrite length_app; simpl; lia].
    + rewrite <-Hl1. unfold σ1. by rewrite list_lookup_middle.
    + apply has_shape_zeros.
    + rewrite !lookup_app_l; [done|lia|rewrite length_app; simpl; lia].
    + rewrite !lookup_app_l; [done|lia|rewrite length_app; simpl; lia].
    + rewrite lookup_app_l by (rewrite length_app; simpl; lia).
      by rewrite list_lookup_middle.
  - unfold apply_gradient_component, get_parameters, get_dimension, get_eps.
    simpl.
    rewrite (bind_ok _ _ σ σ (q, p, Q, P, S0)) by done.
    rewrite (bind_ok _ _ σ σ1 (length σ)).
    2:{ unfold conjugate. rewrite (bind_ok _ _ σ σ Pa); [done|].
        unfold load. by rewrite HσP. }
    rewrite (bind_ok _ _ σ1 σ1 coeffs).
    2:{ unfold get_coefficients. simpl. by rewrite Hcoeffs. }
    rewrite (bind_ok _ _ σ1 σ1 K).
    2:{ unfold get_basis_shapes. simpl. by rewrite HK. }
    rewrite (bind_ok _ _ σ1 (σ1 ++ [Z0]) (S (length σ))).
    2:{ unfold zeros, alloc. by rewrite Hl1. }
    done.
Qed.

(** X15. A coefficient array with fewer rows than the shape has nodes makes
    the call fail with IndexError at the first node without a row: the
    arrays of the store are as they were, and behind them the store holds
    the conjugate of [P] and the new array with the contributions of the
    nodes before that node, and of no other. *)
Theorem apply_gradient_component_short_coefficients (σ : store)
  (wavepacket : HagedornWavepacket) (component : nat)
  (K : shape) (ca pa Pa : ndarray) :
  read_input σ wavepacket component = Some (K, ca, pa, Pa) →
  dimension K = wp_dimension wavepacket →
  NoDup (nodes K) →
  Forall (λ r : list C, length r = 1) ca →
  length ca < get_basis_size K →
  has_shape (wp_dimension wavepacket) 1 pa →
  has_shape (wp_dimension wavepacket) (wp_dimension wavepacket) Pa →
  apply_gradient_component wavepacket component σ =
  (inl IndexError,
   σ ++ [map (map Cconj) Pa;
         scatter_add
           (take (length ca) (nodes K) ≫=
              node_contributions (extend K) (extend K) (extend K) K
                (wp_eps wavepacket) ca pa Pa (map (map Cconj) Pa))
           (replicate (get_basis_size (extend K))
              (replicate (wp_dimension wavepacket) Czero))]).
Proof.
  intros Hread HD Hnd Hrows Hshort Hpa HPa.
  destruct (apply_gradient_component_loop σ wavepacket component K ca pa Pa
              Hread) as (coeffs & p & P & Hc & Hp & HP & Hloop & ->).
  set (D := wp_dimension wavepacket) in *. set (eps := wp_eps wavepacket).
  set (B := map (map Cconj) Pa) in *.
  set (Z0 := replicate (get_basis_size (extend K)) (replicate D Czero)) in *.
  set (σ2 := σ ++ [B; Z0]) in *.
  destruct (lookup_lt_is_Some_2 (nodes K) (length ca)) as [k Hk]; [done|].
  pose proof (take_drop_middle _ _ _ Hk) as Hsplit.
  assert (Hfirst : for_each (take (length ca) (nodes K))
            (stencil_at (extend K) K eps coeffs p P (length σ) (S (length σ)))
            σ2 =
          (inr tt,
           <[S (length σ) :=
               scatter_add
                 (take (length ca) (nodes K) ≫=
                    node_contributions (extend K) (extend K) (extend K) K eps
                      ca pa Pa B) Z0]> σ2)).
  { apply (stencil_loop_value K eps D coeffs p P (length σ) (S (length σ))
             ca pa Pa B); try done; try lia.
    - by apply has_shape_conj.
    - intros k' Hk'. apply list_elem_of_lookup in Hk' as [i Hi].
      pose proof (lookup_lt_Some _ _ _ Hi) as Hlt.
      rewrite length_take in Hlt.
      rewrite lookup_take_lt in Hi by lia. split.
      + by eapply list_elem_of_lookup_2.
      + unfold coefficient_value. rewrite (getitem_lookup K k' i Hnd Hi).
        simpl. destruct (lookup_lt_is_Some_2 ca i) as [row Hrow]; [lia|].
        rewrite Hrow. simpl.
        pose proof (Forall_lookup_1 _ _ _ _ Hrows Hrow) as Hl. simpl in Hl.
        destruct row as [|x [|y row]]; simplify_eq/=; eauto. }
  set (σ3 := <[S (length σ) := _]> σ2) in Hfirst.
  trans (inl IndexError : exn + shape * loc, σ3);
    [|f_equal; unfold σ3, σ2; apply insert_app_two].
  rewrite <-Hsplit.
  unfold mbind, M_bind, bind at 1.
  rewrite (for_each_app _ _ _ _ _ Hfirst).
  assert (Hfail : stencil_at (extend K) K eps coeffs p P (length σ)
                    (S (length σ)) k σ3 = (inl IndexError, σ3)).
  { unfold stencil_at, central_term.
    assert (Hke : is_Some (getitem (extend K) k)).
    { apply getitem_is_Some, extend_elem. left.
      by eapply list_elem_of_lookup_2. }
    destruct Hke as [i Hi].
    apply bind_err. rewrite (bind_ok _ _ σ3 σ3 i) by (by rewrite Hi).
    apply bind_err. unfold coefficient_at.
    rewrite (bind_ok _ _ σ3 σ3 (length ca))
      by (by rewrite (getitem_lookup K k _ Hnd Hk)).
    rewrite (bind_ok _ _ σ3 σ3 ca).
    2:{ unfold load, σ3. rewrite list_lookup_insert_ne by lia.
        destruct Hloop as ((Hca & _) & _). by rewrite Hca. }
    apply bind_err. by rewrite lookup_ge_None_2. }
  simpl. unfold bind at 1. by rewrite Hfail.
Qed.

(** X16. The call reads the shape, the coefficients, [p] and [P] only: on
    two stores that hold the same valid input, whatever they hold for [q],
    [Q] and [S] and elsewhere, it returns the same extended shape and the
    same new coefficients. *)
Theorem apply_gradient_component_reads (σ1 σ2 : store)
  (wavepacket : HagedornWavepacket) (component : nat)
  (inp : shape * ndarray * ndarray * ndarray) :
  read_input σ1 wavepacket component = Some inp →
  read_input σ2 wavepacket component = Some inp →
  valid_input (wp_dimension wavepacket) inp →
  ∃ (cnew1 cnew2 : loc) (a : ndarray),
    (apply_gradient_component wavepacket component σ1).1 =
      inr (extend inp.1.1.1, cnew1) ∧
    (apply_gradient_component wavepacket component σ1).2 !! cnew1 = Some a ∧
    (apply_gradient_component wavepacket component σ2).1 =
      inr (extend inp.1.1.1, cnew2) ∧
    (apply_gradient_component wavepacket component σ2).2 !! cnew2 = Some a.
Proof.
  intros Hread1 Hread2 Hvalid.
  rewrite (apply_gradient_component_ok σ1 wavepacket component _ Hread1 Hvalid).
  rewrite (apply_gradient_component_ok σ2 wavepacket component _ Hread2 Hvalid).
  exists (S (length σ1)), (S (length σ2)). eexists. simpl.
  split_and!; [done| |done|].
  - rewrite lookup_app_r by lia.
    by replace (S (length σ1) - length σ1) with 1 by lia.
  - rewrite lookup_app_r by lia.
    by replace (S (length σ2) - length σ2) with 1 by lia.
Qed.


(** ** The kinetic energy *)

Section observables_facts.

Context (apply_gradient : HagedornWavepacket → nat → M store (shape * loc)).

Lemma component_energies_cons (wavepacket : HagedornWavepacket) (n : nat)
  (rest : list nat) (σ : store) :
  component_energies apply_gradient wavepacket (n :: rest) σ =
  match apply_gradient wavepacket n σ with
  | (inr (Kprime, cnew), σ1) =>
      match σ1 !! cnew with
      | Some a =>
          match component_energies apply_gradient wavepacket rest σ1 with
          | (inr ekin, σ2) => (inr (energy_of a :: ekin), σ2)
          | (inl e, σ2) => (inl e, σ2)
          end
      | None => (inl ValueError, σ1)
      end
  | (inl e, σ1) => (inl e, σ1)
  end.
Proof.
  cbn [component_energies]. unfold mbind, M_bind, bind, load.
  destruct (apply_gradient wavepacket n σ) as [[e|[Kprime cnew]] σ1]; [done|].
  destruct (σ1 !! cnew) as [a|]; [|done].
  by destruct (component_energies _ _ _ σ1) as [[e|ekin] σ2].
Qed.

Lemma component_energies_length (wavepacket : HagedornWavepacket)
  (components : list nat) (σ σ' : store) (ekin : list C) :
  component_energies apply_gradient wavepacket components σ = (inr ekin, σ') →
  length ekin = length components.
Proof.
  revert σ σ' ekin.
  induction components as [|n rest IH]; intros σ σ' ekin.
  - by intros [= <- <-].
  - rewrite component_energies_cons.
    destruct (apply_gradient wavepacket n σ) as [[e|[Kprime cnew]] σ1]; [done|].
    destruct (σ1 !! cnew) as [a|]; [|done].
    destruct (component_energies _ _ _ σ1) as [[e|ekin'] σ2] eqn:Hrest; [done|].
    intros [= <- <-]. simpl. by rewrite (IH _ _ _ Hrest).
Qed.

(** X18. Summation commutes with the call: with [summed=True] the call
    returns the sum of the list that it returns with [summed=False], and for
    a single component the number that it returns with [summed=False]; it
    fails when that call fails, with the same exception and the same
    store. *)
Theorem kinetic_energy_summed (wavepacket : HagedornWavepacket)
  (component : option nat) (σ : store) :
  kinetic_energy apply_gradient wavepacket component true σ =
  match kinetic_energy apply_gradient wavepacket component false σ with
  | (inr (EList es), σ') => (inr (EScalar (Csum es)), σ')
  | (inr (EScalar e), σ') => (inr (EScalar e), σ')
  | (inl e, σ') => (inl e, σ')
  end.
Proof.
  unfold kinetic_energy, mbind, M_bind, bind.
  destruct (component_energies _ _ _ σ) as [[e|ekin] σ1] eqn:Hrun; [done|].
  apply component_energies_length in Hrun as Hl.
  destruct component as [n|]; [|done].
  destruct ekin as [|e [|e' ekin]]; try done. simpl.
  unfold mret, M_ret, ret. by rewrite Cadd_zero_r.
Qed.

Lemma frame_component_energies (n : nat) (wavepacket : HagedornWavepacket)
  (components : list nat) :
  (∀ i, frame n (apply_gradient wavepacket i) (λ _, True)) →
  frame n (component_energies apply_gradient wavepacket components)
    (λ _, True).
Proof.
  intros Hg. induction components as [|i rest IH].
  - by apply (frame_ret n).
  - cbn [component_energies].
    apply (frame_bind n _ _ (λ _, True)); [apply Hg|]. intros [Kprime cnew] _.
    apply (frame_bind n _ _ (λ _, True)); [apply frame_load|]. intros a _.
    apply (frame_bind n _ _ (λ _, True)); [apply IH|]. intros ekin _.
    by apply (frame_ret n).
Qed.

(** X19. [kinetic_energy] changes no array that was there before, whether it
    returns or fails, if the gradient changes none: it allocates nothing and
    writes nothing itself. *)
Theorem kinetic_energy_frame (n : nat) (wavepacket : HagedornWavepacket)
  (component : option nat) (summed : bool) :
  (∀ i, frame n (apply_gradient wavepacket i) (λ _, True)) →
  frame n (kinetic_energy apply_gradient wavepacket component summed)
    (λ _, True).
Proof.
  intros Hg. unfold kinetic_energy.
  apply (frame_bind n _ _ (λ _, True));
    [by apply frame_component_energies|]. intros ekin _.
  destruct summed; [by apply (frame_ret n)|].
  destruct component as [i|]; [|by apply (frame_ret n)].
  apply (frame_bind n _ _ (λ _, True)); [apply frame_lift_opt|]. intros e _.
  by apply (frame_ret n).
Qed.

End observables_facts.


(** ** Instances on the scenario *)

Lemma scenario_valid (ca : ndarray) :
  has_shape 3 1 ca → valid_input (wp_dimension packet3) (K3, ca, [[one]], [[one]]).
Proof.
  intros Hca. split; [reflexivity|]. split; [exact Hca|].
  split; (split; [reflexivity|repeat constructor]).
Qed.

Lemma has_shape_c3 : has_shape 3 1 c3.
Proof. split; [reflexivity|repeat constructor]. Qed.

Lemma apply_gradient_component_short_coefficients_witness :
  apply_gradient_component packet3 0 store3_short =
  (inl IndexError,
   store3_short ++
     [[[Cconj one]]; [[one]; [(sqrt (1 / 2), 0%R)]; [Czero]; [Czero]]]).
Proof.
  etrans.
  - apply (apply_gradient_component_short_coefficients store3_short packet3 0
             K3 [[one]; [Czero]] [[one]] [[one]]).
    + reflexivity.
    + reflexivity.
    + apply (bool_decide_unpack (NoDup (nodes K3))). vm_compute. exact I.
    + repeat constructor.
    + vm_compute. lia.
    + split; [reflexivity|repeat constructor].
    + split; [reflexivity|repeat constructor].
  - f_equal. f_equal. f_equal. f_equal.
    unfold node_contributions, backward_contributions,
      forward_contributions, central_contribution.
    cbn [length take nodes K3 mbind list_bind extend wp_eps wp_dimension
         packet3].
    eval_lookups. eval_struct (get_basis_size (extend K3)).
    unfold scatter_add, ladder_row, column_of, component_of. simpl.
    replace (1 * (1 * 1) / 2)%R with (1 / 2)%R by lra.
    replace (0 + 1)%R with 1%R by lra. rewrite sqrt_1.
    unfold Cadd, Cmul, RtoC, Cconj, one, Czero. simpl.
    repeat f_equal; ring.
Defined.

Lemma apply_gradient_component_reads_witness :
  ∃ (cnew1 cnew2 : loc) (a : ndarray),
    (apply_gradient_component packet3 0 store3).1 = inr (extend K3, cnew1) ∧
    (apply_gradient_component packet3 0 store3).2 !! cnew1 = Some a ∧
    (apply_gradient_component packet3 0 (<[0 := [[one]]]> store3)).1 =
      inr (extend K3, cnew2) ∧
    (apply_gradient_component packet3 0 (<[0 := [[one]]]> store3)).2 !! cnew2 =
      Some a.
Proof.
  apply (apply_gradient_component_reads store3 (<[0 := [[one]]]> store3)
           packet3 0 (K3, c3, [[one]], [[one]])).
  - reflexivity.
  - reflexivity.
  - apply scenario_valid, has_shape_c3.
Defined.

Lemma kinetic_energy_frame_witness :
  frame 6 (kinetic_energy apply_gradient_component packet3 None true)
    (λ _, True).
Proof.
  apply (kinetic_energy_frame apply_gradient_component 6 packet3 None true).
  intros i.
  apply (frame_weaken 6 _ _ _ (frame_apply_gradient_component 6 packet3 i)).
  done.
Defined.

(** ** Instances on the heap of the provider *)

Lemma heap_read_run :
  __getitem__ 1 provider0 "save_at" heap0 = (inr (VRef 4), heap_read).
Proof. vm_compute. reflexivity. Qed.

Lemma getitem_then_contains_witness :
  __contains__ provider0 "save_at" heap_read = (inr true, heap_read) ∧
  has_key provider0 "save_at" heap_read = (inr true, heap_read) ∧
  (∀ d, get provider0 "save_at" d heap_read = (inr (VRef 4), heap_read)) ∧
  __getitem__ 1 provider0 "save_at" heap_read = (inr (VRef 4), heap_read) ∧
  (dict_get [("dt"%string, VInt 1)] "save_at" = None →
   __contains__ provider0 "save_at" heap0 = (inr false, heap0) ∧
   ∀ d, get provider0 "save_at" d heap0 = (inr d, heap0)).
Proof.
  exact (getitem_then_contains 1 provider0 "save_at" heap0 heap_read (VRef 4)
           [("dt"%string, VInt 1)] [("save_at"%string, VRef 2)]
           closed_heap0 eq_refl eq_refl heap_read_run).
Defined.

Lemma getitem_default_frozen_witness :
  ∃ c h',
    __getitem__ 1 provider0 "save_at" heap0 = (inr c, h') ∧
    ∀ h2,
      h2 !! 0 = h' !! 0 →
      (∀ l, 3 ≤ l < length h' → h2 !! l = h' !! l) →
      __getitem__ 1 provider0 "save_at" h2 = (inr c, h2) ∧
      ∀ n, snapshot n h2 c = snapshot n heap0 (VRef 2).
Proof.
  exact (getitem_default_frozen 1 provider0 "save_at" (VRef 2) heap0
           [("dt"%string, VInt 1)] [("save_at"%string, VRef 2)]
           closed_heap0 eq_refl eq_refl eq_refl eq_refl).
Defined.

Lemma setitem_other_keys_witness :
  ∃ h1,
    __setitem__ provider0 "save_at" (VRef 2) heap0 = (inr tt, h1) ∧
    __contains__ provider0 "save_at" h1 = (inr true, h1) ∧
    ∀ key', key' ≠ "save_at"%string →
      match dict_get [("dt"%string, VInt 1)] key' with
      | Some w =>
          __getitem__ 1 provider0 key' h1 = (inr w, h1) ∧
          (¬ reachable heap0 w 0 → ∀ n, snapshot n h1 w = snapshot n heap0 w)
      | None => __contains__ provider0 key' h1 = (inr false, h1)
      end.
Proof.
  apply (setitem_other_keys 1 provider0 "save_at" (VRef 2) heap0
           [("dt"%string, VInt 1)] closed_heap0 eq_refl).
  simpl. lia.
Defined.

Lemma update_items_copies_witness :
  ∃ h1 own1,
    update_items provider0 1 heap0 = (inr tt, h1) ∧
    h1 !! 0 = Some (ODict own1) ∧
    (∀ l, l < 3 → l ≠ 0 → h1 !! l = heap0 !! l) ∧
    (∀ key, dict_get [("save_at"%string, VRef 2)] key = None →
       dict_get own1 key = dict_get [("dt"%string, VInt 1)] key) ∧
    (∀ key v, dict_get [("save_at"%string, VRef 2)] key = Some v →
       ¬ reachable heap0 v 0 →
       ∃ c, dict_get own1 key = Some c ∧
            (∀ n, snapshot n h1 c = snapshot n heap0 v) ∧
            ∀ a, reachable h1 c a → 3 ≤ a).
Proof.
  apply (update_items_copies provider0 1 heap0 [("dt"%string, VInt 1)]
           [("save_at"%string, VRef 2)] closed_heap0 eq_refl eq_refl).
  apply NoDup_singleton.
Defined.
